(** * MLM: Multi-Level-Migration analysis

    A shallow embedding of [MLM.py] and [parse_annotated_nexus.py] and
    the properties of their node table, weight recursion, region
    aggregation and annotation extraction.

    Conventions of the embedding.
    - A Python exception is a value of [exn]; code that can raise lives
      in the [result] monad.
    - A node name is [clade.name] of Bio.Phylo: a [str] or [None], hence
      [option string].
    - [node_dict] is a Python [dict]: insertion ordered, one entry per
      key.  It is an association list updated in place ([od_set]); the
      order is what [next(...)] in [calculate_weights] observes.
    - Weights and confidences are Python numbers ([int] 0 and 1, numpy
      numbers read from the table).  The node table and the statistics
      hold them as exact rationals [Qc]; what is stated of their values
      on this reading is stated for whole numbers of bounded sum, on
      which every kind of number computes exactly.  The weight
      recursion is also given over an arbitrary arithmetic
      ([assign_weight_in]), with doubles and numpy's 64-bit integers as
      instances, and what is proved there holds of every kind.
    - A table cell is text or a number.  The lookup returns a number;
      a lookup that would return text stops with [TypeError], so
      nothing is stated about what the code does with such a cell.
    - The recursion of [assign_weight] is bounded by the stack of the
      interpreter: the [limit] argument is the number of nested calls
      of [assign_weight] that it admits (each level of the tree holds
      the frame of the call and that of the generator expression, so
      this is less than half the recursion limit); exceeding it raises
      [RecursionError]. *)

From Stdlib Require Import Ascii String Floats QArith Qcanon.
From stdpp Require Import numbers base option list strings gmap fin_maps.

#[local] Set Warnings "-clear-no-such-hyp".
(* A decimal literal such as 0.1 denotes the nearest double, as in Python. *)
#[local] Set Warnings "-inexact-float".

Local Open Scope Qc_scope.

(** ** Exceptions and results *)

Inductive exn := KeyError | StopIteration | RecursionError | TypeError.

Inductive result (A : Type) :=
  | Ok (a : A)
  | Raise (e : exn).
Arguments Ok {A} a.
Arguments Raise {A} e.

#[global] Instance exn_eq_dec : EqDecision exn.
Proof. solve_decision. Defined.
#[global] Instance result_eq_dec {A} `{EqDecision A} : EqDecision (result A).
Proof. solve_decision. Defined.

#[global] Instance result_ret : MRet result := @Ok.
#[global] Instance result_bind : MBind result :=
  λ A B f m, match m with Ok a => f a | Raise e => Raise e end.

#[global] Instance result_fmap : FMap result :=
  λ A B f m, match m with Ok a => Ok (f a) | Raise e => Raise e end.

Definition is_ok {A} (m : result A) : bool :=
  match m with Ok _ => true | Raise _ => false end.

(** [for x in l: b = f(b, x)] where [f] may raise. *)
Fixpoint foldM {A B} (f : B → A → result B) (l : list A) (b : B) : result B :=
  match l with
  | [] => Ok b
  | a :: l' => b' ← f b a; foldM f l' b'
  end.

(** ** Insertion-ordered dictionaries *)

Section odict.
Context {K V : Type} `{EqDecision K}.

Fixpoint od_get (k : K) (d : list (K * V)) : option V :=
  match d with
  | [] => None
  | (k', v) :: d' => if decide (k = k') then Some v else od_get k d'
  end.

(** [d[k] = v]: an existing key keeps its position, a new key goes last. *)
Fixpoint od_set (k : K) (v : V) (d : list (K * V)) : list (K * V) :=
  match d with
  | [] => [(k, v)]
  | (k', v') :: d' =>
      if decide (k = k') then (k, v) :: d' else (k', v') :: od_set k v d'
  end.

(** [d[k]] as an expression: [KeyError] for a missing key. *)
Definition getitem (k : K) (d : list (K * V)) : result V :=
  match od_get k d with
  | Some v => Ok v
  | None => Raise KeyError
  end.

Definition od_keys (d : list (K * V)) : list K := d.*1.
End odict.

(** ** Python strings

    A [str] is the list of its characters, each a code point below 256
    (an [ascii] of the Standard Library holds eight bits): text of the
    Latin-1 range, which includes the ASCII text of Newick, Nexus and
    trait files. *)

Module PyStr.

(** [c.isspace()], the characters that [strip] removes: of the code
    points below 256 these are 9 to 13, 28 to 32, 133 (NEXT LINE) and
    160 (NO-BREAK SPACE). *)
Definition is_space (a : ascii) : bool :=
  let n := nat_of_ascii a in
  bool_decide ((9 ≤ n ∧ n ≤ 13) ∨ (28 ≤ n ∧ n ≤ 32) ∨ n = 133 ∨ n = 160)%nat.

Fixpoint lstrip (s : string) : string :=
  match s with
  | String a s' => if is_space a then lstrip s' else s
  | EmptyString => EmptyString
  end.

Fixpoint rstrip (s : string) : string :=
  match s with
  | String a s' =>
      match rstrip s' with
      | EmptyString => if is_space a then EmptyString else String a EmptyString
      | r => String a r
      end
  | EmptyString => EmptyString
  end.

(** [s.strip()] *)
Definition strip (s : string) : string := rstrip (lstrip s).

(** [s.startswith(p)] *)
Fixpoint startswith (p s : string) : bool :=
  match p, s with
  | EmptyString, _ => true
  | String a p', String b s' => bool_decide (a = b) && startswith p' s'
  | String _ _, EmptyString => false
  end.

Definition rev_string (acc : list ascii) : string :=
  string_of_list_ascii (rev acc).

(** [s.split(sep)] for a non-empty [sep]: [skip] counts the characters
    of a separator still to be consumed, [cur] is the piece being read,
    reversed. *)
Fixpoint split_go (sep : string) (skip : nat) (cur : list ascii)
    (s : string) : list string :=
  match s with
  | EmptyString => [rev_string cur]
  | String a s' =>
      match skip with
      | S k => split_go sep k cur s'
      | O =>
          if startswith sep s
          then rev_string cur :: split_go sep (String.length sep - 1) [] s'
          else split_go sep 0 (a :: cur) s'
      end
  end.

Definition split (sep s : string) : list string := split_go sep 0 [] s.

(** [s.replace(c, '')] for a one-character [c]. *)
Fixpoint remove_char (c : ascii) (s : string) : string :=
  match s with
  | EmptyString => EmptyString
  | String a s' => if bool_decide (a = c) then remove_char c s'
                   else String a (remove_char c s')
  end.

(** [l[-1]] and [l[0]] of a list returned by [split], never empty. *)
Definition last_piece (l : list string) : string := List.last l EmptyString.
Definition first_piece (l : list string) : string := List.hd EmptyString l.

End PyStr.

(** ** Bio.Phylo clades *)

Abbreviation pyname := (option string).

#[warning="-register-all"]
Inductive Clade := mkClade { name : pyname; clades : list Clade }.

(** [tree.find_clades()]: every clade of the tree, root first, in
    preorder. *)
Fixpoint find_clades (c : Clade) : list Clade :=
  match c with
  | mkClade _ cs => c :: flat_map find_clades cs
  end.

Fixpoint height (c : Clade) : nat :=
  match c with
  | mkClade _ cs => S (foldr (λ ch h, Nat.max (height ch) h) 0%nat cs)
  end.

(** Number of leaves (clades without children) below and including [c]. *)
Fixpoint leaf_count (c : Clade) : nat :=
  match c with
  | mkClade _ [] => 1
  | mkClade _ cs => foldr (λ ch n, (leaf_count ch + n)%nat) 0%nat cs
  end.

(** ** pandas data frames, as far as the confidence lookup uses them *)

Inductive label := LInt (z : Z) | LStr (s : string).
Inductive cell := CStr (s : string) | CNum (q : Qc).

#[global] Instance label_eq_dec : EqDecision label.
Proof. solve_decision. Defined.
#[global] Instance cell_eq_dec : EqDecision cell.
Proof. solve_decision. Defined.

(** Column labels and the rows; every row has one cell per column. *)
Record DataFrame := mkDataFrame { columns : list label; rows : list (list cell) }.

(** Position of a column, [KeyError] when no column has the label. *)
Fixpoint get_loc (l : label) (cols : list label) : result nat :=
  match cols with
  | [] => Raise KeyError
  | l' :: cols' => if decide (l = l') then Ok 0%nat else S <$> get_loc l cols'
  end.

(** * MLM.py *)

(** ** [get_confidence_by_name_and_region] *)

(** [series == name], cell by cell: a node name equals a string cell
    holding the same text and nothing else. *)
Definition cell_is_name (name : pyname) (c : option cell) : bool :=
  match c, name with
  | Some (CStr s), Some n => bool_decide (s = n)
  | _, _ => false
  end.

(** The value handed to the weight arithmetic.  The code returns the
    cell as it is; a cell that holds text is no number of this model,
    which stops there with [TypeError] (in the code [1 * 'x'] is ['x']
    and the next sum raises). *)
Definition cell_value (c : option cell) : result Qc :=
  match c with
  | Some (CNum q) => Ok q
  | _ => Raise TypeError
  end.

Definition get_confidence_by_name_and_region (confi_df : DataFrame)
    (name : pyname) (region : string) : result Qc :=
  if negb (bool_decide (LStr region ∈ columns confi_df)) then Ok 1
  else
    (* [confi_df[0]]: the column whose label is the integer 0 *)
    key ← get_loc (LInt 0) (columns confi_df);
    let row := filter (λ r, cell_is_name name (r !! key) = true) (rows confi_df) in
    match row with
    | r :: _ =>
        if bool_decide (LStr region ∈ columns confi_df)
        then j ← get_loc (LStr region) (columns confi_df); cell_value (r !! j)
        else Ok 1
    | [] => Ok 1
    end.

(** ** The node table *)

(** One value of [node_dict].  ['region'] is a key added by
    [assign_geography]: [None] while the key is absent. *)
Record node_data := mkNode {
  children : list pyname;
  parent : pyname;
  weight : Qc;
  region : option string
}.

#[global] Instance node_data_eq_dec : EqDecision node_data.
Proof. solve_decision. Defined.

Abbreviation node_dict := (list (pyname * node_data)).

Definition set_parent (p : pyname) (d : node_data) : node_data :=
  mkNode (children d) p (weight d) (region d).
Definition append_child (c : pyname) (d : node_data) : node_data :=
  mkNode (children d ++ [c]) (parent d) (weight d) (region d).
Definition set_weight (w : Qc) (d : node_data) : node_data :=
  mkNode (children d) (parent d) w (region d).
Definition set_region (r : string) (d : node_data) : node_data :=
  mkNode (children d) (parent d) (weight d) (Some r).

(** [data.get('region', 'Unknown')] *)
Definition region_of (d : node_data) : string := default "Unknown"%string (region d).

(** [data['region']] *)
Definition getregion (d : node_data) : result string :=
  match region d with
  | Some r => Ok r
  | None => Raise KeyError
  end.

Definition fresh_node : node_data := mkNode [] None 0 None.

(** The body of the inner loop of [create_node_dict]:
    [node_dict[child.name]['parent'] = clade.name] then
    [node_dict[clade.name]['children'].append(child.name)]. *)
Definition link (nd : node_dict) (edge : pyname * pyname) : result node_dict :=
  let '(p, ch) := edge in
  cd ← getitem ch nd;
  let nd := od_set ch (set_parent p cd) nd in
  pd ← getitem p nd;
  Ok (od_set p (append_child ch pd) nd).
Arguments link : simpl never.

Definition create_node_dict (tree : Clade) : result node_dict :=
  let node_dict :=
    fold_left (λ nd clade, od_set (name clade) fresh_node nd) (find_clades tree) [] in
  foldM (λ nd clade,
           foldM (λ nd child, link nd (name clade, name child)) (clades clade) nd)
        (find_clades tree) node_dict.

(** ** [assign_geography] *)

Definition annotate (node region : string) (nd : node_dict) : node_dict :=
  match od_get (Some node) nd with
  | Some d => od_set (Some node) (set_region region d) nd
  | None => nd
  end.

Definition assign_geography (nd : node_dict) (annotations : gmap string string)
    : node_dict :=
  map_fold annotate nd annotations.

(** ** [calculate_weights] *)

(** Numbers are exact rationals here, and [limit] is the number of
    nested calls of [assign_weight] that the interpreter admits. *)

Section weights.
Variable node_dict : list (pyname * node_data).
Variable confi_df : DataFrame.

(** One item of the generator [assign_weight(child) * confidence for
    child in children] added to the running sum, given the recursive
    call [rec]; [weights] is threaded through. *)
Definition sum_step
    (rec : pyname → gmap pyname Qc → result (Qc * gmap pyname Qc))
    (confidence : Qc) (state : Qc * gmap pyname Qc) (child : pyname)
    : result (Qc * gmap pyname Qc) :=
  let '(acc, weights) := state in
  '(w, weights) ← rec child weights;
  Ok (acc + w * confidence, weights).

(** [sum(assign_weight(child) * confidence for child in children)] *)
Definition sum_children
    (rec : pyname → gmap pyname Qc → result (Qc * gmap pyname Qc))
    (confidence : Qc) (cs : list pyname) (weights : gmap pyname Qc)
    : result (Qc * gmap pyname Qc) :=
  foldM (sum_step rec confidence) cs (0, weights).

Fixpoint assign_weight (limit : nat) (node : pyname) (weights : gmap pyname Qc)
    : result (Qc * gmap pyname Qc) :=
  match limit with
  | O => Raise RecursionError
  | S limit' =>
      d ← getitem node node_dict;
      let region := region_of d in
      confidence ← get_confidence_by_name_and_region confi_df node region;
      '(weight, weights) ←
        match children d with
        | [] => Ok (1 * confidence, weights)
        | cs => sum_children (assign_weight limit') confidence cs weights
        end;
      Ok (weight, <[node := weight]> weights)
  end.

(** [next(node for node, data in node_dict.items() if data['parent'] is None)] *)
Fixpoint find_root (nd : list (pyname * node_data)) : result pyname :=
  match nd with
  | [] => Raise StopIteration
  | (n, d) :: nd' => if decide (parent d = None) then Ok n else find_root nd'
  end.

(** [weights[node]] *)
Definition getweight (weights : gmap pyname Qc) (node : pyname) : result Qc :=
  match weights !! node with
  | Some w => Ok w
  | None => Raise KeyError
  end.

Definition calculate_weights (limit : nat) : result (list (pyname * node_data)) :=
  root ← find_root node_dict;
  let weights : gmap pyname Qc := list_to_map ((λ n, (n, 0)) <$> od_keys node_dict) in
  '(_, weights) ← assign_weight limit root weights;
  foldM (λ nd node,
           w ← getweight weights node;
           d ← getitem node nd;
           Ok (od_set node (set_weight w d) nd))
        (od_keys node_dict) node_dict.
End weights.

(** ** The weight recursion over the arithmetic of the interpreter

    [assign_weight] and [calculate_weights] once more, for numbers of
    any kind, so that what is proved of them holds of Python ints,
    doubles and numpy integers alike.  [zero] and [one] are the ints
    [0] (where [sum] starts) and [1] of the source; [add] and [mul] are
    its [+] and [*], which may raise on operands they are not defined
    on; [lookup] is [get_confidence_by_name_and_region(confi_df, ., .)],
    returning whatever the table stores.  [sum] adds the items with [+]
    one by one from the left, starting at the int [0] (the numbers read
    from a table are numpy scalars and the others ints; the shortcut of
    [sum] for plain Python floats is not taken).  The node table is
    read for children and regions only; [limit] bounds the nesting of
    the calls of [assign_weight] that the interpreter's stack admits. *)

Section machine_arithmetic.
Context {num : Type}.
Variables (zero one : num) (add mul : num → num → result num).
Variable lookup : pyname → string → result num.
Variable node_dict : list (pyname * node_data).

(** One item [assign_weight(child) * confidence] of the generator, added
    by [sum] to its running total. *)
Definition sum_step_in
    (rec : pyname → gmap pyname num → result (num * gmap pyname num))
    (confidence : num) (state : num * gmap pyname num) (child : pyname)
    : result (num * gmap pyname num) :=
  let '(acc, weights) := state in
  '(w, weights) ← rec child weights;
  item ← mul w confidence;
  acc ← add acc item;
  Ok (acc, weights).

Definition sum_children_in
    (rec : pyname → gmap pyname num → result (num * gmap pyname num))
    (confidence : num) (cs : list pyname) (weights : gmap pyname num)
    : result (num * gmap pyname num) :=
  foldM (sum_step_in rec confidence) cs (zero, weights).

Fixpoint assign_weight_in (limit : nat) (node : pyname) (weights : gmap pyname num)
    : result (num * gmap pyname num) :=
  match limit with
  | O => Raise RecursionError
  | S limit' =>
      d ← getitem node node_dict;
      let region := region_of d in
      confidence ← lookup node region;
      '(weight, weights) ←
        match children d with
        | [] => weight ← mul one confidence; Ok (weight, weights)
        | cs => sum_children_in (assign_weight_in limit') confidence cs weights
        end;
      Ok (weight, <[node := weight]> weights)
  end.

Definition getweight_in (weights : gmap pyname num) (node : pyname) : result num :=
  match weights !! node with
  | Some w => Ok w
  | None => Raise KeyError
  end.

(** The result lists, in the order of the last loop, the weight stored
    in the record of each node. *)
Definition calculate_weights_in (limit : nat) : result (list (pyname * num)) :=
  root ← find_root node_dict;
  let weights : gmap pyname num :=
    list_to_map ((λ n, (n, zero)) <$> od_keys node_dict) in
  '(_, weights) ← assign_weight_in limit root weights;
  foldM (λ stored node,
           w ← getweight_in weights node;
           _ ← getitem node node_dict;
           Ok (stored ++ [(node, w)]))
        (od_keys node_dict) [].

(** [sum(w * confidence for w in ws)]: the products, added one by one
    from the left to the int [0]. *)
Definition sum_products (confidence : num) (ws : list num) : result num :=
  foldM (λ acc w, item ← mul w confidence; add acc item) ws zero.
End machine_arithmetic.

(** Build, annotation and weighting, as [main] chains them. *)
Definition tree_weights {num : Type} (zero one : num)
    (add mul : num → num → result num) (lookup : pyname → string → result num)
    (tree : Clade) (annotations : gmap string string) (limit : nat)
    : result (list (pyname * num)) :=
  nd ← create_node_dict tree;
  calculate_weights_in zero one add mul lookup (assign_geography nd annotations) limit.

(** *** Three arithmetics *)

(** Exact numbers: Python ints, and rationals. *)
Definition exact_add (a b : Qc) : result Qc := Ok (a + b).
Definition exact_mul (a b : Qc) : result Qc := Ok (a * b).

(** Doubles (Python floats, numpy float64): the IEEE 754 binary64
    operations, rounding to nearest. *)
Definition float_add (a b : float) : result float := Ok (PrimFloat.add a b).
Definition float_mul (a b : float) : result float := Ok (PrimFloat.mul a b).


(** ** [calculate_spread_probabilities] *)

Record region_stats := mkStats {
  total : Qc;
  sources : gmap string Qc;
  local : Qc
}.

#[global] Instance region_stats_eq_dec : EqDecision region_stats.
Proof. solve_decision. Defined.

Definition empty_stats : region_stats := mkStats 0 ∅ 0.

Definition add_total (w : Qc) (s : region_stats) : region_stats :=
  mkStats (total s + w) (sources s) (local s).
Definition add_local (w : Qc) (s : region_stats) : region_stats :=
  mkStats (total s) (sources s) (local s + w).
(** [sources.setdefault(pr, 0); sources[pr] += w] *)
Definition add_source (pr : string) (w : Qc) (s : region_stats) : region_stats :=
  mkStats (total s) (<[pr := default 0 (sources s !! pr) + w]> (sources s)) (local s).

(** Truth value of a [str] or [None]. *)
Definition truthy (s : option string) : bool :=
  match s with
  | Some s => negb (bool_decide (s = ""%string))
  | None => false
  end.

(** [regions_weight[k]] and an update of the record found there. *)
Definition getstats (k : string) (rw : gmap string region_stats) : result region_stats :=
  match rw !! k with
  | Some s => Ok s
  | None => Raise KeyError
  end.

Definition spread_step (nd : node_dict) (rw : gmap string region_stats)
    (item : pyname * node_data) : result (gmap string region_stats) :=
  let data := item.2 in
  let region := region_of data in
  s ← getstats region rw;
  let rw := <[region := add_total (weight data) s]> rw in
  parent_region ←
    (if truthy (parent data)
     then pd ← getitem (parent data) nd; Some <$> getregion pd
     else Ok None);
  if bool_decide (parent_region = Some region) then
    s ← getstats region rw;
    Ok (<[region := add_local (weight data) s]> rw)
  else if truthy parent_region then
    match parent_region with
    | Some pr =>
        s ← getstats region rw;
        Ok (<[region := add_source pr (weight data) s]> rw)
    | None => Ok rw
    end
  else Ok rw.

Definition calculate_spread_probabilities (nd : node_dict)
    (annotations : gmap string string) : result (gmap string region_stats) :=
  let regions_weight : gmap string region_stats :=
    gset_to_gmap empty_stats (map_img annotations) in
  foldM (spread_step nd) nd regions_weight.

(** * parse_annotated_nexus.py *)

Module ParseNexus.
Import PyStr.
Local Open Scope string_scope.

Definition dquote : ascii := "034"%char.
Definition tab : string := String "009"%char "".

(** The body of the loop over [i.strip().split(']')]: the line printed
    for the piece [j]. *)
Definition emit (blank_value : string) (j : string) : string :=
  let part :=
    split "[&state="
      (remove_char "," (remove_char ")" (remove_char dquote
         (last_piece (split "(" j))))) in
  match part with
  | p0 :: p1 :: _ => first_piece (split ":" p0) ++ tab ++ p1
  | _ => first_piece (split ":" (first_piece part)) ++ tab ++ blank_value
  end.

(** [parse_nex]: [nexus] is the list of the lines of the input file,
    the result is the list of the lines printed to the [.meta] file. *)
Definition parse_nex (nexus : list string) (blank_value : string) : list string :=
  flat_map (λ i,
              if startswith "Tree" (strip i)
              then emit blank_value <$> split "]" (strip i)
              else [])
           nexus.

(** The default of the keyword argument [blank_value]. *)
Definition blank_default : string := "Unknown".
End ParseNexus.

(** * Notions used to state the properties *)

(** The names of all tree positions, root first. *)
Definition names (t : Clade) : list pyname := name <$> find_clades t.

(** The (parent, child) pairs that the second loop of [create_node_dict]
    passes to its body, in the order of the loop. *)
Definition clade_edges (c : Clade) : list (pyname * pyname) :=
  (λ ch, (name c, name ch)) <$> clades c.
Definition edges (t : Clade) : list (pyname * pyname) :=
  flat_map clade_edges (find_clades t).

(** What a sequence of [link] steps leaves in the record of [k]: the
    children appended to it, and the parent written last. *)
Definition children_of_edges (k : pyname) (es : list (pyname * pyname)) : list pyname :=
  (filter (λ e, e.1 = k) es).*2.
Definition parent_of_edges (k : pyname) (es : list (pyname * pyname))
    (p0 : pyname) : pyname :=
  fold_left (λ acc e, if decide (e.2 = k) then e.1 else acc) es p0.

(** The first loop: one fresh record per distinct name. *)
Definition init_nodes (cs : list Clade) (nd : node_dict) : node_dict :=
  fold_left (λ nd clade, od_set (name clade) fresh_node nd) cs nd.

(** What one [link] step does to the record of [k]. *)
Definition linked (e : pyname * pyname) (k : pyname) (d : node_data) : node_data :=
  mkNode (children d ++ (if decide (e.1 = k) then [e.2] else []))
         (if decide (e.2 = k) then e.1 else parent d)
         (weight d) (region d).

(** What a sequence of [link] steps does to the record of [k]. *)
Definition linked_all (es : list (pyname * pyname)) (k : pyname) (d : node_data)
    : node_data :=
  mkNode (children d ++ children_of_edges k es) (parent_of_edges k es (parent d))
         (weight d) (region d).

(** The outcome is not the exception of an exhausted [next(...)]. *)
Definition not_stop {A} (m : result A) : Prop := m ≠ Raise StopIteration.

(** Tables loaded by [read_confidence]: [read_csv] takes the labels from
    the header line, as strings. *)
Definition read_csv_frame (df : DataFrame) : Prop :=
  ∀ l, l ∈ columns df → ∃ s, l = LStr s.

(** The weight a table records for a name, [0] for a name without
    record. *)
Definition weight_in (nd : node_dict) (n : pyname) : Qc :=
  default 0 (weight <$> od_get n nd).

Definition sum_list (l : list Qc) : Qc := foldr Qcplus 0 l.

(** The value [assign_weight] stores for a node of confidence [c] and
    children [cs], read off the weights [W] of the children. *)
Definition node_formula (c : Qc) (cs : list pyname) (W : gmap pyname Qc) : Qc :=
  match cs with
  | [] => 1 * c
  | _ => fold_left (λ acc ch, acc + default 0 (W !! ch) * c) cs 0
  end.

(** [W] holds, for every node of [V], the value of the recursion, and
    [V] is closed under children. *)
Definition consistent (nd : node_dict) (df : DataFrame)
    (V : gset pyname) (W : gmap pyname Qc) : Prop :=
  ∀ m, m ∈ V →
    ∃ d c, od_get m nd = Some d
           ∧ get_confidence_by_name_and_region df m (region_of d) = Ok c
           ∧ (∀ ch, ch ∈ children d → ch ∈ V)
           ∧ W !! m = Some (node_formula c (children d) W).

(** Lines 209 to 215 of [main]: build, annotate, weigh. *)
Definition weighted_table (tree : Clade) (annotations : gmap string string)
    (confi_df : DataFrame) (limit : nat) : result node_dict :=
  nd ← create_node_dict tree;
  calculate_weights (assign_geography nd annotations) confi_df limit.

(** What [assign_geography] leaves in the record of [k]. *)
Definition annotated (annotations : gmap string string) (k : pyname)
    (d : node_data) : node_data :=
  match k with
  | Some s => match annotations !! s with
              | Some r => set_region r d
              | None => d
              end
  | None => d
  end.

(** The region of a node: its annotated region, or ["Unknown"]. *)
Definition region_for (annotations : gmap string string) (k : pyname) : string :=
  match k with
  | Some s => default "Unknown"%string (annotations !! s)
  | None => "Unknown"%string
  end.

Definition nonneg_weights (W : gmap pyname Qc) : Prop :=
  ∀ m x, W !! m = Some x → 0 ≤ x.

(** ** Region statistics, as section 4.5 of the specification words them *)

(** [region(p)] for the parent [p] of a node, [None] for a node without
    parent. *)
Definition parent_region (nd : node_dict) (d : node_data) : option string :=
  match parent d with
  | Some p => region_of <$> od_get (Some p) nd
  | None => None
  end.

(** The sum of the weights of the nodes that satisfy [P]. *)
Definition sum_weights (P : node_data → Prop) `{∀ d, Decision (P d)}
    (nd : node_dict) : Qc :=
  sum_list ((λ e, if decide (P e.2) then weight e.2 else 0) <$> nd).

(** Every node adds its weight to the total of its region. *)
Definition spec_total (nd : node_dict) (r : string) : Qc :=
  sum_weights (λ d, region_of d = r) nd.

(** A node whose parent lies in the same region adds its weight to
    [local]. *)
Definition spec_local (nd : node_dict) (r : string) : Qc :=
  sum_weights (λ d, region_of d = r ∧ parent_region nd d = Some r) nd.

(** A node whose parent lies in another region [pr] adds its weight to
    [sources[pr]]. *)
Definition spec_source (nd : node_dict) (r pr : string) : Qc :=
  sum_weights (λ d, region_of d = r ∧ parent_region nd d = Some pr ∧ pr ≠ r) nd.

(** [Σ sources.values()] *)
Definition sum_values (m : gmap string Qc) : Qc :=
  map_fold (λ _ v acc, v + acc) 0 m.

(** [total - local - Σ sources.values()] *)
Definition unexplained (s : region_stats) : Qc :=
  total s - local s - sum_values (sources s).

(** ** The branch that [calculate_spread_probabilities] takes for a node *)

Inductive contribution := ToLocal | ToSource (pr : string) | ToNone.

#[global] Instance contribution_eq_dec : EqDecision contribution.
Proof. solve_decision. Defined.

Definition classify (nd : node_dict) (d : node_data) : result contribution :=
  parent_region ←
    (if truthy (parent d)
     then pd ← getitem (parent d) nd; Some <$> getregion pd
     else Ok None);
  Ok (if bool_decide (parent_region = Some (region_of d)) then ToLocal
      else match parent_region with
           | Some pr => if truthy parent_region then ToSource pr else ToNone
           | None => ToNone
           end).

Definition contribute (k : contribution) (w : Qc) (s : region_stats) : region_stats :=
  match k with
  | ToLocal => add_local w s
  | ToSource pr => add_source pr w s
  | ToNone => s
  end.

(** The part of the weight [w] that a branch adds to [total], to
    [local], to [sources[pr]], and to none of the latter two. *)
Definition inc_total (k : contribution) (w : Qc) : Qc := w.
Definition inc_local (k : contribution) (w : Qc) : Qc :=
  match k with ToLocal => w | _ => 0 end.
Definition inc_source (pr : string) (k : contribution) (w : Qc) : Qc :=
  if decide (k = ToSource pr) then w else 0.
Definition inc_unexplained (k : contribution) (w : Qc) : Qc :=
  match k with ToNone => w | _ => 0 end.

(** What the nodes of [l] in region [r] add, branch by branch. *)
Definition added (nd : node_dict) (inc : contribution → Qc → Qc) (r : string)
    (l : node_dict) : Qc :=
  sum_list ((λ e, if decide (region_of e.2 = r)
                  then match classify nd e.2 with
                       | Ok k => inc k (weight e.2)
                       | Raise _ => 0
                       end
                  else 0) <$> l).

(** Every node carries an annotated region, not the empty string, that
    is a value of the annotation mapping. *)
Definition fully_annotated (nd : node_dict) (annotations : gmap string string) : Prop :=
  ∀ n d, (n, d) ∈ nd →
    ∃ r, region d = Some r ∧ r ≠ ""%string ∧ r ∈ (map_img annotations : gset string).

(** Every parent is a name, not the empty string, with a record in the
    table. *)
Definition parents_present (nd : node_dict) : Prop :=
  ∀ n d p, (n, d) ∈ nd → parent d = Some p →
    p ≠ ""%string ∧ Some p ∈ od_keys nd.

(** Every position of the tree has a name, not the empty string. *)
Definition named_tree (t : Clade) : Prop :=
  ∀ c, c ∈ find_clades t → truthy (name c) = true.

(** No annotation is the empty string. *)
Definition nonempty_regions (annotations : gmap string string) : Prop :=
  ∀ s, annotations !! s ≠ Some ""%string.

(** Every position of the tree has a name that the mapping annotates. *)
Definition annotates_tree (annotations : gmap string string) (t : Clade) : Prop :=
  ∀ c, c ∈ find_clades t → ∃ s, name c = Some s ∧ is_Some (annotations !! s).

(** What the aggregation pass needs of a node: a record for its region,
    and, when it has a parent of non-empty name, the record of the
    parent with a region in it. *)
Definition resolvable (nd : node_dict) (annotations : gmap string string)
    (d : node_data) : Prop :=
  region_of d ∈ (map_img annotations : gset string)
  ∧ (truthy (parent d) = true →
     ∃ pd, od_get (parent d) nd = Some pd ∧ is_Some (region pd)).

(** ** The trait file read by [main] *)

(** [node, region = line.strip().split('\t')]: the unpacking raises
    [ValueError] unless the split yields exactly two pieces; [None]
    stands for that exception. *)
Definition parse_trait_line (line : string) : option (string * string) :=
  match PyStr.split ParseNexus.tab (PyStr.strip line) with
  | [node; region] => Some (node, region)
  | _ => None
  end.

(** The loop over the lines of the trait file,
    [annotations[node] = region], started from [annotations]. *)
Fixpoint read_annotations_from (annotations : gmap string string)
    (lines : list string) : option (gmap string string) :=
  match lines with
  | [] => Some annotations
  | line :: lines' =>
      match parse_trait_line line with
      | Some (node, region) =>
          read_annotations_from (<[node := region]> annotations) lines'
      | None => None
      end
  end.

Definition read_annotations (lines : list string) : option (gmap string string) :=
  read_annotations_from ∅ lines.

(** ** Notions on strings *)

(** The characters of a string, and the strings made of whitespace. *)
Definition chars (s : string) : list ascii := list_ascii_of_string s.
Definition blank (s : string) : Prop :=
  ∀ a, a ∈ chars s → PyStr.is_space a = true.

(** [sep.join(l)] *)
Fixpoint join (sep : string) (l : list string) : string :=
  match l with
  | [] => EmptyString
  | [p] => p
  | p :: l' => (p ++ sep ++ join sep l')%string
  end.

(** [s.count(c)] for a one-character [c]. *)
Fixpoint count_char (c : ascii) (s : string) : nat :=
  match s with
  | EmptyString => O
  | String a s' => ((if bool_decide (a = c) then 1 else 0) + count_char c s')%nat
  end.

(** The characters that [parse_nex] deletes from a piece, and the
    deletion. *)
Definition deleted_chars : list ascii :=
  [ParseNexus.dquote; ")"%char; ","%char].
Definition clean (s : string) : string :=
  PyStr.remove_char "," (PyStr.remove_char ")" (PyStr.remove_char ParseNexus.dquote s)).

(** Number of lines that [parse_nex] prints for one line of its input. *)
Definition printed_for (line : string) : nat :=
  if PyStr.startswith "Tree" (PyStr.strip line)
  then S (count_char "]" (PyStr.strip line))
  else O.

(** The tab character, and the characters that never occur in the name
    column printed by [parse_nex]. *)
Definition tab_char : ascii := "009"%char.
Definition name_free_chars : list ascii :=
  ["("%char; ")"%char; ","%char; ParseNexus.dquote; ":"%char].

(** Strings without a character of [cs], and strings of such characters
    only. *)
Definition free_of (cs : list ascii) (s : string) : Prop :=
  Forall (λ a, a ∉ cs) (chars s).
Definition made_of (cs : list ascii) (s : string) : Prop :=
  Forall (λ a, a ∈ cs) (chars s).

(** [Σ total] over the records of the statistics. *)
Definition sum_totals (rw : gmap string region_stats) : Qc :=
  map_fold (λ _ s acc, total s + acc) 0 rw.

(** ** Notions for the weight recursion over any arithmetic *)

(** The value that [assign_weight] stores for a node of confidence [c]
    and children [cs], computed from the weights [W] of the children. *)
Definition formula_in {num : Type} (zero one : num)
    (add mul : num → num → result num)
    (c : num) (cs : list pyname) (W : gmap pyname num) : result num :=
  match cs with
  | [] => mul one c
  | _ => foldM (λ acc ch, w ← getweight_in W ch; item ← mul w c; add acc item) cs zero
  end.

(** [W] holds, for every node of [V], the value of the recursion, and
    [V] is closed under children. *)
Definition consistent_in {num : Type} (zero one : num)
    (add mul : num → num → result num) (lookup : pyname → string → result num)
    (nd : node_dict) (V : gset pyname) (W : gmap pyname num) : Prop :=
  ∀ m, m ∈ V →
    ∃ d c w, od_get m nd = Some d
             ∧ lookup m (region_of d) = Ok c
             ∧ (∀ ch, ch ∈ children d → ch ∈ V)
             ∧ W !! m = Some w
             ∧ formula_in zero one add mul c (children d) W = Ok w.

(** Tables whose weights are whole numbers, none negative, of sum at
    most [2^53]: every sum of such weights is computed exactly, whether
    they are Python ints, numpy integers or doubles. *)
Definition whole_weights (nd : node_dict) : Prop :=
  (∀ n d, (n, d) ∈ nd → ∃ z : Z, (0 ≤ z)%Z ∧ weight d = Qc_of_Z z)
  ∧ sum_list ((λ e, weight e.2) <$> nd) ≤ Qc_of_Z (2 ^ 53).

(** * Reference inputs *)

Module Examples.
Local Open Scope string_scope.

Definition leaf (n : string) : Clade := mkClade (Some n) [].

(** The tree [(A,B)C] of the specification's scenario, its annotation
    and a confidence table without region columns. *)
Definition scenario_tree : Clade := mkClade (Some "C") [leaf "A"; leaf "B"].
Definition scenario_annotations : gmap string string :=
  <["A" := "Region1"]> (<["B" := "Region2"]> (<["C" := "Region1"]> ∅)).
Definition empty_table : DataFrame := mkDataFrame [LStr "name"] [].

(** What [read_csv] returns for the header [name<TAB>R1] and the row
    [A<TAB>0.5]: every column label is a string. *)
Definition small_table : DataFrame :=
  mkDataFrame [LStr "name"; LStr "R1"] [[CStr "A"; CNum (Q2Qc (1 # 2))]].

(** [(A,B);]: the root carries no name. *)
Definition unnamed_root_tree : Clade := mkClade None [leaf "A"; leaf "B"].

(** [(A,A)C;]: two leaves share a name. *)
Definition duplicate_tree : Clade := mkClade (Some "C") [leaf "A"; leaf "A"].

(** [(A)C;] with only [A] annotated, and with [C] given the empty
    region. *)
Definition chain_tree : Clade := mkClade (Some "C") [leaf "A"].
Definition partial_annotations : gmap string string := {[ "A" := "R1" ]}.
Definition blank_annotations : gmap string string :=
  <["A" := "R1"]> ({[ "C" := "" ]}).

(** The node tables that [create_node_dict] builds for [(A)A;] and for
    [(A,B);]. *)
Definition self_parent_table : node_dict :=
  [(Some "A", mkNode [Some "A"] (Some "A") 0 None)].
Definition three_roots_table : node_dict :=
  [(None, mkNode [Some "A"; Some "B"] None 0 None);
   (Some "A", mkNode [] None 0 None);
   (Some "B", mkNode [] None 0 None)].

(** The scenario's node table after [assign_geography], and after
    [calculate_weights]. *)
Definition scenario_table : node_dict :=
  [(Some "C", mkNode [Some "A"; Some "B"] None 0 (Some "Region1"));
   (Some "A", mkNode [] (Some "C") 0 (Some "Region1"));
   (Some "B", mkNode [] (Some "C") 0 (Some "Region2"))].
Definition scenario_weighted : node_dict :=
  [(Some "C", mkNode [Some "A"; Some "B"] None 2 (Some "Region1"));
   (Some "A", mkNode [] (Some "C") 1 (Some "Region1"));
   (Some "B", mkNode [] (Some "C") 1 (Some "Region2"))].

(** The node table of [(A)C;] after weighting, annotated by
    [blank_annotations]. *)
Definition blank_weighted : node_dict :=
  [(Some "C", mkNode [Some "A"] None 1 (Some ""));
   (Some "A", mkNode [] (Some "C") 1 (Some "R1"))].

(** The statistics the specification lists for its scenario. *)
Definition scenario_stats : gmap string region_stats :=
  <["Region1" := mkStats (Qc_of_Z 3) ∅ 1]>
    (<["Region2" := mkStats 1 {[ "Region1" := 1 ]} 0]> ∅).

(** A tree line in which every node token carries a state, and one in
    which the leaf [A] carries none. *)
Definition annotated_line : string :=
  " Tree tree1=(A:0.1[&state=R1],B:0.2[&state=R2])C:0.3[&state=R1];".
Definition partly_annotated_line : string :=
  " Tree tree1=(A:0.1,B:0.2[&state=R2])C:0.3[&state=R1];".

(** [(A)'';]: the root is named by the empty string; its annotation and
    its weighted node table. *)
Definition empty_name_tree : Clade := mkClade (Some "") [leaf "A"].
Definition empty_name_annotations : gmap string string :=
  <["A" := "R1"]> ({[ "" := "R0" ]}).
Definition empty_name_weighted : node_dict :=
  [(Some "", mkNode [Some "A"] None 1 (Some "R0"));
   (Some "A", mkNode [] (Some "") 1 (Some "R1"))].

(** A table built with an integer column label 0 for the node names,
    with two rows for [A]. *)
Definition keyed_table : DataFrame :=
  mkDataFrame [LInt 0; LStr "R1"]
    [[CStr "B"; CNum 0]; [CStr "A"; CNum (Q2Qc (1 # 2))]; [CStr "A"; CNum 1]].

(** A lookup that returns the doubles nearest to 0.1 for [C], to 0.2 for
    [B], and 1 for every other node; and one that returns the integers
    [2] for [C] and [2^62] for every other node. *)
Definition decimal_lookup (n : pyname) (r : string) : result float :=
  if decide (n = Some "C") then Ok 0.1%float
  else if decide (n = Some "B") then Ok 0.2%float
  else Ok 1%float.

(** [(A,B);] with [A] in ["R1"] and [B] in ["Unknown"]. *)
Definition unnamed_root_annotations : gmap string string :=
  <["A" := "R1"]> ({[ "B" := "Unknown" ]}).

(** The whole run of [main] after parsing. *)
Definition run (tree : Clade) (annotations : gmap string string)
    (confi_df : DataFrame) (limit : nat)
    : result (node_dict * gmap string region_stats) :=
  nd ← create_node_dict tree;
  let nd := assign_geography nd annotations in
  nd ← calculate_weights nd confi_df limit;
  stats ← calculate_spread_probabilities nd annotations;
  Ok (nd, stats).
End Examples.

(** * Properties *)

(** A closed decidable proposition is settled by evaluation. *)
Ltac by_eval := apply (bool_decide_unpack _); vm_compute; exact I.

Lemma bind_Ok {A B} (m : result A) (f : A → result B) b :
  m ≫= f = Ok b ↔ ∃ a, m = Ok a ∧ f a = Ok b.
Proof.
  destruct m as [a|e]; simpl; split.
  - intros H; exists a; auto.
  - intros (a' & [= ->] & H); exact H.
  - discriminate.
  - intros (a' & [=] & _).
Qed.

Lemma foldM_app {A B} (f : B → A → result B) l1 l2 b :
  foldM f (l1 ++ l2) b = foldM f l1 b ≫= foldM f l2.
Proof.
  revert b; induction l1 as [|a l1 IH]; intros b; simpl; [reflexivity|].
  destruct (f b a); simpl; auto.
Qed.

(** ** The confidence lookup *)

Lemma get_loc_missing l cols : l ∉ cols → get_loc l cols = Raise KeyError.
Proof.
  induction cols as [|l' cols IH]; simpl; [reflexivity|].
  intros Hn. rewrite not_elem_of_cons in Hn. destruct Hn as [Hne Hn].
  destruct (decide (l = l')); [contradiction|]. rewrite IH; auto.
Qed.

(** X1: On a table that [read_confidence] loaded, the lookup of a region
    that is a column never reaches a row: [confi_df[0]] raises. *)
Lemma lookup_raises_on_loaded_table df name region :
  read_csv_frame df → LStr region ∈ columns df →
  get_confidence_by_name_and_region df name region = Raise KeyError.
Proof.
  intros Hcsv Hin. unfold get_confidence_by_name_and_region.
  rewrite bool_decide_eq_true_2 by assumption. simpl.
  rewrite (get_loc_missing (LInt 0)); [reflexivity|].
  intros H0. destruct (Hcsv _ H0) as [s Hs]. discriminate.
Qed.

(** C4 (the code departs from the claim): the table with header
    [name, R1] and the row [A, 0.5] has the column [R1] and a row for
    [A], yet the lookup of [(A, R1)] raises [KeyError] instead of
    returning the stored 0.5, and the lookup of [(B, R1)], a name without
    a row, raises [KeyError] instead of returning the default 1. *)
Theorem confidence_lookup_raises_on_known_region :
  get_confidence_by_name_and_region Examples.small_table (Some "A"%string) "R1"
    = Raise KeyError
  ∧ get_confidence_by_name_and_region Examples.small_table (Some "B"%string) "R1"
    = Raise KeyError.
Proof. split; by_eval. Qed.

(** C6: for every table, node name and region that is not a column of
    the table, the lookup returns the default 1 and raises nothing. *)
Theorem missing_region_default df name region :
  LStr region ∉ columns df →
  get_confidence_by_name_and_region df name region = Ok 1.
Proof.
  intros Hn. unfold get_confidence_by_name_and_region.
  rewrite bool_decide_eq_false_2 by assumption. reflexivity.
Qed.

Lemma missing_region_default_witness :
  (LStr "Region1" ∉ columns Examples.small_table)
  ∧ get_confidence_by_name_and_region Examples.small_table (Some "A"%string) "Region1"
    = Ok 1.
Proof.
  split.
  - by_eval.
  - apply (missing_region_default Examples.small_table). by_eval.
Defined.

(** ** Ordered dictionaries *)

Section odict_facts.
Context {K V : Type} `{EqDecision K}.
Implicit Types (d : list (K * V)) (k : K) (v : V).

Lemma od_get_set_eq k v d : od_get k (od_set k v d) = Some v.
Proof.
  induction d as [|[k' v'] d IH]; simpl.
  - rewrite decide_True; auto.
  - destruct (decide (k = k')) as [->|Hne]; simpl.
    + rewrite decide_True; auto.
    + rewrite decide_False; auto.
Qed.

Lemma od_get_set_ne k k' v d : k ≠ k' → od_get k' (od_set k v d) = od_get k' d.
Proof.
  intros Hne. induction d as [|[k0 v0] d IH]; simpl.
  - rewrite decide_False; auto.
  - destruct (decide (k = k0)) as [->|Hne0]; simpl.
    + rewrite !decide_False; auto.
    + destruct (decide (k' = k0)); auto.
Qed.

Lemma od_get_set k k' v d :
  od_get k' (od_set k v d) = if decide (k = k') then Some v else od_get k' d.
Proof.
  destruct (decide (k = k')) as [->|Hne];
    [apply od_get_set_eq | apply od_get_set_ne, Hne].
Qed.

Lemma od_get_is_Some k d : is_Some (od_get k d) ↔ k ∈ od_keys d.
Proof.
  unfold od_keys. induction d as [|[k' v'] d IH]; simpl.
  - split; [intros [? [=]] | intros Hin; inversion Hin].
  - rewrite elem_of_cons. destruct (decide (k = k')) as [->|Hne].
    + split; eauto.
    + rewrite IH. tauto.
Qed.

Lemma od_get_None k d : od_get k d = None ↔ k ∉ od_keys d.
Proof. rewrite <- od_get_is_Some, eq_None_not_Some. tauto. Qed.

Lemma od_keys_set_in k v d : k ∈ od_keys d → od_keys (od_set k v d) = od_keys d.
Proof.
  unfold od_keys. induction d as [|[k' v'] d IH]; simpl.
  - intros Hin; inversion Hin.
  - rewrite elem_of_cons. intros Hin.
    destruct (decide (k = k')) as [->|Hne]; simpl; [reflexivity|].
    f_equal. apply IH. tauto.
Qed.

Lemma od_keys_set_notin k v d :
  k ∉ od_keys d → od_keys (od_set k v d) = od_keys d ++ [k].
Proof.
  unfold od_keys. induction d as [|[k' v'] d IH]; simpl; [reflexivity|].
  rewrite not_elem_of_cons. intros [Hne Hn].
  rewrite decide_False by assumption. simpl. f_equal. auto.
Qed.

Lemma od_keys_set_elem k k' v d :
  k' ∈ od_keys (od_set k v d) ↔ k' = k ∨ k' ∈ od_keys d.
Proof.
  destruct (decide (k ∈ od_keys d)) as [Hin|Hn].
  - rewrite od_keys_set_in by assumption. split; [tauto|].
    intros [->|?]; auto.
  - rewrite od_keys_set_notin by assumption.
    rewrite elem_of_app, list_elem_of_singleton. tauto.
Qed.

Lemma od_keys_set_NoDup k v d : NoDup (od_keys d) → NoDup (od_keys (od_set k v d)).
Proof.
  intros Hnd. destruct (decide (k ∈ od_keys d)) as [Hin|Hn].
  - rewrite od_keys_set_in; assumption.
  - rewrite od_keys_set_notin by assumption.
    apply NoDup_app. split; [assumption|]. split.
    + intros x Hx Hx'. apply list_elem_of_singleton in Hx'. subst. contradiction.
    + apply NoDup_singleton.
Qed.

Lemma od_get_elem_of k v d : NoDup (od_keys d) → (k, v) ∈ d → od_get k d = Some v.
Proof.
  unfold od_keys. induction d as [|[k' v'] d IH]; simpl; intros Hnd Hin.
  - inversion Hin.
  - apply NoDup_cons in Hnd as [Hn Hnd]. apply elem_of_cons in Hin as [[= -> ->]|Hin].
    + rewrite decide_True by reflexivity. reflexivity.
    + rewrite decide_False; [auto|]. intros ->. apply Hn.
      apply list_elem_of_fmap. exists (k', v). auto.
Qed.

Lemma od_get_elem_of_1 k v d : od_get k d = Some v → (k, v) ∈ d.
Proof.
  induction d as [|[k' v'] d IH]; simpl; [discriminate|].
  destruct (decide (k = k')) as [->|Hne].
  - intros [= ->]. left.
  - intros Hg. right. auto.
Qed.

End odict_facts.

(** ** Clades *)

Lemma Clade_ind' (P : Clade → Prop) :
  (∀ n cs, Forall P cs → P (mkClade n cs)) → ∀ c, P c.
Proof.
  intros Hstep. fix IH 1. intros [n cs]. apply Hstep.
  induction cs as [|c cs IHcs]; constructor; [apply IH | exact IHcs].
Qed.

Lemma find_clades_unfold c : find_clades c = c :: flat_map find_clades (clades c).
Proof. destruct c; reflexivity. Qed.

Lemma find_clades_self c : c ∈ find_clades c.
Proof. rewrite find_clades_unfold. left. Qed.

Lemma elem_of_flat_map {A B} (f : A → list B) (l : list A) (b : B) :
  b ∈ flat_map f l ↔ ∃ a, a ∈ l ∧ b ∈ f a.
Proof.
  rewrite list_elem_of_In, in_flat_map. split; intros (a & Ha & Hb); exists a.
  - rewrite !list_elem_of_In. auto.
  - rewrite <- !list_elem_of_In. auto.
Qed.

Lemma find_clades_trans t c c' :
  c ∈ find_clades t → c' ∈ find_clades c → c' ∈ find_clades t.
Proof.
  revert c c'. induction t as [n cs IH] using Clade_ind'. intros c c'.
  rewrite (find_clades_unfold (mkClade n cs)). simpl.
  rewrite !elem_of_cons, !elem_of_flat_map.
  intros [->|(a & Ha & Hc)] Hc'.
  - rewrite find_clades_unfold in Hc'. simpl in Hc'.
    rewrite elem_of_cons, elem_of_flat_map in Hc'. exact Hc'.
  - right. exists a. split; [assumption|].
    rewrite Forall_forall in IH. eapply IH; eauto.
Qed.

Lemma find_clades_child t c ch :
  c ∈ find_clades t → ch ∈ clades c → ch ∈ find_clades t.
Proof.
  intros Hc Hch. apply (find_clades_trans t c ch Hc).
  rewrite find_clades_unfold. right. apply elem_of_flat_map.
  exists ch. split; [assumption | apply find_clades_self].
Qed.

Lemma edges_endpoints t p ch :
  (p, ch) ∈ edges t → p ∈ names t ∧ ch ∈ names t.
Proof.
  unfold edges, names, clade_edges. rewrite elem_of_flat_map.
  intros (c & Hc & He). apply list_elem_of_fmap in He as (x & [= -> ->] & Hx).
  split; apply list_elem_of_fmap.
  - exists c; auto.
  - exists x. split; [reflexivity|]. eapply find_clades_child; eauto.
Qed.

(** ** [create_node_dict] *)

Lemma init_nodes_keys cs nd k :
  k ∈ od_keys (init_nodes cs nd) ↔ k ∈ od_keys nd ∨ k ∈ name <$> cs.
Proof.
  revert nd. induction cs as [|c cs IH]; intros nd; simpl.
  - split; [auto|]. intros [?|Hin]; [assumption | inversion Hin].
  - unfold init_nodes in *. simpl. rewrite IH, od_keys_set_elem, elem_of_cons. tauto.
Qed.

Lemma init_nodes_NoDup cs nd : NoDup (od_keys nd) → NoDup (od_keys (init_nodes cs nd)).
Proof.
  revert nd. induction cs as [|c cs IH]; intros nd Hnd; simpl; [assumption|].
  apply IH, od_keys_set_NoDup, Hnd.
Qed.

Lemma init_nodes_prefix cs nd : ∃ l, od_keys (init_nodes cs nd) = od_keys nd ++ l.
Proof.
  revert nd. induction cs as [|c cs IH]; intros nd; simpl.
  - exists []. rewrite app_nil_r. reflexivity.
  - destruct (IH (od_set (name c) fresh_node nd)) as [l Hl].
    unfold init_nodes in *. simpl. rewrite Hl.
    destruct (decide (name c ∈ od_keys nd)) as [Hin|Hn].
    + rewrite od_keys_set_in by assumption. eauto.
    + rewrite od_keys_set_notin by assumption. rewrite <- app_assoc. eauto.
Qed.

Lemma init_nodes_fresh cs nd k d :
  (∀ k d, od_get k nd = Some d → d = fresh_node) →
  od_get k (init_nodes cs nd) = Some d → d = fresh_node.
Proof.
  revert nd. induction cs as [|c cs IH]; intros nd Hnd; simpl; [apply Hnd|].
  apply IH. intros k' d'. rewrite od_get_set.
  destruct (decide (name c = k')); [congruence | apply Hnd].
Qed.

Lemma link_spec nd p ch :
  p ∈ od_keys nd → ch ∈ od_keys nd →
  ∃ nd', link nd (p, ch) = Ok nd'
         ∧ od_keys nd' = od_keys nd
         ∧ ∀ k, od_get k nd' = linked (p, ch) k <$> od_get k nd.
Proof.
  intros Hp Hch. unfold link, getitem.
  apply od_get_is_Some in Hch as Hc. destruct Hc as [cd Hcd]. rewrite Hcd. simpl.
  assert (Hp' : p ∈ od_keys (od_set ch (set_parent p cd) nd))
    by (apply od_keys_set_elem; auto).
  apply od_get_is_Some in Hp' as [pd Hpd]. rewrite Hpd. simpl.
  eexists. split; [reflexivity|]. split.
  - rewrite od_keys_set_in by (apply od_keys_set_elem; auto).
    apply od_keys_set_in, Hch.
  - intros k. rewrite od_get_set. unfold linked. simpl.
    rewrite od_get_set in Hpd.
    destruct (decide (p = k)) as [->|Hpk].
    + destruct (decide (ch = k)) as [->|Hck].
      * injection Hpd as <-. rewrite Hcd. simpl. reflexivity.
      * rewrite Hpd. simpl. destruct pd; reflexivity.
    + rewrite od_get_set. destruct (decide (ch = k)) as [->|Hck].
      * rewrite Hcd. simpl. unfold set_parent. rewrite app_nil_r. reflexivity.
      * destruct (od_get k nd) as [[]|]; simpl; [|reflexivity].
        rewrite app_nil_r. reflexivity.
Qed.

Lemma foldM_link_spec es nd :
  (∀ p ch, (p, ch) ∈ es → p ∈ od_keys nd ∧ ch ∈ od_keys nd) →
  ∃ nd', foldM link es nd = Ok nd'
         ∧ od_keys nd' = od_keys nd
         ∧ ∀ k, od_get k nd' = linked_all es k <$> od_get k nd.
Proof.
  revert nd. induction es as [|[p ch] es IH]; intros nd Hes; cbn [foldM].
  - exists nd. split; [reflexivity|]. split; [reflexivity|]. intros k.
    destruct (od_get k nd) as [[]|]; simpl; [|reflexivity].
    unfold linked_all, children_of_edges. simpl. rewrite app_nil_r. reflexivity.
  - destruct (Hes p ch) as [Hp Hch]; [left|].
    destruct (link_spec nd p ch Hp Hch) as (nd1 & -> & Hk1 & Hg1). simpl.
    destruct (IH nd1) as (nd' & -> & Hk' & Hg').
    { intros p' ch' Hin. rewrite Hk1. apply Hes. right. exact Hin. }
    exists nd'. split; [reflexivity|]. split; [congruence|]. intros k.
    rewrite Hg', Hg1. destruct (od_get k nd) as [d|]; simpl; [|reflexivity].
    f_equal. unfold linked_all, linked, children_of_edges. simpl.
    rewrite filter_cons. simpl.
    destruct (decide (p = k)); simpl; rewrite <- ?app_assoc, ?app_nil_r; reflexivity.
Qed.

Lemma foldM_nested_flat (cs : list Clade) nd :
  foldM (λ nd clade,
           foldM (λ nd child, link nd (name clade, name child)) (clades clade) nd)
        cs nd
  = foldM link (flat_map clade_edges cs) nd.
Proof.
  revert nd. induction cs as [|c cs IH]; intros nd; simpl; [reflexivity|].
  rewrite foldM_app.
  assert (Hin : ∀ l nd, foldM (λ nd child, link nd (name c, name child)) l nd
                        = foldM link ((λ ch, (name c, name ch)) <$> l) nd).
  { clear. induction l as [|x l IHl]; intros nd; simpl; [reflexivity|].
    destruct (link nd (name c, name x)); simpl; auto. }
  unfold clade_edges. rewrite Hin.
  destruct (foldM link _ nd); simpl; auto.
Qed.

(** The node table that [create_node_dict] builds, for every tree: the
    build never raises, the keys are the distinct names in the order of
    their first occurrence, and the record of a name gathers the
    children of every position that carries the name. *)
Lemma create_node_dict_spec t :
  ∃ nd, create_node_dict t = Ok nd
        ∧ od_keys nd = od_keys (init_nodes (find_clades t) [])
        ∧ ∀ k, k ∈ names t →
               od_get k nd = Some (mkNode (children_of_edges k (edges t))
                                          (parent_of_edges k (edges t) None) 0 None).
Proof.
  unfold create_node_dict. rewrite foldM_nested_flat.
  fold (init_nodes (find_clades t) []). fold (edges t).
  destruct (foldM_link_spec (edges t) (init_nodes (find_clades t) []))
    as (nd & Hok & Hkeys & Hget).
  { intros p ch Hin. apply edges_endpoints in Hin as [Hp Hch].
    rewrite !init_nodes_keys. auto. }
  exists nd. split; [exact Hok|]. split; [exact Hkeys|].
  intros k Hk. rewrite Hget.
  assert (Hin : k ∈ od_keys (init_nodes (find_clades t) []))
    by (apply init_nodes_keys; auto).
  apply od_get_is_Some in Hin as [d Hd]. rewrite Hd. simpl.
  assert (d = fresh_node) as ->.
  { eapply init_nodes_fresh; [|exact Hd]. intros ? ? [=]. }
  reflexivity.
Qed.

Lemma filter_clade_edges c k :
  filter (λ e, e.1 = k) (clade_edges c)
  = if decide (name c = k) then clade_edges c else [].
Proof.
  unfold clade_edges. induction (clades c) as [|x l IH].
  - destruct (decide (name c = k)); reflexivity.
  - rewrite fmap_cons, filter_cons, IH. simpl.
    destruct (decide (name c = k)); reflexivity.
Qed.

Lemma clade_edges_children c : (clade_edges c).*2 = name <$> clades c.
Proof.
  unfold clade_edges. rewrite <- list_fmap_compose. reflexivity.
Qed.

Lemma children_of_flat_edges k cs :
  children_of_edges k (flat_map clade_edges cs)
  = flat_map (λ c, if decide (name c = k) then name <$> clades c else []) cs.
Proof.
  unfold children_of_edges. induction cs as [|c cs IH]; simpl; [reflexivity|].
  rewrite filter_app, fmap_app, IH, filter_clade_edges. f_equal.
  destruct (decide (name c = k)); [apply clade_edges_children | reflexivity].
Qed.

Lemma parent_of_edges_snoc k es e p0 :
  parent_of_edges k (es ++ [e]) p0
  = if decide (e.2 = k) then e.1 else parent_of_edges k es p0.
Proof. unfold parent_of_edges. rewrite fold_left_app. reflexivity. Qed.

(** The parent that a sequence of [link] steps leaves in the record of
    [k] is the one written last: that of the last pair whose child is
    [k], and the initial one when there is no such pair. *)
Lemma parent_of_edges_last k es p0 :
  (parent_of_edges k es p0 = p0 ∧ ∀ e, e ∈ es → e.2 ≠ k)
  ∨ ∃ es1 es2, es = es1 ++ (parent_of_edges k es p0, k) :: es2
               ∧ ∀ e, e ∈ es2 → e.2 ≠ k.
Proof.
  induction es as [|e es IH] using rev_ind.
  - left. split; [reflexivity|]. intros e He. inversion He.
  - rewrite parent_of_edges_snoc. destruct (decide (e.2 = k)) as [He|He].
    + right. exists es, []. split.
      * destruct e as [p c]. simpl in *. subst c. reflexivity.
      * intros x Hx. inversion Hx.
    + destruct IH as [[Heq Hall]|(es1 & es2 & Hes & Hall)].
      * left. split; [exact Heq|]. intros x Hx.
        apply elem_of_app in Hx as [Hx|Hx]; [exact (Hall x Hx)|].
        apply list_elem_of_singleton in Hx as ->. exact He.
      * right. exists es1, (es2 ++ [e]). split.
        -- rewrite Hes at 1. rewrite <- app_assoc. reflexivity.
        -- intros x Hx. apply elem_of_app in Hx as [Hx|Hx]; [exact (Hall x Hx)|].
           apply list_elem_of_singleton in Hx as ->. exact He.
Qed.

(** C5 (as amended): for every input tree, also one in which a name
    repeats, building the node table raises nothing.  The table holds
    exactly one record per distinct name, and the record of a name
    gathers, in tree order, the children of every position carrying that
    name: same-named positions are merged.  Its parent is the one
    written last: of the (parent, child) pairs that the second loop
    visits, [edges t], the last one whose child is the name gives the
    parent; a name that is the child in no pair keeps the parent
    [None]. *)
Theorem create_node_dict_merges t :
  ∃ nd, create_node_dict t = Ok nd
        ∧ NoDup (od_keys nd)
        ∧ (∀ k, k ∈ od_keys nd ↔ k ∈ names t)
        ∧ ∀ k, k ∈ names t →
            ∃ d, od_get k nd = Some d
                 ∧ children d
                   = flat_map (λ c, if decide (name c = k) then name <$> clades c else [])
                              (find_clades t)
                 ∧ ((parent d = None ∧ ∀ e, e ∈ edges t → e.2 ≠ k)
                    ∨ ∃ es1 es2, edges t = es1 ++ (parent d, k) :: es2
                                 ∧ ∀ e, e ∈ es2 → e.2 ≠ k).
Proof.
  destruct (create_node_dict_spec t) as (nd & Hok & Hkeys & Hget).
  exists nd. split; [exact Hok|]. split; [|split].
  - rewrite Hkeys. apply init_nodes_NoDup. constructor.
  - intros k. rewrite Hkeys, init_nodes_keys. unfold names. split; [|auto].
    intros [Hin|?]; [inversion Hin | assumption].
  - intros k Hk. eexists. split; [apply Hget, Hk|]. cbn [children parent].
    split; [apply children_of_flat_edges | apply parent_of_edges_last].
Qed.

Lemma create_node_dict_merges_witness :
  ∃ nd, create_node_dict Examples.duplicate_tree = Ok nd
        ∧ NoDup (od_keys nd)
        ∧ (∀ k, k ∈ od_keys nd ↔ k ∈ names Examples.duplicate_tree)
        ∧ ∀ k, k ∈ names Examples.duplicate_tree →
            ∃ d, od_get k nd = Some d
                 ∧ children d
                   = flat_map (λ c, if decide (name c = k) then name <$> clades c else [])
                              (find_clades Examples.duplicate_tree)
                 ∧ ((parent d = None ∧ ∀ e, e ∈ edges Examples.duplicate_tree → e.2 ≠ k)
                    ∨ ∃ es1 es2,
                        edges Examples.duplicate_tree = es1 ++ (parent d, k) :: es2
                        ∧ ∀ e, e ∈ es2 → e.2 ≠ k).
Proof. exact (create_node_dict_merges Examples.duplicate_tree). Defined.

(** C5 (the claim as stated fails): the tree [(A,A)C;] repeats the name
    [A]; the build returns a table of two records, the two leaves merged
    into one, instead of failing. *)
Lemma duplicate_names_are_merged :
  ¬ NoDup (names Examples.duplicate_tree)
  ∧ create_node_dict Examples.duplicate_tree
    = Ok [(Some "C"%string, mkNode [Some "A"%string; Some "A"%string] None 0 None);
          (Some "A"%string, mkNode [] (Some "C"%string) 0 None)].
Proof. split; by_eval. Qed.

Lemma sum_step_eq (rec : pyname → gmap pyname Qc → result (Qc * gmap pyname Qc))
    (c a : Qc) (W : gmap pyname Qc) (ch : pyname) :
  sum_step rec c (a, W) ch = rec ch W ≫= λ '(w, W'), Ok (a + w * c, W').
Proof. reflexivity. Qed.

(** ** The root search of [calculate_weights] *)

Lemma find_root_none nd :
  (∀ n d, (n, d) ∈ nd → parent d ≠ None) → find_root nd = Raise StopIteration.
Proof.
  induction nd as [|[n d] nd IH]; simpl; intros Hall; [reflexivity|].
  rewrite decide_False by (apply (Hall n); left).
  apply IH. intros n' d' Hin. apply (Hall n'). right. exact Hin.
Qed.

Lemma find_root_first pre r d post :
  Forall (λ e, parent e.2 ≠ None) pre → parent d = None →
  find_root (pre ++ (r, d) :: post) = Ok r.
Proof.
  intros Hpre Hd. induction Hpre as [|[n d'] pre Hx Hpre IH]; simpl.
  - rewrite decide_True by assumption. reflexivity.
  - simpl in Hx. rewrite decide_False by assumption. exact IH.
Qed.

Lemma not_stop_bind {A B} (m : result A) (f : A → result B) :
  not_stop m → (∀ a, not_stop (f a)) → not_stop (m ≫= f).
Proof.
  unfold not_stop. destruct m as [a|e]; simpl; [auto|]. congruence.
Qed.

Lemma foldM_not_stop {A B} (f : B → A → result B) l b :
  (∀ b a, not_stop (f b a)) → not_stop (foldM f l b).
Proof.
  intros Hf. revert b. induction l as [|a l IH]; intros b; simpl; [discriminate|].
  apply not_stop_bind; auto.
Qed.

Lemma get_loc_not_stop l cols : not_stop (get_loc l cols).
Proof.
  induction cols as [|l' cols IH]; simpl; [discriminate|].
  destruct (decide (l = l')); [discriminate|].
  unfold not_stop in *. destruct (get_loc l cols) as [|[]]; simpl; congruence.
Qed.

Lemma getitem_not_stop {K V} `{EqDecision K} (k : K) (d : list (K * V)) :
  not_stop (getitem k d).
Proof. unfold getitem. destruct (od_get k d); discriminate. Qed.

Lemma get_confidence_not_stop df n r :
  not_stop (get_confidence_by_name_and_region df n r).
Proof.
  unfold get_confidence_by_name_and_region.
  destruct (negb _); [discriminate|].
  apply not_stop_bind; [apply get_loc_not_stop|]. intros key.
  destruct (filter _ _) as [|r0 ?]; [discriminate|].
  destruct (bool_decide _); [|discriminate].
  apply not_stop_bind; [apply get_loc_not_stop|]. intros j.
  unfold cell_value. destruct (r0 !! j) as [[]|]; discriminate.
Qed.

Lemma assign_weight_not_stop nd df limit n W :
  not_stop (assign_weight nd df limit n W).
Proof.
  revert n W. induction limit as [|limit IH]; intros n W; simpl; [discriminate|].
  apply not_stop_bind; [apply getitem_not_stop|]. intros d.
  apply not_stop_bind; [apply get_confidence_not_stop|]. intros c.
  apply not_stop_bind; [|intros [w W']; discriminate].
  destruct (children d) as [|ch cs]; [discriminate|].
  unfold sum_children. apply foldM_not_stop. intros [acc W1] ch'.
  unfold sum_step. apply not_stop_bind; [apply IH|]. intros [w W2]. discriminate.
Qed.

Lemma calculate_weights_not_stop nd df limit r :
  find_root nd = Ok r → not_stop (calculate_weights nd df limit).
Proof.
  intros Hr. unfold calculate_weights. rewrite Hr. simpl.
  apply not_stop_bind; [apply assign_weight_not_stop|]. intros [w W].
  apply foldM_not_stop. intros nd' n.
  apply not_stop_bind.
  - unfold getweight. destruct (W !! n); discriminate.
  - intros w'. apply not_stop_bind; [apply getitem_not_stop|]. discriminate.
Qed.

(** The tables of the reference inputs are those the code builds. *)
Example self_parent_table_built :
  create_node_dict (mkClade (Some "A"%string) [Examples.leaf "A"])
  = Ok Examples.self_parent_table.
Proof. by_eval. Qed.

Example scenario_table_built :
  (λ nd, assign_geography nd Examples.scenario_annotations)
    <$> create_node_dict Examples.scenario_tree
  = Ok Examples.scenario_table.
Proof. by_eval. Qed.

(** C7 (as amended): on a node table in which no node has a null parent
    the weight computation fails: the root search raises
    [StopIteration] before any weight is computed.  A table with more
    than one null-parent node is not rejected: the first such node in
    table order is the root, and the computation does not fail in the
    root search. *)
Theorem root_search_outcome nd df limit :
  ((∀ n d, (n, d) ∈ nd → parent d ≠ None) →
     calculate_weights nd df limit = Raise StopIteration)
  ∧ (∀ pre r d post,
       nd = pre ++ (r, d) :: post →
       Forall (λ e, parent e.2 ≠ None) pre → parent d = None →
       find_root nd = Ok r ∧ not_stop (calculate_weights nd df limit)).
Proof.
  split.
  - intros Hall. unfold calculate_weights. rewrite find_root_none by assumption.
    reflexivity.
  - intros pre r d post -> Hpre Hd.
    assert (Hr : find_root (pre ++ (r, d) :: post) = Ok r)
      by (apply find_root_first; assumption).
    split; [exact Hr|]. eapply calculate_weights_not_stop, Hr.
Qed.

Lemma root_search_outcome_witness :
  calculate_weights Examples.self_parent_table Examples.empty_table 10
    = Raise StopIteration
  ∧ find_root Examples.three_roots_table = Ok None
  ∧ not_stop (calculate_weights Examples.three_roots_table Examples.empty_table 10).
Proof.
  split.
  - apply (proj1 (root_search_outcome Examples.self_parent_table
                    Examples.empty_table 10)).
    intros n d Hin. apply list_elem_of_singleton in Hin as [= -> ->]. discriminate.
  - apply (proj2 (root_search_outcome Examples.three_roots_table
                    Examples.empty_table 10)
             [] None (mkNode [Some "A"%string; Some "B"%string] None 0 None)
             [(Some "A"%string, mkNode [] None 0 None);
              (Some "B"%string, mkNode [] None 0 None)]).
    + reflexivity.
    + constructor.
    + reflexivity.
Defined.

(** C7 (the claim as stated fails): the tree [(A,B);] with an unnamed
    root yields a table in which three nodes have a null parent; the
    weight computation completes on it. *)
Lemma several_roots_are_accepted :
  create_node_dict Examples.unnamed_root_tree = Ok Examples.three_roots_table
  ∧ length (filter (λ e, parent e.2 = None) Examples.three_roots_table) = 3%nat
  ∧ calculate_weights Examples.three_roots_table Examples.empty_table 10
    = Ok [(None, mkNode [Some "A"%string; Some "B"%string] None 2 None);
          (Some "A"%string, mkNode [] None 1 None);
          (Some "B"%string, mkNode [] None 1 None)].
Proof. repeat split; by_eval. Qed.

(** ** The weight recursion *)

Section weight_recursion.
Variable nd : node_dict.
Variable df : DataFrame.

Lemma node_formula_ext (c : Qc) (cs : list pyname) (W W' : gmap pyname Qc) :
  (∀ ch, ch ∈ cs → W' !! ch = W !! ch) →
  node_formula c cs W' = node_formula c cs W.
Proof.
  assert (Hfold : ∀ (l : list pyname) (a : Qc),
    (∀ ch, ch ∈ l → W' !! ch = W !! ch) →
    fold_left (λ acc ch, acc + default 0 (W' !! ch) * c) l a
    = fold_left (λ acc ch, acc + default 0 (W !! ch) * c) l a).
  { induction l as [|x l IH]; intros a Hl; simpl; [reflexivity|].
    rewrite (Hl x) by left. apply IH. intros ch Hch. apply Hl. right. exact Hch. }
  intros Hcs. unfold node_formula. destruct cs as [|ch0 cs0]; [reflexivity|].
  apply Hfold, Hcs.
Qed.

(** The loop over the children, given the specification of the
    recursive calls. *)
Lemma sum_children_spec limit c :
  (∀ n W V w W', consistent nd df V W →
     assign_weight nd df limit n W = Ok (w, W') →
     ∃ V', V ⊆ V' ∧ n ∈ V' ∧ consistent nd df V' W' ∧ W' !! n = Some w
           ∧ (∀ m, m ∈ V → W' !! m = W !! m)
           ∧ (∀ m, m ∉ V' → W' !! m = W !! m)) →
  ∀ cs a W0 V0 a1 W1, consistent nd df V0 W0 →
    foldM (sum_step (assign_weight nd df limit) c) cs (a, W0) = Ok (a1, W1) →
    ∃ V1, V0 ⊆ V1 ∧ (∀ ch, ch ∈ cs → ch ∈ V1) ∧ consistent nd df V1 W1
          ∧ a1 = fold_left (λ acc ch, acc + default 0 (W1 !! ch) * c) cs a
          ∧ (∀ m, m ∈ V0 → W1 !! m = W0 !! m)
          ∧ (∀ m, m ∉ V1 → W1 !! m = W0 !! m).
Proof.
  intros Hrec. induction cs as [|ch cs IH]; intros a W0 V0 a1 W1 Hc Hf.
  - injection Hf as <- <-. exists V0. repeat split; auto.
    intros ch Hch. inversion Hch.
  - cbn [foldM] in Hf. apply bind_Ok in Hf as ([a' Wm] & Hstep & Hrest).
    unfold sum_step in Hstep. apply bind_Ok in Hstep as ([w Wm'] & Hcall & Heq).
    injection Heq as <- <-.
    destruct (Hrec _ _ _ _ _ Hc Hcall) as (Vm & Hsub & Hin & Hcm & Hw & Hpres & Hout).
    destruct (IH _ _ _ _ _ Hcm Hrest) as (V1 & Hsub1 & Hin1 & Hc1 & Ha1 & Hpres1 & Hout1).
    exists V1. split; [set_solver|]. split; [|split; [exact Hc1|split; [|split]]].
    + intros x Hx. apply elem_of_cons in Hx as [->|Hx]; [set_solver | auto].
    + simpl. rewrite (Hpres1 ch Hin), Hw. exact Ha1.
    + intros m Hm. rewrite Hpres1 by set_solver. apply Hpres, Hm.
    + intros m Hm. rewrite Hout1 by exact Hm. apply Hout. set_solver.
Qed.

(** A run of [assign_weight] from consistent weights leaves consistent
    weights that cover the node, and changes no value stored before. *)
Lemma assign_weight_spec limit :
  ∀ n W V w W', consistent nd df V W →
    assign_weight nd df limit n W = Ok (w, W') →
    ∃ V', V ⊆ V' ∧ n ∈ V' ∧ consistent nd df V' W' ∧ W' !! n = Some w
          ∧ (∀ m, m ∈ V → W' !! m = W !! m)
          ∧ (∀ m, m ∉ V' → W' !! m = W !! m).
Proof.
  induction limit as [|limit IH]; intros n W V w W' Hc Hrun; [discriminate|].
  cbn [assign_weight] in Hrun.
  apply bind_Ok in Hrun as (d & Hd & Hrun).
  apply bind_Ok in Hrun as (c & Hconf & Hrun).
  apply bind_Ok in Hrun as ([w1 W1] & Hbody & Hret).
  injection Hret as <- <-.
  unfold getitem in Hd. destruct (od_get n nd) as [d'|] eqn:Hget; [|discriminate].
  injection Hd as ->.
  (* the children are resolved first *)
  assert (∃ V1, V ⊆ V1 ∧ (∀ ch, ch ∈ children d → ch ∈ V1)
                ∧ consistent nd df V1 W1
                ∧ w1 = node_formula c (children d) W1
                ∧ (∀ m, m ∈ V → W1 !! m = W !! m)
                ∧ (∀ m, m ∉ V1 → W1 !! m = W !! m))
    as (V1 & Hsub & Hch & Hc1 & Hw1 & Hpres & Hout).
  { destruct (children d) as [|ch cs] eqn:Hcs.
    - injection Hbody as <- <-. exists V. repeat split; auto.
      intros ch Hch. inversion Hch.
    - unfold sum_children in Hbody.
      destruct (sum_children_spec limit c IH _ _ _ _ _ _ Hc Hbody)
        as (V1 & ? & ? & ? & ? & ? & ?).
      exists V1. repeat split; auto. }
  exists (V1 ∪ {[n]}). split; [set_solver|]. split; [set_solver|].
  destruct (decide (n ∈ V1)) as [Hin|Hnin].
  - (* the node was reached before: the same value is stored again *)
    destruct (Hc1 n Hin) as (d' & c' & Hget' & Hconf' & _ & Hval).
    rewrite Hget in Hget'. injection Hget' as <-.
    rewrite Hconf in Hconf'. injection Hconf' as <-.
    rewrite <- Hw1 in Hval. rewrite (insert_id W1 n w1 Hval).
    split; [|split; [exact Hval|split; [exact Hpres|]]].
    + intros m Hm. assert (Hm1 : m ∈ V1) by set_solver.
      destruct (Hc1 m Hm1) as (dm & cm & ? & ? & Hchm & ?).
      exists dm, cm. repeat split; auto. intros ch ?. set_solver.
    + intros m Hm. apply Hout. set_solver.
  - split; [|split; [apply lookup_insert_eq|split]].
    + intros m Hm. destruct (decide (m = n)) as [->|Hne].
      * exists d, c. split; [exact Hget|]. split; [exact Hconf|].
        split; [intros ch ?; set_solver|].
        rewrite lookup_insert_eq. f_equal. rewrite Hw1.
        symmetry. apply node_formula_ext. intros ch Hin.
        apply lookup_insert_ne. intros ->. apply Hnin, Hch, Hin.
      * assert (Hm1 : m ∈ V1) by set_solver.
        destruct (Hc1 m Hm1) as (dm & cm & Hgm & Hcm & Hchm & Hvm).
        exists dm, cm. split; [exact Hgm|]. split; [exact Hcm|].
        split; [intros ch ?; set_solver|].
        rewrite lookup_insert_ne by congruence. rewrite Hvm. f_equal.
        symmetry. apply node_formula_ext. intros ch Hin.
        apply lookup_insert_ne. intros ->. apply Hnin, Hchm, Hin.
    + intros m Hm. rewrite lookup_insert_ne; [apply Hpres, Hm|].
      intros ->. apply Hnin, Hsub, Hm.
    + intros m Hm. rewrite lookup_insert_ne by set_solver.
      apply Hout. set_solver.
Qed.
End weight_recursion.

(** ** [calculate_weights] on an arbitrary node table *)

(** The loop that copies [weights] into the table. *)
Lemma copy_weights_spec (W : gmap pyname Qc) ks nd nd' :
  foldM (λ nd node,
           w ← getweight W node;
           d ← getitem node nd;
           Ok (od_set node (set_weight w d) nd)) ks nd = Ok nd' →
  od_keys nd' = od_keys nd
  ∧ ∀ k, od_get k nd'
         = (λ d, if decide (k ∈ ks) then set_weight (default 0 (W !! k)) d else d)
           <$> od_get k nd.
Proof.
  revert nd. induction ks as [|k0 ks IH]; intros nd Hf.
  - injection Hf as <-. split; [reflexivity|]. intros k.
    destruct (od_get k nd); [|reflexivity]. reflexivity.
  - cbn [foldM] in Hf. apply bind_Ok in Hf as (nd1 & Hstep & Hrest).
    apply bind_Ok in Hstep as (w & Hw & Hstep).
    apply bind_Ok in Hstep as (d0 & Hd0 & Heq). injection Heq as <-.
    unfold getweight in Hw. destruct (W !! k0) as [w0|] eqn:HW; [|discriminate].
    injection Hw as ->.
    unfold getitem in Hd0. destruct (od_get k0 nd) as [d0'|] eqn:Hg; [|discriminate].
    injection Hd0 as ->.
    destruct (IH _ Hrest) as [Hkeys Hget]. split.
    + rewrite Hkeys. apply od_keys_set_in. apply od_get_is_Some. eauto.
    + intros k. rewrite Hget, od_get_set.
      destruct (decide (k0 = k)) as [<-|Hne]; simpl.
      * rewrite Hg. simpl. rewrite HW. simpl.
        destruct (decide (k0 ∈ ks)); rewrite decide_True by left; reflexivity.
      * destruct (od_get k nd) as [d|]; simpl; [|reflexivity]. f_equal.
        destruct (decide (k ∈ ks)) as [Hin|Hnin].
        -- rewrite decide_True by (right; exact Hin). reflexivity.
        -- rewrite decide_False; [reflexivity|].
           intros Hin. apply elem_of_cons in Hin as [->|?]; auto.
Qed.

Lemma zero_weights_lookup (ks : list pyname) k :
  (list_to_map ((λ n, (n, 0)) <$> ks) : gmap pyname Qc) !! k
  = if decide (k ∈ ks) then Some 0 else None.
Proof.
  induction ks as [|k0 ks IH].
  - simpl. rewrite lookup_empty. reflexivity.
  - rewrite fmap_cons, list_to_map_cons.
    destruct (decide (k0 = k)) as [->|Hne].
    + rewrite lookup_insert_eq. rewrite decide_True by left. reflexivity.
    + rewrite lookup_insert_ne by assumption. rewrite IH.
      destruct (decide (k ∈ ks)) as [Hin|Hnin].
      * rewrite decide_True by (right; exact Hin). reflexivity.
      * rewrite decide_False; [reflexivity|].
        intros Hin. apply elem_of_cons in Hin as [->|?]; auto.
Qed.

(** A completed run: the weights [W] copied into the table are
    consistent on a set [V] of nodes that contains the root and is
    closed under children; a node outside [V] keeps the initial 0. *)
Lemma calculate_weights_spec nd df limit nd' :
  calculate_weights nd df limit = Ok nd' →
  ∃ root V W,
    find_root nd = Ok root ∧ root ∈ V ∧ consistent nd df V W
    ∧ od_keys nd' = od_keys nd
    ∧ (∀ k, od_get k nd' = set_weight (default 0 (W !! k)) <$> od_get k nd)
    ∧ (∀ k, k ∉ V → default 0 (W !! k) = 0).
Proof.
  unfold calculate_weights. intros Hrun.
  apply bind_Ok in Hrun as (root & Hroot & Hrun).
  apply bind_Ok in Hrun as ([w W] & Haw & Hcopy).
  eapply (assign_weight_spec nd df limit root _ ∅ w W) in Haw as
    (V & _ & Hin & Hc & _ & _ & Hout); [|intros m Hm; set_solver].
  apply copy_weights_spec in Hcopy as [Hkeys Hget].
  exists root, V, W. repeat split; auto.
  - intros k. rewrite Hget. destruct (od_get k nd) as [d|] eqn:Hg; simpl; [|reflexivity].
    rewrite decide_True; [reflexivity|]. apply od_get_is_Some. eauto.
  - intros k Hk. rewrite (Hout k Hk), zero_weights_lookup.
    destruct (decide _); reflexivity.
Qed.

(** ** Weights are not negative *)

Section nonnegative.
Variable nd : node_dict.
Variable df : DataFrame.
Hypothesis confidence_nonneg :
  ∀ n r c, get_confidence_by_name_and_region df n r = Ok c → 0 ≤ c.

Lemma assign_weight_nonneg limit :
  ∀ n W w W', nonneg_weights W →
    assign_weight nd df limit n W = Ok (w, W') → 0 ≤ w ∧ nonneg_weights W'.
Proof.
  induction limit as [|limit IH]; intros n W w W' HW Hrun; [discriminate|].
  cbn [assign_weight] in Hrun.
  apply bind_Ok in Hrun as (d & Hd & Hrun).
  apply bind_Ok in Hrun as (c & Hconf & Hrun).
  apply bind_Ok in Hrun as ([w1 W1] & Hbody & Hret).
  injection Hret as <- <-.
  apply confidence_nonneg in Hconf.
  assert (Hfold : ∀ l a W0 a1 Wl, 0 ≤ a → nonneg_weights W0 →
    foldM (sum_step (assign_weight nd df limit) c) l (a, W0) = Ok (a1, Wl) →
    0 ≤ a1 ∧ nonneg_weights Wl).
  { induction l as [|x l IHl]; intros a W0 a1 Wl Ha HW0 Hf.
    - injection Hf as <- <-. auto.
    - cbn [foldM] in Hf. apply bind_Ok in Hf as ([a' Wm] & Hstep & Hrest).
      unfold sum_step in Hstep. apply bind_Ok in Hstep as ([wx Wx] & Hcall & Heq).
      injection Heq as <- <-.
      destruct (IH _ _ _ _ HW0 Hcall) as [Hwx HWx].
      apply (IHl _ _ _ _ (Qcplus_nonneg_nonneg _ _ Ha
                            (Qcmult_nonneg_nonneg _ _ Hwx Hconf)) HWx Hrest). }
  assert (0 ≤ w1 ∧ nonneg_weights W1) as [Hw1 HW1].
  { destruct (children d) as [|ch cs].
    - injection Hbody as <- <-. split; [|exact HW].
      apply Qcmult_nonneg_nonneg; [by_eval | exact Hconf].
    - unfold sum_children in Hbody.
      apply (Hfold _ _ _ _ _ (Qcle_refl 0) HW Hbody). }
  split; [exact Hw1|]. intros m x. rewrite lookup_insert.
  destruct (decide (n = m)); [intros [= <-]; exact Hw1 | apply HW1].
Qed.
End nonnegative.

Lemma empty_table_confidence n r c :
  get_confidence_by_name_and_region Examples.empty_table n r = Ok c → c = 1.
Proof.
  unfold get_confidence_by_name_and_region.
  destruct (negb _); [intros [= <-]; reflexivity | discriminate].
Qed.

(** In exact arithmetic: for every node table, hence for the table of
    every tree, and every confidence lookup whose values are all
    non-negative, every weight in the table that a completed weight
    computation returns is non-negative. *)
Theorem weights_nonnegative_exact nd df limit nd' :
  (∀ n r c, get_confidence_by_name_and_region df n r = Ok c → 0 ≤ c) →
  calculate_weights nd df limit = Ok nd' →
  ∀ n d, od_get n nd' = Some d → 0 ≤ weight d.
Proof.
  intros Hconf Hrun n d Hd. unfold calculate_weights in Hrun.
  apply bind_Ok in Hrun as (root & _ & Hrun).
  apply bind_Ok in Hrun as ([w W] & Haw & Hcopy).
  apply (assign_weight_nonneg nd df Hconf) in Haw as [_ HW].
  - apply copy_weights_spec in Hcopy as [Hkeys Hget].
    rewrite Hget in Hd. destruct (od_get n nd) as [d0|] eqn:Hg; [|discriminate].
    simpl in Hd. rewrite decide_True in Hd by (apply od_get_is_Some; eauto).
    injection Hd as <-. simpl.
    destruct (W !! n) as [x|] eqn:Hx; simpl; [apply (HW n x Hx) | apply Qcle_refl].
  - intros m x. rewrite zero_weights_lookup.
    destruct (decide _); [intros [= <-]; apply Qcle_refl | discriminate].
Qed.

Lemma weights_nonnegative_exact_witness :
  calculate_weights Examples.scenario_table Examples.empty_table 10
    = Ok Examples.scenario_weighted
  ∧ 0 ≤ weight (mkNode [Some "A"%string; Some "B"%string] None 2 (Some "Region1"%string)).
Proof.
  assert (Hrun : calculate_weights Examples.scenario_table Examples.empty_table 10
                 = Ok Examples.scenario_weighted) by by_eval.
  split; [exact Hrun|].
  apply (weights_nonnegative_exact Examples.scenario_table Examples.empty_table 10
           Examples.scenario_weighted) with (n := Some "C"%string).
  - intros n r c Hc. apply empty_table_confidence in Hc as ->. by_eval.
  - exact Hrun.
  - by_eval.
Defined.

(** ** [assign_geography] *)

Lemma annotate_cons_ne i x k d (nd : node_dict) :
  Some i ≠ k → annotate i x ((k, d) :: nd) = (k, d) :: annotate i x nd.
Proof.
  intros Hne. unfold annotate. simpl. rewrite decide_False by assumption.
  destruct (od_get (Some i) nd); simpl; [rewrite decide_False by assumption|];
    reflexivity.
Qed.

Lemma annotate_fmap (m : gmap string string) i x (nd : node_dict) :
  m !! i = None → NoDup (od_keys nd) →
  annotate i x ((λ e, (e.1, annotated m e.1 e.2)) <$> nd)
  = (λ e, (e.1, annotated (<[i:=x]> m) e.1 e.2)) <$> nd.
Proof.
  intros Hm. induction nd as [|[k d] nd IH]; intros Hnd; [reflexivity|].
  apply NoDup_cons in Hnd as [Hk Hnd]. rewrite !fmap_cons. simpl.
  destruct (decide (Some i = k)) as [<-|Hne].
  - unfold annotate. simpl. rewrite decide_True by reflexivity. simpl.
    rewrite decide_True by reflexivity.
    rewrite Hm, lookup_insert_eq. f_equal.
    apply Forall_fmap_ext_1, Forall_forall. intros [k' d'] Hin. simpl.
    destruct k' as [s|]; [|reflexivity]. simpl.
    rewrite lookup_insert_ne; [reflexivity|].
    intros ->. apply Hk. apply list_elem_of_fmap. exists (Some s, d'). auto.
  - rewrite annotate_cons_ne by assumption. rewrite (IH Hnd). f_equal.
    destruct k as [s|]; [|reflexivity]. simpl.
    rewrite lookup_insert_ne by congruence. reflexivity.
Qed.

(** [assign_geography] rewrites the region of the annotated nodes and
    nothing else. *)
Lemma assign_geography_spec (nd : node_dict) ann :
  NoDup (od_keys nd) →
  assign_geography nd ann = (λ e, (e.1, annotated ann e.1 e.2)) <$> nd.
Proof.
  intros Hnd. unfold assign_geography.
  apply (map_fold_weak_ind
           (λ r m, r = (λ e, (e.1, annotated m e.1 e.2)) <$> nd)).
  - clear. induction nd as [|[k d] nd IH]; [reflexivity|].
    rewrite fmap_cons, <- IH. simpl. destruct k as [s|]; [|reflexivity].
    simpl. rewrite lookup_empty. reflexivity.
  - intros i x m r Hm ->. apply annotate_fmap; assumption.
Qed.

Lemma od_get_fmap_values (g : pyname → node_data → node_data) k (nd : node_dict) :
  od_get k ((λ e, (e.1, g e.1 e.2)) <$> nd) = g k <$> od_get k nd.
Proof.
  induction nd as [|[k' d] nd IH]; [reflexivity|].
  rewrite fmap_cons. simpl. destruct (decide (k = k')) as [->|Hne]; [reflexivity|].
  exact IH.
Qed.

Lemma od_keys_fmap_values (g : pyname → node_data → node_data) (nd : node_dict) :
  od_keys ((λ e, (e.1, g e.1 e.2)) <$> nd) = od_keys nd.
Proof.
  unfold od_keys. rewrite <- list_fmap_compose. reflexivity.
Qed.

Lemma find_root_fmap_values (g : pyname → node_data → node_data) (nd : node_dict) :
  (∀ k d, parent (g k d) = parent d) →
  find_root ((λ e, (e.1, g e.1 e.2)) <$> nd) = find_root nd.
Proof.
  intros Hg. induction nd as [|[k d] nd IH]; [reflexivity|].
  rewrite fmap_cons. simpl. rewrite Hg, IH. reflexivity.
Qed.

Lemma annotated_children ann k d : children (annotated ann k d) = children d.
Proof. destruct k as [s|]; [|reflexivity]. simpl. destruct (ann !! s); reflexivity. Qed.

Lemma annotated_parent ann k d : parent (annotated ann k d) = parent d.
Proof. destruct k as [s|]; [|reflexivity]. simpl. destruct (ann !! s); reflexivity. Qed.

Lemma annotated_region ann k d :
  region d = None → region_of (annotated ann k d) = region_for ann k.
Proof.
  intros Hd. unfold region_of. destruct k as [s|]; simpl; [|rewrite Hd; reflexivity].
  destruct (ann !! s); simpl; [reflexivity | rewrite Hd; reflexivity].
Qed.

(** ** The node table of a tree *)

Lemma create_node_dict_NoDup t nd : create_node_dict t = Ok nd → NoDup (od_keys nd).
Proof.
  intros Hnd. destruct (create_node_dict_spec t) as (nd' & Hok & Hkeys & _).
  rewrite Hnd in Hok. injection Hok as <-. rewrite Hkeys.
  apply init_nodes_NoDup. constructor.
Qed.

Lemma table_record t ann nd k :
  create_node_dict t = Ok nd → k ∈ names t →
  od_get k (assign_geography nd ann)
  = Some (annotated ann k (mkNode (children_of_edges k (edges t))
                                  (parent_of_edges k (edges t) None) 0 None)).
Proof.
  intros Hnd Hk. rewrite assign_geography_spec by (eapply create_node_dict_NoDup; eauto).
  rewrite od_get_fmap_values.
  destruct (create_node_dict_spec t) as (nd' & Hok & _ & Hget).
  rewrite Hnd in Hok. injection Hok as <-. rewrite (Hget k Hk). reflexivity.
Qed.

Lemma elem_of_names t c : c ∈ find_clades t → name c ∈ names t.
Proof. intros Hc. apply list_elem_of_fmap. exists c. auto. Qed.

(** The record of a position lists at least the children of that
    position. *)
Lemma table_children_subset t c ch :
  c ∈ find_clades t → ch ∈ clades c →
  name ch ∈ children_of_edges (name c) (edges t).
Proof.
  intros Hc Hch. unfold edges. rewrite children_of_flat_edges.
  apply elem_of_flat_map. exists c. split; [exact Hc|].
  rewrite decide_True by reflexivity. apply list_elem_of_fmap. exists ch. auto.
Qed.

Lemma flat_map_select {A B C} `{EqDecision B} (f : A → B) (g : A → list C)
    (l : list A) (a : A) :
  NoDup (f <$> l) → a ∈ l →
  flat_map (λ x, if decide (f x = f a) then g x else []) l = g a.
Proof.
  induction l as [|x l IH]; intros Hnd Hin; [inversion Hin|].
  rewrite fmap_cons in Hnd. apply NoDup_cons in Hnd as [Hx Hnd]. simpl.
  apply elem_of_cons in Hin as [->|Hin].
  - rewrite decide_True by reflexivity.
    assert (Hnil : flat_map (λ x0, if decide (f x0 = f x) then g x0 else []) l = []).
    { clear IH Hnd. induction l as [|y l IHl]; [reflexivity|]. simpl.
      rewrite fmap_cons, not_elem_of_cons in Hx. destruct Hx as [Hne Hx].
      rewrite decide_False by congruence. simpl. auto. }
    rewrite Hnil, app_nil_r. reflexivity.
  - rewrite decide_False.
    + simpl. auto.
    + intros Heq. apply Hx. rewrite Heq. apply list_elem_of_fmap. exists a. auto.
Qed.

(** With unique names, the record of a position lists exactly the
    children of that position. *)
Lemma table_children_exact t c :
  NoDup (names t) → c ∈ find_clades t →
  children_of_edges (name c) (edges t) = name <$> clades c.
Proof.
  intros Hnd Hc. unfold edges. rewrite children_of_flat_edges.
  apply (flat_map_select name (λ c, name <$> clades c)); assumption.
Qed.

Lemma parent_of_edges_untouched k es p0 :
  (∀ e, e ∈ es → e.2 ≠ k) → parent_of_edges k es p0 = p0.
Proof.
  unfold parent_of_edges. revert p0. induction es as [|e es IH]; intros p0 Hes;
    simpl; [reflexivity|].
  rewrite decide_False by (apply Hes; left). apply IH.
  intros e' Hin. apply Hes. right. exact Hin.
Qed.

Lemma edges_child_below t p ch :
  (p, ch) ∈ edges t → ch ∈ name <$> flat_map find_clades (clades t).
Proof.
  unfold edges, clade_edges. rewrite elem_of_flat_map.
  intros (c & Hc & He). apply list_elem_of_fmap in He as (x & [= -> ->] & Hx).
  apply list_elem_of_fmap. exists x. split; [reflexivity|].
  rewrite find_clades_unfold in Hc. apply elem_of_cons in Hc as [->|Hc].
  - apply elem_of_flat_map. exists x. split; [exact Hx | apply find_clades_self].
  - apply elem_of_flat_map in Hc as (a & Ha & Hc).
    apply elem_of_flat_map. exists a. split; [exact Ha|].
    eapply find_clades_child; eauto.
Qed.

(** With unique names, the root search returns the root of the tree. *)
Lemma table_root t ann nd :
  NoDup (names t) → create_node_dict t = Ok nd →
  find_root (assign_geography nd ann) = Ok (name t).
Proof.
  intros Hnames Hnd.
  rewrite assign_geography_spec by (eapply create_node_dict_NoDup; eauto).
  rewrite find_root_fmap_values by (intros; apply annotated_parent).
  destruct (create_node_dict_spec t) as (nd' & Hok & Hkeys & Hget).
  rewrite Hnd in Hok. injection Hok as <-.
  assert (Hhead : ∃ l, od_keys nd = name t :: l).
  { rewrite Hkeys, find_clades_unfold. simpl.
    destruct (init_nodes_prefix (flat_map find_clades (clades t))
                [(name t, fresh_node)]) as [l Hl].
    exists l. unfold init_nodes in *. rewrite Hl. reflexivity. }
  destruct Hhead as [l Hl]. destruct nd as [|[k d] nd]; [discriminate|].
  injection Hl as -> _. simpl.
  specialize (Hget (name t) (elem_of_names t t (find_clades_self t))).
  simpl in Hget. rewrite decide_True in Hget by reflexivity. injection Hget as ->.
  simpl. rewrite parent_of_edges_untouched; [rewrite decide_True; reflexivity|].
  intros [p ch] Hin. simpl. intros ->.
  apply edges_child_below in Hin. unfold names in Hnames.
  rewrite find_clades_unfold, fmap_cons in Hnames.
  apply NoDup_cons in Hnames as [Hroot _]. contradiction.
Qed.

(** A set of names that holds the root and is closed under the children
    lists of the table holds every name of the tree. *)
Lemma closed_covers_tree (t : Clade) (V : gset pyname) :
  (∀ c ch, c ∈ find_clades t → name c ∈ V → ch ∈ clades c → name ch ∈ V) →
  name t ∈ V → ∀ c, c ∈ find_clades t → name c ∈ V.
Proof.
  intros Hclosed. 
  assert (Hsub : ∀ c, c ∈ find_clades t → name c ∈ V →
                      ∀ c', c' ∈ find_clades c → name c' ∈ V).
  { induction c as [n cs IH] using Clade_ind'. intros Hc Hn c' Hc'.
    rewrite find_clades_unfold in Hc'. simpl in Hc'.
    apply elem_of_cons in Hc' as [->|Hc']; [exact Hn|].
    apply elem_of_flat_map in Hc' as (a & Ha & Hc').
    rewrite Forall_forall in IH. apply (IH a Ha); [| |exact Hc'].
    - eapply find_clades_child; eauto.
    - apply (Hclosed (mkClade n cs) a Hc Hn Ha). }
  intros Hroot c Hc. apply (Hsub t (find_clades_self t) Hroot c Hc).
Qed.

(** ** The weights of a tree with unique names *)

Lemma sum_list_ext {A} (f g : A → Qc) (l : list A) :
  (∀ x, x ∈ l → f x = g x) → sum_list (f <$> l) = sum_list (g <$> l).
Proof.
  intros Hfg. f_equal. apply Forall_fmap_ext_1, Forall_forall. exact Hfg.
Qed.

Lemma fold_sum (f : pyname → Qc) (c : Qc) (l : list pyname) (a : Qc) :
  fold_left (λ acc ch, acc + f ch * c) l a = a + c * sum_list (f <$> l).
Proof.
  revert a. induction l as [|x l IH]; intros a.
  - unfold sum_list. cbn [fold_left fmap list_fmap foldr]. ring.
  - cbn [fold_left]. rewrite IH. unfold sum_list. rewrite fmap_cons.
    cbn [foldr]. ring.
Qed.

Lemma node_formula_sum (c : Qc) (cs : list pyname) (W : gmap pyname Qc) :
  cs ≠ [] → node_formula c cs W = c * sum_list ((λ ch, default 0 (W !! ch)) <$> cs).
Proof.
  intros Hcs. unfold node_formula. destruct cs as [|ch cs]; [contradiction|].
  rewrite (fold_sum (λ ch, default 0 (W !! ch))). ring.
Qed.

(** The table returned for a tree with unique names: the record of
    every position keeps the children and the region of the position,
    and its weight is the value of the recursion on the weights of the
    children. *)
Lemma weighted_table_spec t ann df limit nd' :
  NoDup (names t) → weighted_table t ann df limit = Ok nd' →
  ∀ c, c ∈ find_clades t →
    ∃ d conf,
      od_get (name c) nd' = Some d
      ∧ children d = name <$> clades c
      ∧ region_of d = region_for ann (name c)
      ∧ get_confidence_by_name_and_region df (name c) (region_of d) = Ok conf
      ∧ weight d = node_formula conf (children d)
                     (list_to_map ((λ e, (e.1, weight e.2)) <$> nd')).
Proof.
  intros Hnames Hrun c Hc. unfold weighted_table in Hrun.
  apply bind_Ok in Hrun as (nd & Hnd & Hrun).
  apply calculate_weights_spec in Hrun
    as (root & V & W & Hroot & Hin & Hcons & Hkeys & Hget & Hout).
  rewrite (table_root t ann nd Hnames Hnd) in Hroot. injection Hroot as <-.
  (* every name of the tree was reached *)
  assert (Hall : ∀ c, c ∈ find_clades t → name c ∈ V).
  { apply closed_covers_tree; [|exact Hin].
    intros c0 ch Hc0 Hn Hch. destruct (Hcons _ Hn) as (d & conf & Hd & _ & Hcl & _).
    apply Hcl. rewrite (table_record t ann nd _ Hnd (elem_of_names t c0 Hc0)) in Hd.
    injection Hd as <-. rewrite annotated_children. simpl.
    apply table_children_subset; assumption. }
  (* the weights copied into the table are those of [W] *)
  assert (Hnd' : NoDup (od_keys nd')).
  { rewrite Hkeys, assign_geography_spec by (eapply create_node_dict_NoDup; eauto).
    rewrite od_keys_fmap_values. eapply create_node_dict_NoDup; eauto. }
  assert (HW : ∀ k, k ∈ V →
    (list_to_map ((λ e, (e.1, weight e.2)) <$> nd') : gmap pyname Qc) !! k = W !! k).
  { intros k Hk. destruct (Hcons _ Hk) as (d & conf & Hd & _ & _ & Hval).
    rewrite Hval. apply elem_of_list_to_map_1.
    - rewrite <- list_fmap_compose. exact Hnd'.
    - apply list_elem_of_fmap. exists (k, set_weight (default 0 (W !! k)) d).
      split; [simpl; rewrite Hval; reflexivity|].
      apply od_get_elem_of_1. rewrite Hget, Hd. reflexivity. }
  destruct (Hcons _ (Hall c Hc)) as (d & conf & Hd & Hconf & Hcl & Hval).
  exists (set_weight (default 0 (W !! name c)) d), conf.
  pose proof Hd as Hrec.
  rewrite (table_record t ann nd _ Hnd (elem_of_names t c Hc)) in Hrec.
  injection Hrec as Hrec.
  split; [rewrite Hget, Hd; reflexivity|].
  split; [simpl; rewrite <- Hrec, annotated_children; simpl;
          apply table_children_exact; assumption|].
  split; [unfold region_of; simpl; rewrite <- Hrec;
          apply annotated_region; reflexivity|].
  split; [exact Hconf|].
  simpl. rewrite Hval. simpl. symmetry. apply node_formula_ext.
  intros ch Hch. apply HW, Hcl, Hch.
Qed.

Lemma weight_in_table (nd : node_dict) k :
  NoDup (od_keys nd) →
  default 0 ((list_to_map ((λ e, (e.1, weight e.2)) <$> nd) : gmap pyname Qc) !! k)
  = weight_in nd k.
Proof.
  intros Hnd. unfold weight_in. destruct (od_get k nd) as [d|] eqn:Hd; simpl.
  - rewrite (elem_of_list_to_map_1 _ k (weight d)); [reflexivity| |].
    + rewrite <- list_fmap_compose. exact Hnd.
    + apply list_elem_of_fmap. exists (k, d). split; [reflexivity|].
      apply od_get_elem_of_1, Hd.
  - rewrite not_elem_of_list_to_map_1; [reflexivity|].
    rewrite <- list_fmap_compose. apply od_get_None, Hd.
Qed.

Lemma weighted_table_NoDup t ann df limit nd' :
  weighted_table t ann df limit = Ok nd' → NoDup (od_keys nd').
Proof.
  unfold weighted_table. intros Hrun.
  apply bind_Ok in Hrun as (nd & Hnd & Hrun).
  apply calculate_weights_spec in Hrun as (_ & _ & _ & _ & _ & _ & Hkeys & _).
  rewrite Hkeys, assign_geography_spec by (eapply create_node_dict_NoDup; eauto).
  rewrite od_keys_fmap_values. eapply create_node_dict_NoDup; eauto.
Qed.

(** In exact arithmetic the sum of the products is the product with the
    sum: for every tree of unique names, annotation and confidence
    table, once the weight computation has completed, every leaf [n]
    has weight [1 * confidence(n, region(n))] and every internal node
    [n] has weight [confidence(n, region(n))] times the sum of the
    weights of its children, where [region(n)] is the annotated region
    of [n], or ["Unknown"]. *)
Theorem weight_recurrence_exact t ann df limit nd' :
  NoDup (names t) → weighted_table t ann df limit = Ok nd' →
  ∀ c, c ∈ find_clades t →
    ∃ d conf,
      od_get (name c) nd' = Some d
      ∧ get_confidence_by_name_and_region df (name c) (region_for ann (name c)) = Ok conf
      ∧ (clades c = [] → weight d = 1 * conf)
      ∧ (clades c ≠ [] →
         weight d = conf * sum_list ((λ ch, weight_in nd' (name ch)) <$> clades c)).
Proof.
  intros Hnames Hrun c Hc.
  destruct (weighted_table_spec t ann df limit nd' Hnames Hrun c Hc)
    as (d & conf & Hd & Hch & Hreg & Hconf & Hw).
  exists d, conf. split; [exact Hd|]. rewrite <- Hreg. split; [exact Hconf|].
  rewrite Hw, Hch. split.
  - intros ->. reflexivity.
  - intros Hne. rewrite node_formula_sum
      by (destruct (clades c); [contradiction | discriminate]).
    f_equal. rewrite <- list_fmap_compose. f_equal.
    apply Forall_fmap_ext_1, Forall_forall. intros ch _. simpl.
    apply weight_in_table. eapply weighted_table_NoDup; eauto.
Qed.

Lemma weight_recurrence_exact_witness :
  NoDup (names Examples.scenario_tree)
  ∧ weighted_table Examples.scenario_tree Examples.scenario_annotations
      Examples.empty_table 10 = Ok Examples.scenario_weighted
  ∧ ∃ d conf,
      od_get (Some "C"%string) Examples.scenario_weighted = Some d
      ∧ get_confidence_by_name_and_region Examples.empty_table (Some "C"%string)
          (region_for Examples.scenario_annotations (Some "C"%string)) = Ok conf
      ∧ (clades Examples.scenario_tree = [] → weight d = 1 * conf)
      ∧ (clades Examples.scenario_tree ≠ [] →
         weight d
         = conf * sum_list ((λ ch, weight_in Examples.scenario_weighted (name ch))
                              <$> clades Examples.scenario_tree)).
Proof.
  assert (Hnames : NoDup (names Examples.scenario_tree)) by by_eval.
  assert (Hrun : weighted_table Examples.scenario_tree Examples.scenario_annotations
                   Examples.empty_table 10 = Ok Examples.scenario_weighted) by by_eval.
  split; [exact Hnames|]. split; [exact Hrun|].
  apply (weight_recurrence_exact Examples.scenario_tree Examples.scenario_annotations
           Examples.empty_table 10 Examples.scenario_weighted Hnames Hrun
           Examples.scenario_tree).
  apply find_clades_self.
Defined.

(** ** Leaf counts *)

Lemma leaf_count_cons n c cs :
  leaf_count (mkClade n (c :: cs))
  = foldr (λ ch k, (leaf_count ch + k)%nat) 0%nat (c :: cs).
Proof. reflexivity. Qed.

Lemma sum_leaf_counts (cs : list Clade) :
  sum_list ((λ ch, Qc_of_Z (Z.of_nat (leaf_count ch))) <$> cs)
  = Qc_of_Z (Z.of_nat (foldr (λ ch k, (leaf_count ch + k)%nat) 0%nat cs)).
Proof.
  unfold sum_list. induction cs as [|c cs IH].
  - symmetry. apply Z2Qc_inj_0.
  - rewrite fmap_cons. cbn [foldr]. rewrite IH, Nat2Z.inj_add, Z2Qc_inj_add.
    reflexivity.
Qed.

(** C8: for every tree (of unique names), if the confidence lookup
    returns 1 for every node with its region, then once the weight
    computation has completed the weight of every node is the number of
    leaves of its subtree. *)
Theorem leaf_count_weights t ann df limit nd' :
  NoDup (names t) →
  (∀ c, c ∈ find_clades t →
        get_confidence_by_name_and_region df (name c) (region_for ann (name c)) = Ok 1) →
  weighted_table t ann df limit = Ok nd' →
  ∀ c, c ∈ find_clades t → weight_in nd' (name c) = Qc_of_Z (Z.of_nat (leaf_count c)).
Proof.
  intros Hnames Hone Hrun.
  pose proof (weighted_table_NoDup t ann df limit nd' Hrun) as Hnd'.
  induction c as [n cs IH] using Clade_ind'. intros Hc.
  destruct (weighted_table_spec t ann df limit nd' Hnames Hrun _ Hc)
    as (d & conf & Hd & Hch & Hreg & Hconf & Hw).
  rewrite Hreg, (Hone _ Hc) in Hconf. injection Hconf as <-.
  unfold weight_in at 1. rewrite Hd. cbn [fmap option_fmap option_map default].
  rewrite Hw, Hch. cbn [clades]. destruct cs as [|c0 cs].
  - by_eval.
  - rewrite node_formula_sum by discriminate.
    rewrite leaf_count_cons, <- sum_leaf_counts, Qcmult_1_l.
    rewrite <- list_fmap_compose. apply sum_list_ext. intros ch Hch'.
    cbn [compose]. rewrite weight_in_table by exact Hnd'.
    rewrite Forall_forall in IH. apply IH; [exact Hch'|].
    apply (find_clades_child t _ ch Hc). exact Hch'.
Qed.

Lemma leaf_count_weights_witness :
  weight_in Examples.scenario_weighted (Some "C"%string)
  = Qc_of_Z (Z.of_nat (leaf_count Examples.scenario_tree)).
Proof.
  apply (leaf_count_weights Examples.scenario_tree Examples.scenario_annotations
           Examples.empty_table 10 Examples.scenario_weighted)
    with (c := Examples.scenario_tree).
  - by_eval.
  - intros c Hc. cbn in Hc.
    repeat (apply elem_of_cons in Hc as [->|Hc]); [by_eval .. | inversion Hc].
  - by_eval.
  - apply find_clades_self.
Defined.

(** ** Completion of the weight computation *)

Lemma height_child n cs ch : ch ∈ cs → (height ch < height (mkClade n cs))%nat.
Proof.
  intros Hch. simpl. apply Nat.lt_succ_r.
  induction cs as [|c cs IH]; [inversion Hch|]. simpl.
  apply elem_of_cons in Hch as [->|Hch]; [lia|]. specialize (IH Hch). lia.
Qed.

Lemma copy_weights_completes (W : gmap pyname Qc) ks (nd : node_dict) :
  (∀ k, k ∈ ks → is_Some (W !! k) ∧ k ∈ od_keys nd) →
  ∃ nd', foldM (λ nd node,
                  w ← getweight W node;
                  d ← getitem node nd;
                  Ok (od_set node (set_weight w d) nd)) ks nd = Ok nd'.
Proof.
  revert nd. induction ks as [|k ks IH]; intros nd Hks; [eexists; reflexivity|].
  destruct (Hks k) as [[w Hw] Hk]; [left|].
  apply od_get_is_Some in Hk as Hd. destruct Hd as [d Hd].
  cbn [foldM]. unfold getweight, getitem. rewrite Hw, Hd. simpl.
  apply IH. intros k' Hk'. destruct (Hks k') as [? ?]; [right; exact Hk'|].
  split; [assumption|]. rewrite od_keys_set_in; assumption.
Qed.

(** On the table of a tree with unique names, the recursion returns
    for every position whose subtree is no higher than the recursion
    limit, provided the confidence lookups of the tree return. *)
Lemma assign_weight_completes t ann df nd :
  NoDup (names t) → create_node_dict t = Ok nd →
  (∀ c, c ∈ find_clades t →
        is_ok (get_confidence_by_name_and_region df (name c)
                 (region_for ann (name c))) = true) →
  ∀ c, c ∈ find_clades t →
    ∀ limit W, (height c ≤ limit)%nat →
      is_ok (assign_weight (assign_geography nd ann) df limit (name c) W) = true.
Proof.
  intros Hnames Hnd Hconf.
  induction c as [n cs IH] using Clade_ind'. intros Hc limit W Hlim.
  destruct limit as [|limit]; [simpl in Hlim; lia|].
  cbn [assign_weight]. unfold getitem.
  rewrite (table_record t ann nd _ Hnd (elem_of_names t _ Hc)). simpl.
  rewrite annotated_region by reflexivity.
  specialize (Hconf _ Hc) as Hc1. simpl in Hc1.
  destruct (get_confidence_by_name_and_region df n (region_for ann n))
    as [conf|] eqn:Hcf; [|discriminate]. simpl.
  rewrite annotated_children. cbn [children].
  pose proof (table_children_exact t _ Hnames Hc) as Hce. simpl in Hce.
  rewrite Hce. clear Hce.
  assert (Hfold : ∀ l a W0, (∀ ch, ch ∈ l → ch ∈ cs) →
    is_ok (foldM (sum_step (assign_weight (assign_geography nd ann) df limit) conf)
                 (name <$> l) (a, W0)) = true).
  { induction l as [|x l IHl]; intros a W0 Hl; [reflexivity|].
    rewrite fmap_cons. cbn [foldM]. rewrite sum_step_eq.
    assert (Hx : x ∈ cs) by (apply Hl; left).
    rewrite Forall_forall in IH.
    pose proof (IH x Hx (find_clades_child t _ x Hc Hx) limit W0) as Hcall.
    pose proof (height_child n cs x Hx) as Hh.
    destruct (assign_weight (assign_geography nd ann) df limit (name x) W0)
      as [[w Wx]|] eqn:Hrun;
      [|exfalso; simpl in Hcall; assert (false = true) by (apply Hcall; lia);
        discriminate].
    cbn [mbind result_bind]. apply IHl. intros ch Hch. apply Hl. right. exact Hch. }
  destruct cs as [|c0 cs']; [reflexivity|].
  rewrite fmap_cons. unfold sum_children. rewrite <- fmap_cons.
  specialize (Hfold (c0 :: cs') 0 W (λ _ H, H)).
  destruct (foldM _ (name <$> c0 :: cs') (0, W)) as [[w W']|]; [reflexivity|discriminate].
Qed.

(** The weight computation completes on every tree of unique names
    whose confidence lookups return and whose height does not exceed
    the nesting of calls that [limit] admits. *)
Lemma weighted_table_completes_within t ann df limit :
  NoDup (names t) → (height t ≤ limit)%nat →
  (∀ c, c ∈ find_clades t →
        is_ok (get_confidence_by_name_and_region df (name c)
                 (region_for ann (name c))) = true) →
  ∃ nd', weighted_table t ann df limit = Ok nd'.
Proof.
  intros Hnames Hlim Hconf. unfold weighted_table.
  destruct (create_node_dict_spec t) as (nd & Hnd & _). rewrite Hnd. simpl.
  unfold calculate_weights. rewrite (table_root t ann nd Hnames Hnd). simpl.
  pose proof (assign_weight_completes t ann df nd Hnames Hnd Hconf t
                (find_clades_self t) limit
                (list_to_map ((λ n, (n, 0)) <$> od_keys (assign_geography nd ann)))
                Hlim) as Hrun.
  destruct (assign_weight _ _ _ _ _) as [[w W]|] eqn:Haw; [|discriminate]. simpl.
  apply copy_weights_completes. intros k Hk. split; [|exact Hk].
  eapply (assign_weight_spec _ _ _ _ _ ∅) in Haw
    as (V & _ & _ & Hc & _ & _ & Hout); [|intros m Hm; set_solver].
  destruct (decide (k ∈ V)) as [Hin|Hnin].
  - destruct (Hc _ Hin) as (? & ? & _ & _ & _ & ->). eauto.
  - rewrite (Hout _ Hnin), zero_weights_lookup, decide_True by exact Hk. eauto.
Qed.

(** ** Parents in the table of a tree with unique names *)

Lemma flat_map_flat_map {A B C} (f : B → list C) (g : A → list B) (l : list A) :
  flat_map f (flat_map g l) = flat_map (λ x, flat_map f (g x)) l.
Proof.
  induction l as [|x l IH]; simpl; [reflexivity|].
  rewrite flat_map_app, IH. reflexivity.
Qed.

Lemma fmap_flat_map {A B C} (f : B → C) (g : A → list B) (l : list A) :
  f <$> flat_map g l = flat_map (λ x, f <$> g x) l.
Proof.
  induction l as [|x l IH]; simpl; [reflexivity|].
  rewrite fmap_app, IH. reflexivity.
Qed.

Lemma edges_unfold t :
  edges t = clade_edges t ++ flat_map edges (clades t).
Proof.
  unfold edges. rewrite find_clades_unfold. simpl.
  rewrite flat_map_flat_map. reflexivity.
Qed.

Lemma names_unfold t : names t = name t :: flat_map names (clades t).
Proof.
  unfold names. rewrite find_clades_unfold, fmap_cons, fmap_flat_map. reflexivity.
Qed.

(** The children named by the edges are the positions below the root,
    each once. *)
Lemma edge_children_perm t : (edges t).*2 ≡ₚ flat_map names (clades t).
Proof.
  induction t as [n cs IH] using Clade_ind'.
  rewrite edges_unfold, fmap_app, clade_edges_children, fmap_flat_map.
  cbn [clades]. induction IH as [|c cs Hc _ IHcs]; [reflexivity|].
  cbn [flat_map]. rewrite fmap_cons, names_unfold, Hc. cbn [app].
  constructor. rewrite <- IHcs.
  rewrite !app_assoc. apply Permutation_app_tail, Permutation_app_comm.
Qed.

Lemma edge_children_NoDup t : NoDup (names t) → NoDup (edges t).*2.
Proof.
  rewrite names_unfold, edge_children_perm. intros Hnd.
  apply NoDup_cons in Hnd as [_ Hnd]. exact Hnd.
Qed.

Lemma parent_of_edges_unique k q es p0 :
  NoDup es.*2 → (q, k) ∈ es → parent_of_edges k es p0 = q.
Proof.
  unfold parent_of_edges. revert p0.
  induction es as [|[q' k'] es IH]; intros p0 Hnd Hin; [inversion Hin|].
  rewrite fmap_cons in Hnd. apply NoDup_cons in Hnd as [Hk Hnd]. simpl in *.
  apply elem_of_cons in Hin as [[= <- <-]|Hin].
  - rewrite decide_True by reflexivity.
    apply (parent_of_edges_untouched k es q). intros e He Heq.
    apply Hk. apply list_elem_of_fmap. exists e. auto.
  - destruct (decide (k' = k)) as [->|Hne]; [|auto].
    exfalso. apply Hk. apply list_elem_of_fmap. exists (q, k). auto.
Qed.

(** Every position below the root is the child of a position. *)
Lemma below_root_has_parent t c :
  c ∈ flat_map find_clades (clades t) →
  ∃ p, p ∈ find_clades t ∧ c ∈ clades p.
Proof.
  revert c. induction t as [n cs IH] using Clade_ind'. intros c Hc.
  cbn [clades] in Hc. apply elem_of_flat_map in Hc as (a & Ha & Hc).
  rewrite find_clades_unfold in Hc. apply elem_of_cons in Hc as [->|Hc].
  - exists (mkClade n cs). split; [apply find_clades_self | exact Ha].
  - rewrite Forall_forall in IH. destruct (IH a Ha c Hc) as (p & Hp & Hcp).
    exists p. split; [|exact Hcp].
    apply (find_clades_trans _ a); [|exact Hp].
    rewrite find_clades_unfold. right. apply elem_of_flat_map.
    exists a. split; [exact Ha | apply find_clades_self].
Qed.

Lemma root_parent t : NoDup (names t) → parent_of_edges (name t) (edges t) None = None.
Proof.
  intros Hnames. apply parent_of_edges_untouched. intros [p ch] Hin. simpl. intros ->.
  apply edges_child_below in Hin. unfold names in Hnames.
  rewrite find_clades_unfold, fmap_cons in Hnames.
  apply NoDup_cons in Hnames as [Hroot _]. contradiction.
Qed.

Lemma below_root_parent t c :
  NoDup (names t) → c ∈ flat_map find_clades (clades t) →
  ∃ p, p ∈ find_clades t ∧ parent_of_edges (name c) (edges t) None = name p.
Proof.
  intros Hnames Hc. destruct (below_root_has_parent t c Hc) as (p & Hp & Hcp).
  exists p. split; [exact Hp|].
  apply parent_of_edges_unique; [apply edge_children_NoDup, Hnames|].
  unfold edges. apply elem_of_flat_map. exists p. split; [exact Hp|].
  unfold clade_edges. apply list_elem_of_fmap. exists c. auto.
Qed.

Lemma names_keys t nd :
  NoDup (names t) → create_node_dict t = Ok nd → od_keys nd = names t.
Proof.
  intros Hnames Hnd. destruct (create_node_dict_spec t) as (nd' & Hok & Hkeys & _).
  rewrite Hnd in Hok. injection Hok as <-. rewrite Hkeys. unfold names.
  assert (Hgen : ∀ cs init, NoDup (od_keys init ++ (name <$> cs)) →
            od_keys (init_nodes cs init) = od_keys init ++ (name <$> cs)).
  { induction cs as [|c cs IH]; intros init Hno; simpl.
    - rewrite app_nil_r. reflexivity.
    - rewrite fmap_cons in Hno. unfold init_nodes in *. simpl.
      assert (Hc : name c ∉ od_keys init).
      { apply NoDup_app in Hno as (_ & Hdis & _). intros Hin.
        apply (Hdis _ Hin). left. }
      rewrite IH; rewrite od_keys_set_notin by exact Hc.
      + rewrite <- app_assoc. reflexivity.
      + rewrite <- app_assoc. exact Hno. }
  apply (Hgen _ []). exact Hnames.
Qed.

(** The shape of the weighted table of a tree with unique names: the
    root comes first and has no parent; every other record names as its
    parent a position of the tree; the region of a record is the
    annotation of its name, if any. *)
Lemma weighted_table_shape t ann df limit nd' :
  NoDup (names t) → weighted_table t ann df limit = Ok nd' →
  ∃ rd post,
    nd' = (name t, rd) :: post
    ∧ parent rd = None
    ∧ region_of rd = region_for ann (name t)
    ∧ (∀ n d, (n, d) ∈ post →
         ∃ c p, c ∈ find_clades t ∧ p ∈ find_clades t ∧ n = name c
                ∧ parent d = name p ∧ name p ∈ od_keys nd')
    ∧ (∀ n d, (n, d) ∈ nd' →
         ∃ c, c ∈ find_clades t ∧ n = name c
              ∧ region d = match n with Some s => ann !! s | None => None end).
Proof.
  intros Hnames Hrun. pose proof (weighted_table_NoDup _ _ _ _ _ Hrun) as Hnd'.
  unfold weighted_table in Hrun.
  apply bind_Ok in Hrun as (nd & Hnd & Hrun).
  apply calculate_weights_spec in Hrun as (_ & _ & W & _ & _ & _ & Hkeys & Hget & _).
  assert (Hk : od_keys nd' = names t).
  { rewrite Hkeys, assign_geography_spec by (eapply create_node_dict_NoDup; eauto).
    rewrite od_keys_fmap_values. apply names_keys; assumption. }
  (* the record of a name *)
  assert (Hrec : ∀ n d, (n, d) ∈ nd' →
    n ∈ names t
    ∧ parent d = parent_of_edges n (edges t) None
    ∧ region d = match n with Some s => ann !! s | None => None end).
  { intros n d Hin. assert (Hn : n ∈ names t).
    { rewrite <- Hk. apply list_elem_of_fmap. exists (n, d). auto. }
    split; [exact Hn|].
    apply (od_get_elem_of _ _ _ Hnd') in Hin. rewrite Hget in Hin.
    rewrite (table_record t ann nd n Hnd Hn) in Hin. injection Hin as <-. simpl.
    rewrite annotated_parent. split; [reflexivity|].
    destruct n as [s|]; simpl; [|reflexivity]. destruct (ann !! s); reflexivity. }
  destruct nd' as [|[n0 rd] post]; [rewrite names_unfold in Hk; discriminate|].
  rewrite names_unfold in Hk. injection Hk as -> Hpost.
  exists rd, post. split; [reflexivity|].
  destruct (Hrec (name t) rd ltac:(left)) as (_ & Hp & Hr).
  split; [rewrite Hp; apply root_parent, Hnames|].
  split.
  { unfold region_of, region_for. rewrite Hr. destruct (name t); reflexivity. }
  split.
  - intros n d Hin. destruct (Hrec n d ltac:(right; exact Hin)) as (_ & Hp' & _).
    assert (Hn : n ∈ flat_map names (clades t)).
    { rewrite <- Hpost. apply list_elem_of_fmap. exists (n, d). auto. }
    apply elem_of_flat_map in Hn as (a & Ha & Hn). unfold names in Hn.
    apply list_elem_of_fmap in Hn as (c & -> & Hc).
    assert (Hbelow : c ∈ flat_map find_clades (clades t))
      by (apply elem_of_flat_map; eauto).
    destruct (below_root_parent t c Hnames Hbelow) as (p & Hp0 & Heq).
    exists c, p. split.
    { rewrite find_clades_unfold. right. exact Hbelow. }
    split; [exact Hp0|]. split; [reflexivity|]. split; [congruence|].
    unfold od_keys in *. rewrite fmap_cons. cbn [fst].
    rewrite Hpost, <- names_unfold. apply elem_of_names, Hp0.
  - intros n d Hin. destruct (Hrec n d Hin) as (Hn & _ & Hr').
    apply list_elem_of_fmap in Hn as (c & -> & Hc). exists c. auto.
Qed.

(** ** The aggregation pass *)

Lemma spread_step_Ok nd rw n d rw' :
  spread_step nd rw (n, d) = Ok rw' ↔
  ∃ s k, rw !! region_of d = Some s ∧ classify nd d = Ok k
         ∧ rw' = <[region_of d := contribute k (weight d) (add_total (weight d) s)]> rw.
Proof.
  unfold spread_step, classify, getstats. cbn [snd].
  destruct (rw !! region_of d) as [s|] eqn:Hs; simpl;
    [|split; [discriminate | intros (? & ? & [=] & _)]].
  destruct (if truthy (parent d) then _ else _) as [pr|e]; simpl;
    [|split; [discriminate | intros (? & ? & _ & [=] & _)]].
  rewrite !lookup_insert_eq. simpl.
  assert (Hgoal : ∀ k (X : result (gmap string region_stats)),
    X = Ok (<[region_of d := contribute k (weight d) (add_total (weight d) s)]> rw) →
    X = Ok rw' ↔
    ∃ s0 k0, Some s = Some s0 ∧ Ok k = Ok k0
             ∧ rw' = <[region_of d := contribute k0 (weight d)
                                        (add_total (weight d) s0)]> rw).
  { intros k X ->. split.
    - intros [= <-]. eauto.
    - intros (s0 & k0 & [= <-] & [= <-] & ->). reflexivity. }
  destruct (bool_decide (pr = Some (region_of d))).
  - apply (Hgoal ToLocal). simpl. rewrite insert_insert_eq. reflexivity.
  - destruct pr as [pr0|]; simpl.
    + destruct (negb _).
      * apply (Hgoal (ToSource pr0)). simpl. rewrite insert_insert_eq. reflexivity.
      * apply (Hgoal ToNone). reflexivity.
    + apply (Hgoal ToNone). reflexivity.
Qed.

Lemma sum_values_insert_fresh (m : gmap string Qc) k v :
  m !! k = None → sum_values (<[k:=v]> m) = v + sum_values m.
Proof.
  intros Hk. unfold sum_values. apply map_fold_insert_L; [|exact Hk].
  intros. ring.
Qed.

(** [sources.setdefault(pr, 0); sources[pr] += w] adds [w] to the sum
    of the values. *)
Lemma sum_values_bump (m : gmap string Qc) k w :
  sum_values (<[k := default 0 (m !! k) + w]> m) = sum_values m + w.
Proof.
  destruct (m !! k) as [x|] eqn:Hk; simpl.
  - rewrite <- (insert_delete_id m k x Hk) at 2.
    rewrite <- insert_delete_eq.
    rewrite !sum_values_insert_fresh by apply lookup_delete_eq. ring.
  - rewrite sum_values_insert_fresh by exact Hk. ring.
Qed.

Lemma total_contribute k w s :
  total (contribute k w (add_total w s)) = total s + inc_total k w.
Proof. destruct k; reflexivity. Qed.

Lemma local_contribute k w s :
  local (contribute k w (add_total w s)) = local s + inc_local k w.
Proof. destruct k; simpl; ring. Qed.

Lemma source_contribute pr k w s :
  default 0 (sources (contribute k w (add_total w s)) !! pr)
  = default 0 (sources s !! pr) + inc_source pr k w.
Proof.
  unfold inc_source. destruct k as [|pr'|]; simpl; try ring.
  destruct (decide (pr' = pr)) as [->|Hne].
  - rewrite lookup_insert_eq, decide_True by reflexivity. reflexivity.
  - rewrite lookup_insert_ne by assumption.
    rewrite decide_False by congruence. ring.
Qed.

Lemma unexplained_contribute k w s :
  unexplained (contribute k w (add_total w s)) = unexplained s + inc_unexplained k w.
Proof.
  unfold unexplained. destruct k as [|pr|]; simpl; try ring.
  rewrite sum_values_bump. ring.
Qed.

Lemma added_cons nd inc r e l :
  added nd inc r (e :: l)
  = (if decide (region_of e.2 = r)
     then match classify nd e.2 with Ok k => inc k (weight e.2) | Raise _ => 0 end
     else 0) + added nd inc r l.
Proof. reflexivity. Qed.

(** One invariant for the four quantities: a completed pass changes the
    measure [φ] of the record of [r] by what the nodes of region [r]
    add to it. *)
Lemma spread_fold_measure nd (φ : region_stats → Qc) (inc : contribution → Qc → Qc) :
  (∀ k w s, φ (contribute k w (add_total w s)) = φ s + inc k w) →
  ∀ l rw rw', foldM (spread_step nd) l rw = Ok rw' →
    ∀ r s', rw' !! r = Some s' →
      ∃ s, rw !! r = Some s ∧ φ s' = φ s + added nd inc r l.
Proof.
  intros Hφ. induction l as [|[n d] l IH]; intros rw rw' Hf r s' Hs'.
  - injection Hf as <-. exists s'. split; [exact Hs'|]. unfold added, sum_list. simpl. ring.
  - cbn [foldM] in Hf. apply bind_Ok in Hf as (rw1 & Hstep & Hrest).
    apply spread_step_Ok in Hstep as (s0 & k & Hs0 & Hk & ->).
    destruct (IH _ _ Hrest r s' Hs') as (s1 & Hs1 & Heq).
    rewrite added_cons. cbn [snd]. rewrite Hk.
    rewrite lookup_insert in Hs1. destruct (decide (region_of d = r)) as [<-|Hne].
    + injection Hs1 as <-. exists s0. split; [exact Hs0|].
      rewrite Heq, Hφ. ring.
    + exists s1. split; [exact Hs1|]. rewrite Heq. ring.
Qed.

Lemma spread_fold_dom nd l rw rw' :
  foldM (spread_step nd) l rw = Ok rw' → dom rw' = dom rw.
Proof.
  revert rw. induction l as [|[n d] l IH]; intros rw Hf.
  - injection Hf as <-. reflexivity.
  - cbn [foldM] in Hf. apply bind_Ok in Hf as (rw1 & Hstep & Hrest).
    apply spread_step_Ok in Hstep as (s0 & k & Hs0 & Hk & ->).
    rewrite (IH _ Hrest), dom_insert_L.
    apply elem_of_dom_2 in Hs0. set_solver.
Qed.

(** The pass completes when every node finds the record of its region
    and its branch. *)
Lemma spread_fold_completes nd l rw :
  (∀ e, e ∈ l → region_of e.2 ∈ dom rw ∧ is_ok (classify nd e.2) = true) →
  ∃ rw', foldM (spread_step nd) l rw = Ok rw'.
Proof.
  revert rw. induction l as [|[n d] l IH]; intros rw Hl; [eexists; reflexivity|].
  destruct (Hl (n, d)) as [Hdom Hk]; [left|]. simpl in Hdom, Hk.
  apply elem_of_dom in Hdom as [s Hs].
  destruct (classify nd d) as [k|] eqn:Hc; [|discriminate].
  cbn [foldM].
  rewrite (proj2 (spread_step_Ok nd rw n d _) (ex_intro _ s (ex_intro _ k
             (conj Hs (conj Hc eq_refl))))). simpl.
  apply IH. intros e He. destruct (Hl e) as [? ?]; [right; exact He|].
  split; [|assumption]. rewrite dom_insert_L. set_solver.
Qed.

Lemma truthy_Some s : s ≠ ""%string → truthy (Some s) = true.
Proof. intros Hs. simpl. rewrite bool_decide_eq_false_2 by assumption. reflexivity. Qed.

Lemma classify_spec nd ann n d :
  fully_annotated nd ann → parents_present nd → (n, d) ∈ nd →
  classify nd d
  = Ok (match parent_region nd d with
        | None => ToNone
        | Some pr => if decide (pr = region_of d) then ToLocal else ToSource pr
        end).
Proof.
  intros Hann Hpar Hin. unfold classify, parent_region.
  destruct (parent d) as [p|] eqn:Hp; [|reflexivity].
  destruct (Hpar n d p Hin Hp) as [Hne Hkey].
  apply od_get_is_Some in Hkey as [pd Hpd]. unfold getitem. rewrite Hpd.
  destruct (Hann _ _ (od_get_elem_of_1 _ _ _ Hpd)) as (pr & Hpr & Hprne & _).
  rewrite (truthy_Some p Hne). simpl.
  unfold getregion. rewrite Hpr. simpl.
  assert (Hrp : region_of pd = pr) by (unfold region_of; rewrite Hpr; reflexivity).
  rewrite Hrp. destruct (decide (pr = region_of d)) as [Heq|Hneq].
  - rewrite bool_decide_eq_true_2 by congruence. reflexivity.
  - rewrite bool_decide_eq_false_2 by congruence.
    rewrite bool_decide_eq_false_2 by assumption. reflexivity.
Qed.


Lemma empty_stats_lookup (X : gset string) r s :
  gset_to_gmap empty_stats X !! r = Some s → s = empty_stats.
Proof. intros Hs. apply lookup_gset_to_gmap_Some in Hs as [_ <-]. reflexivity. Qed.

(** The closed form of the statistics on a node table in which every
    node carries an annotated region of the mapping, every parent has
    a record, and no region or parent name is the empty string. *)
Lemma aggregation_sums_table nd ann :
  fully_annotated nd ann → parents_present nd →
  ∃ stats, calculate_spread_probabilities nd ann = Ok stats
    ∧ dom stats = map_img ann
    ∧ ∀ r s, stats !! r = Some s →
        total s = spec_total nd r
        ∧ local s = spec_local nd r
        ∧ ∀ pr, default 0 (sources s !! pr) = spec_source nd r pr.
Proof.
  intros Hann Hpar. unfold calculate_spread_probabilities.
  destruct (spread_fold_completes nd nd (gset_to_gmap empty_stats (map_img ann)))
    as [stats Hrun].
  { intros [n d] Hin. simpl. split.
    - destruct (Hann n d Hin) as (r & Hr & _ & Himg).
      rewrite dom_gset_to_gmap. unfold region_of. rewrite Hr. exact Himg.
    - rewrite (classify_spec nd ann n d Hann Hpar Hin). reflexivity. }
  exists stats. split; [exact Hrun|]. split.
  { rewrite (spread_fold_dom _ _ _ _ Hrun). apply dom_gset_to_gmap. }
  intros r s Hs. split; [|split; [|intros pr]].
  - destruct (spread_fold_measure nd total inc_total total_contribute
                _ _ _ Hrun r s Hs) as (s0 & Hs0 & ->).
    apply empty_stats_lookup in Hs0 as ->. simpl. rewrite Qcplus_0_l.
    apply sum_list_ext. intros [n d] Hin. simpl.
    rewrite (classify_spec nd ann n d Hann Hpar Hin). reflexivity.
  - destruct (spread_fold_measure nd local inc_local local_contribute
                _ _ _ Hrun r s Hs) as (s0 & Hs0 & ->).
    apply empty_stats_lookup in Hs0 as ->. simpl. rewrite Qcplus_0_l.
    apply sum_list_ext. intros [n d] Hin. simpl.
    rewrite (classify_spec nd ann n d Hann Hpar Hin).
    destruct (decide (region_of d = r)) as [<-|Hne].
    + destruct (parent_region nd d) as [pr|]; simpl.
      * destruct (decide (pr = region_of d)) as [->|Hne].
        -- rewrite decide_True by auto. reflexivity.
        -- rewrite decide_False; [reflexivity|]. intros [_ [= ?]]. contradiction.
      * rewrite decide_False; [reflexivity|]. intros [_ [=]].
    + rewrite decide_False by tauto. reflexivity.
  - destruct (spread_fold_measure nd (λ s, default 0 (sources s !! pr))
                (inc_source pr) (source_contribute pr) _ _ _ Hrun r s Hs)
      as (s0 & Hs0 & ->).
    apply empty_stats_lookup in Hs0 as ->. simpl. rewrite lookup_empty. simpl.
    rewrite Qcplus_0_l.
    apply sum_list_ext. intros [n d] Hin. simpl.
    rewrite (classify_spec nd ann n d Hann Hpar Hin). unfold inc_source.
    destruct (decide (region_of d = r)) as [<-|Hne].
    + destruct (parent_region nd d) as [pr'|]; simpl.
      * destruct (decide (pr' = region_of d)) as [->|Hne].
        -- rewrite decide_False by discriminate.
           rewrite decide_False; [reflexivity|]. intros (_ & [= <-] & ?). contradiction.
        -- destruct (decide (pr' = pr)) as [->|Hne'].
           ++ rewrite decide_True by reflexivity. rewrite decide_True by auto.
              reflexivity.
           ++ rewrite decide_False by congruence.
              rewrite decide_False; [reflexivity|]. intros (_ & [= ?] & _). contradiction.
      * rewrite decide_False; [reflexivity|]. intros (_ & [=] & _).
    + rewrite decide_False by tauto. reflexivity.
Qed.


Lemma truthy_name s : truthy (Some s) = true → s ≠ ""%string.
Proof. simpl. intros Hs ->. discriminate. Qed.

(** What the pass does where the defects of the guards do not show, in
    exact arithmetic: for every weighted tree of unique names in which
    every node has a name that the mapping annotates, no name and no
    annotation being the empty string, the aggregation pass completes;
    the statistics have the regions of the mapping; the total of a
    region is the sum of the weights of its nodes, each counted once;
    its [local] is the sum over its nodes whose parent lies in the same
    region; its [sources[pr]] is the sum over its nodes whose parent
    lies in the other region [pr]; the root, having no parent, is
    counted in the total alone. *)
Theorem aggregation_sums t ann df limit nd' :
  NoDup (names t) → named_tree t → annotates_tree ann t → nonempty_regions ann →
  weighted_table t ann df limit = Ok nd' →
  ∃ stats, calculate_spread_probabilities nd' ann = Ok stats
    ∧ dom stats = map_img ann
    ∧ ∀ r s, stats !! r = Some s →
        total s = spec_total nd' r
        ∧ local s = spec_local nd' r
        ∧ ∀ pr, default 0 (sources s !! pr) = spec_source nd' r pr.
Proof.
  intros Hnames Hnamed Hann Hne Hrun.
  destruct (weighted_table_shape t ann df limit nd' Hnames Hrun)
    as (rd & post & Hnd & Hroot & _ & Hpost & Hreg).
  apply aggregation_sums_table.
  - intros n d Hin. destruct (Hreg n d Hin) as (c & Hc & -> & Hr).
    destruct (Hann c Hc) as (s & Hs & [r Hrs]). rewrite Hs in Hr.
    exists r. split; [congruence|]. split.
    + intros ->. apply (Hne s Hrs).
    + apply elem_of_map_img. eauto.
  - intros n d p Hin Hp. rewrite Hnd in Hin.
    apply elem_of_cons in Hin as [[= -> ->]|Hin]; [congruence|].
    destruct (Hpost n d Hin) as (c & q & _ & Hq & _ & Hpar & Hkey).
    rewrite Hp in Hpar. rewrite <- Hpar in Hkey. split; [|exact Hkey].
    apply truthy_name. rewrite Hpar. apply Hnamed, Hq.
Qed.

(** The scenario of the specification, run from the tree to the
    statistics. *)
Example scenario_statistics :
  Examples.run Examples.scenario_tree Examples.scenario_annotations
    Examples.empty_table 10
  = Ok (Examples.scenario_weighted, Examples.scenario_stats).
Proof. by_eval. Qed.

Lemma scenario_named : named_tree Examples.scenario_tree.
Proof.
  intros c Hc. cbn in Hc.
  repeat (apply elem_of_cons in Hc as [->|Hc]); [..|inversion Hc]; reflexivity.
Qed.

Lemma scenario_annotated :
  annotates_tree Examples.scenario_annotations Examples.scenario_tree.
Proof.
  intros c Hc. cbn in Hc.
  repeat (apply elem_of_cons in Hc as [->|Hc]); [..|inversion Hc];
    (eexists; split; [reflexivity | by_eval]).
Qed.

Lemma scenario_nonempty_regions : nonempty_regions Examples.scenario_annotations.
Proof.
  intros s Hs. apply (elem_of_map_img_2 (SA := gset string)) in Hs.
  revert Hs. by_eval.
Qed.

Lemma scenario_weighted_table :
  weighted_table Examples.scenario_tree Examples.scenario_annotations
    Examples.empty_table 10 = Ok Examples.scenario_weighted.
Proof. by_eval. Qed.

Lemma aggregation_sums_witness :
  ∃ stats,
    calculate_spread_probabilities Examples.scenario_weighted
      Examples.scenario_annotations = Ok stats
    ∧ dom stats = map_img Examples.scenario_annotations
    ∧ ∀ r s, stats !! r = Some s →
        total s = spec_total Examples.scenario_weighted r
        ∧ local s = spec_local Examples.scenario_weighted r
        ∧ ∀ pr, default 0 (sources s !! pr)
                = spec_source Examples.scenario_weighted r pr.
Proof.
  apply (aggregation_sums Examples.scenario_tree Examples.scenario_annotations
           Examples.empty_table 10 Examples.scenario_weighted).
  - by_eval.
  - exact scenario_named.
  - exact scenario_annotated.
  - exact scenario_nonempty_regions.
  - exact scenario_weighted_table.
Defined.

(** C2 (the code departs from the claim).  On the tree [(A)C;] with
    only [A] annotated, the root [C] has the region ["Unknown"], for which the
    pass holds no record: it raises [KeyError] instead of adding the
    weight of [C] to the total of ["Unknown"].  With [C] annotated by the
    empty string the pass completes, but the weight 1 of [A], whose
    parent lies in the other region [""], is missing from [sources[""]]
    of the region of [A].  On the tree [(A)'';], whose root is named by
    the empty string and lies in ["R0"], the weight 1 of [A] is missing
    from [sources["R0"]] of the region of [A]. *)
Lemma aggregation_misses_contributions :
  Examples.run Examples.chain_tree Examples.partial_annotations
    Examples.empty_table 10 = Raise KeyError
  ∧ (∃ stats s,
      Examples.run Examples.chain_tree Examples.blank_annotations
        Examples.empty_table 10 = Ok (Examples.blank_weighted, stats)
      ∧ stats !! "R1"%string = Some s
      ∧ sources s !! ""%string = None
      ∧ spec_source Examples.blank_weighted "R1" "" = 1)
  ∧ (∃ stats s,
      Examples.run Examples.empty_name_tree Examples.empty_name_annotations
        Examples.empty_table 10 = Ok (Examples.empty_name_weighted, stats)
      ∧ stats !! "R1"%string = Some s
      ∧ sources s !! "R0"%string = None
      ∧ spec_source Examples.empty_name_weighted "R1" "R0" = 1).
Proof.
  split; [by_eval|]. split.
  - exists (<["R1"%string := mkStats 1 ∅ 0]> (<[""%string := mkStats 1 ∅ 0]> ∅)),
           (mkStats 1 ∅ 0).
    repeat split; by_eval.
  - exists (<["R1"%string := mkStats 1 ∅ 0]> (<["R0"%string := mkStats 1 ∅ 0]> ∅)),
           (mkStats 1 ∅ 0).
    repeat split; by_eval.
Qed.

(** ** Region conservation *)

Lemma added_app nd inc r l1 l2 :
  added nd inc r (l1 ++ l2) = added nd inc r l1 + added nd inc r l2.
Proof.
  induction l1 as [|e l1 IH].
  - unfold added at 2, sum_list. simpl. ring.
  - rewrite <- app_comm_cons, !added_cons, IH. ring.
Qed.

(** A node with a parent whose region is not the empty string is
    counted in [local] or in [sources] whenever its branch is found. *)
Lemma classify_with_parent nd d :
  truthy (parent d) = true →
  (∀ n' d', (n', d') ∈ nd → region d' ≠ Some ""%string) →
  classify nd d ≠ Ok ToNone.
Proof.
  intros Hp Hreg. unfold classify. rewrite Hp. unfold getitem.
  destruct (od_get (parent d) nd) as [pd|] eqn:Hpd; [|discriminate]. simpl.
  unfold getregion. destruct (region pd) as [pr|] eqn:Hpr; [|discriminate]. simpl.
  destruct (bool_decide (Some pr = Some (region_of d))); [discriminate|].
  rewrite bool_decide_eq_false_2; [discriminate|].
  intros ->. apply (Hreg _ _ (od_get_elem_of_1 _ _ _ Hpd)). exact Hpr.
Qed.

Lemma added_nothing nd r l :
  (∀ n d, (n, d) ∈ l → classify nd d ≠ Ok ToNone) →
  added nd inc_unexplained r l = 0.
Proof.
  induction l as [|[n d] l IH]; intros Hl; [reflexivity|].
  rewrite added_cons, IH by (intros n' d' Hin; apply (Hl n'); right; exact Hin).
  cbn [snd]. specialize (Hl n d ltac:(left)).
  destruct (decide (region_of d = r)); [|ring].
  destruct (classify nd d) as [[| |]|]; simpl; try ring. contradiction.
Qed.

(** Conservation on a node table in which the root is the only node
    without parent and no parent name and no region is the empty
    string. *)
Lemma region_conservation_table nd ann stats pre rt rd post :
  nd = pre ++ (rt, rd) :: post → parent rd = None →
  (∀ n d, (n, d) ∈ pre ++ post → truthy (parent d) = true) →
  (∀ n d, (n, d) ∈ nd → region d ≠ Some ""%string) →
  calculate_spread_probabilities nd ann = Ok stats →
  ∀ r s, stats !! r = Some s →
    total s - local s - sum_values (sources s)
    = if decide (region_of rd = r) then weight rd else 0.
Proof.
  intros Hnd Hroot Hpar Hreg Hrun r s Hs. unfold calculate_spread_probabilities in Hrun.
  destruct (spread_fold_measure nd unexplained inc_unexplained unexplained_contribute
              _ _ _ Hrun r s Hs) as (s0 & Hs0 & Heq).
  apply empty_stats_lookup in Hs0 as ->. fold (unexplained s). rewrite Heq.
  assert (H0 : unexplained empty_stats = 0) by by_eval. rewrite H0.
  rewrite Hnd at 2. rewrite added_app, added_cons. cbn [snd].
  rewrite !added_nothing.
  - assert (Hk : classify nd rd = Ok ToNone)
      by (unfold classify; rewrite Hroot; reflexivity).
    rewrite Hk. simpl. destruct (decide (region_of rd = r)); ring.
  - intros n d Hin. apply classify_with_parent; [|exact Hreg].
    apply (Hpar n). apply elem_of_app. right. exact Hin.
  - intros n d Hin. apply classify_with_parent; [|exact Hreg].
    apply (Hpar n). apply elem_of_app. left. exact Hin.
Qed.


(** Where the defects of the guards do not show, in exact arithmetic:
    for the statistics that the aggregation pass returns on a weighted
    annotated tree of unique names, no name and no annotation being the
    empty string, every record [r] satisfies
    [total - local - Σ sources.values() = weight(root)] if the region of
    the root is [r], and [= 0] otherwise. *)
Theorem region_conservation t ann df limit nd' stats :
  NoDup (names t) → named_tree t → nonempty_regions ann →
  weighted_table t ann df limit = Ok nd' →
  calculate_spread_probabilities nd' ann = Ok stats →
  ∀ r s, stats !! r = Some s →
    total s - local s - sum_values (sources s)
    = if decide (region_for ann (name t) = r) then weight_in nd' (name t) else 0.
Proof.
  intros Hnames Hnamed Hne Hrun Hstats r s Hs.
  destruct (weighted_table_shape t ann df limit nd' Hnames Hrun)
    as (rd & post & Hnd & Hroot & Hrr & Hpost & Hreg).
  assert (Hpar : ∀ n d, (n, d) ∈ [] ++ post → truthy (parent d) = true).
  { intros n d Hin. destruct (Hpost n d Hin) as (c & p & _ & Hp & _ & -> & _).
    apply Hnamed, Hp. }
  assert (Hregs : ∀ n d, (n, d) ∈ nd' → region d ≠ Some ""%string).
  { intros n d Hin. destruct (Hreg n d Hin) as (c & _ & _ & ->).
    destruct n as [x|]; [apply Hne | discriminate]. }
  rewrite (region_conservation_table nd' ann stats [] (name t) rd post
             Hnd Hroot Hpar Hregs Hstats r s Hs).
  rewrite Hrr. unfold weight_in. rewrite Hnd. simpl.
  destruct (decide (name t = name t)); [reflexivity | contradiction].
Qed.

Lemma region_conservation_witness :
  calculate_spread_probabilities Examples.scenario_weighted
    Examples.scenario_annotations = Ok Examples.scenario_stats
  ∧ Qc_of_Z 3 - 1 - sum_values ∅
    = if decide (region_for Examples.scenario_annotations
                   (name Examples.scenario_tree) = "Region1"%string)
      then weight_in Examples.scenario_weighted (name Examples.scenario_tree)
      else 0.
Proof.
  assert (Hrun : calculate_spread_probabilities Examples.scenario_weighted
                   Examples.scenario_annotations = Ok Examples.scenario_stats)
    by by_eval.
  split; [exact Hrun|].
  apply (region_conservation Examples.scenario_tree Examples.scenario_annotations
           Examples.empty_table 10 Examples.scenario_weighted Examples.scenario_stats)
    with (r := "Region1"%string) (s := mkStats (Qc_of_Z 3) ∅ 1).
  - by_eval.
  - exact scenario_named.
  - exact scenario_nonempty_regions.
  - exact scenario_weighted_table.
  - exact Hrun.
  - by_eval.
Defined.

(** C3 (the code departs from the claim).  On the tree [(A)C;] with [C]
    annotated by the empty string and [A] by ["R1"], the statistics are
    produced, the root [C] does not lie in ["R1"], and yet
    [total - local - Σ sources.values()] of ["R1"] is 1, not 0.  The
    same holds on the tree [(A)'';] whose root, named by the empty
    string, lies in ["R0"]. *)
Lemma conservation_fails_on_empty_label :
  (∃ stats s,
    Examples.run Examples.chain_tree Examples.blank_annotations
      Examples.empty_table 10 = Ok (Examples.blank_weighted, stats)
    ∧ find_root Examples.blank_weighted = Ok (Some "C"%string)
    ∧ region_of <$> od_get (Some "C"%string) Examples.blank_weighted = Some ""%string
    ∧ stats !! "R1"%string = Some s
    ∧ total s - local s - sum_values (sources s) = 1)
  ∧ (∃ stats s,
    Examples.run Examples.empty_name_tree Examples.empty_name_annotations
      Examples.empty_table 10 = Ok (Examples.empty_name_weighted, stats)
    ∧ find_root Examples.empty_name_weighted = Ok (Some ""%string)
    ∧ region_of <$> od_get (Some ""%string) Examples.empty_name_weighted
      = Some "R0"%string
    ∧ stats !! "R1"%string = Some s
    ∧ total s - local s - sum_values (sources s) = 1).
Proof.
  split.
  - exists (<["R1"%string := mkStats 1 ∅ 0]> (<[""%string := mkStats 1 ∅ 0]> ∅)),
           (mkStats 1 ∅ 0).
    repeat split; by_eval.
  - exists (<["R1"%string := mkStats 1 ∅ 0]> (<["R0"%string := mkStats 1 ∅ 0]> ∅)),
           (mkStats 1 ∅ 0).
    repeat split; by_eval.
Qed.

(** The same defect on a tree whose root has no name, as Newick allows.
    On [(A,B);] with [A] in ["R1"] and [B] in ["Unknown"] the root lies
    in ["Unknown"], and yet [total - local - Σ sources.values()] of
    ["R1"] is 1: the parent of [A] is the name [None] of the root, which
    the guard [if data['parent']] reads as no parent. *)
Lemma conservation_fails_under_unnamed_root :
  ∃ nd stats s,
    Examples.run Examples.unnamed_root_tree Examples.unnamed_root_annotations
      Examples.empty_table 10 = Ok (nd, stats)
    ∧ find_root nd = Ok None
    ∧ region_of <$> od_get None nd = Some "Unknown"%string
    ∧ stats !! "R1"%string = Some s
    ∧ total s - local s - sum_values (sources s) = 1.
Proof.
  exists [(None, mkNode [Some "A"%string; Some "B"%string] None 2 None);
          (Some "A"%string, mkNode [] None 1 (Some "R1"%string));
          (Some "B"%string, mkNode [] None 1 (Some "Unknown"%string))],
         (<["R1"%string := mkStats 1 ∅ 0]>
            (<["Unknown"%string := mkStats (Qc_of_Z 3) ∅ 0]> ∅)),
         (mkStats 1 ∅ 0).
  repeat split; by_eval.
Qed.

(** ** The extraction utility *)

(** On a tree line whose node tokens all carry a state, one line per
    node is printed, followed by a line for the closing [;]. *)
Example parse_nex_annotated_line :
  ParseNexus.parse_nex ["#NEXUS"; "Begin Trees;"; Examples.annotated_line; "End;"]%string
    ParseNexus.blank_default
  = [ "A" ++ ParseNexus.tab ++ "R1"; "B" ++ ParseNexus.tab ++ "R2";
      "C" ++ ParseNexus.tab ++ "R1"; ";" ++ ParseNexus.tab ++ "Unknown" ]%string.
Proof. reflexivity. Qed.

(** C9 (the code departs from the claim): in the line
    [Tree tree1=(A:0.1,B:0.2[&state=R2])C:0.3[&state=R1];] the token
    [A:0.1] carries no state and the token [B:0.2[&state=R2]] carries
    the state [R2].  The utility prints [A<TAB>R2]: neither
    [A<TAB>Unknown] nor [B<TAB>R2] is among the printed lines. *)
Theorem parse_nex_merges_unannotated_token :
  ParseNexus.parse_nex [Examples.partly_annotated_line] ParseNexus.blank_default
  = [ "A" ++ ParseNexus.tab ++ "R2"; "C" ++ ParseNexus.tab ++ "R1";
      ";" ++ ParseNexus.tab ++ "Unknown" ]%string
  ∧ (("A" ++ ParseNexus.tab ++ "Unknown")%string
      ∉ ParseNexus.parse_nex [Examples.partly_annotated_line] ParseNexus.blank_default)
  ∧ (("B" ++ ParseNexus.tab ++ "R2")%string
      ∉ ParseNexus.parse_nex [Examples.partly_annotated_line] ParseNexus.blank_default).
Proof. repeat split; by_eval. Qed.

(** * Further properties of the code *)

(** ** The confidence lookup *)

Lemma lookup_raises_on_loaded_table_witness :
  get_confidence_by_name_and_region Examples.small_table None "R1" = Raise KeyError.
Proof.
  apply (lookup_raises_on_loaded_table Examples.small_table None "R1").
  - intros l Hl. unfold Examples.small_table in Hl. simpl in Hl.
    repeat (apply elem_of_cons in Hl as [->|Hl]); [eauto..|inversion Hl].
  - by_eval.
Defined.

Lemma get_loc_elem l cols i : get_loc l cols = Ok i → l ∈ cols.
Proof.
  revert i. induction cols as [|l' cols IH]; intros i; simpl; [discriminate|].
  destruct (decide (l = l')) as [->|Hne]; [left|].
  intros Hi. destruct (get_loc l cols) as [i'|]; [|discriminate].
  right. eauto.
Qed.

(** X2: When the table has a column labelled by the integer 0, the lookup
    reads the first row whose cell in that column is the node name, and
    returns the number that this row holds in the column of the region;
    later rows of the same name are not looked at. *)
Theorem lookup_first_matching_row df name region key j pre r post q :
  get_loc (LInt 0) (columns df) = Ok key →
  get_loc (LStr region) (columns df) = Ok j →
  rows df = pre ++ r :: post →
  (∀ r', r' ∈ pre → cell_is_name name (r' !! key) = false) →
  cell_is_name name (r !! key) = true →
  r !! j = Some (CNum q) →
  get_confidence_by_name_and_region df name region = Ok q.
Proof.
  intros Hkey Hj Hrows Hpre Hr Hq. unfold get_confidence_by_name_and_region.
  rewrite bool_decide_eq_true_2 by (eapply get_loc_elem; eauto).
  cbn [negb]. rewrite Hkey. simpl. rewrite Hrows.
  assert (Hf : filter (λ r0, cell_is_name name (r0 !! key) = true) (pre ++ r :: post)
               = r :: filter (λ r0, cell_is_name name (r0 !! key) = true) post).
  { rewrite filter_app, filter_cons_True by exact Hr.
    assert (filter (λ r0, cell_is_name name (r0 !! key) = true) pre = []) as ->;
      [|reflexivity].
    clear Hrows. induction pre as [|x pre IH]; [reflexivity|].
    rewrite filter_cons_False.
    - apply IH. intros r' Hin. apply Hpre. right. exact Hin.
    - rewrite (Hpre x) by left. discriminate. }
  rewrite Hf, Hj. cbn [mbind result_bind]. rewrite Hq. reflexivity.
Qed.

Lemma lookup_first_matching_row_witness :
  get_confidence_by_name_and_region Examples.keyed_table (Some "A"%string) "R1"
  = Ok (Q2Qc (1 # 2)).
Proof.
  apply (lookup_first_matching_row Examples.keyed_table (Some "A"%string) "R1"
           0%nat 1%nat [[CStr "B"%string; CNum 0]]
           [CStr "A"%string; CNum (Q2Qc (1 # 2))] [[CStr "A"%string; CNum 1]]).
  - reflexivity.
  - reflexivity.
  - reflexivity.
  - intros r' Hin. apply list_elem_of_singleton in Hin as ->. reflexivity.
  - reflexivity.
  - reflexivity.
Defined.

(** X3: When the table has a column labelled by the integer 0 and the region
    is a column, a node name that no row carries in that column gets the
    default 1; so does every unnamed node. *)
Theorem lookup_missing_row_default df name region key :
  LStr region ∈ columns df →
  get_loc (LInt 0) (columns df) = Ok key →
  (name = None ∨ ∀ r, r ∈ rows df → cell_is_name name (r !! key) = false) →
  get_confidence_by_name_and_region df name region = Ok 1.
Proof.
  intros Hreg Hkey Hrows. unfold get_confidence_by_name_and_region.
  rewrite bool_decide_eq_true_2 by exact Hreg. cbn [negb]. rewrite Hkey. simpl.
  assert (Hnone : ∀ r, r ∈ rows df → cell_is_name name (r !! key) = false).
  { destruct Hrows as [->|Hrows]; [|exact Hrows].
    intros r _. destruct (r !! key) as [[]|]; reflexivity. }
  assert (filter (λ r0, cell_is_name name (r0 !! key) = true) (rows df) = []) as ->;
    [|reflexivity].
  clear Hrows. revert Hnone. generalize (rows df) as l.
  induction l as [|x l IH]; intros Hnone; [reflexivity|].
  rewrite filter_cons_False.
  - apply IH. intros r Hin. apply Hnone. right. exact Hin.
  - rewrite (Hnone x) by left. discriminate.
Qed.

Lemma lookup_missing_row_default_witness :
  get_confidence_by_name_and_region Examples.keyed_table (Some "C"%string) "R1" = Ok 1
  ∧ get_confidence_by_name_and_region Examples.keyed_table None "R1" = Ok 1.
Proof.
  split.
  - apply (lookup_missing_row_default Examples.keyed_table (Some "C"%string) "R1" 0%nat).
    + by_eval.
    + reflexivity.
    + right. intros r Hin. unfold Examples.keyed_table in Hin. simpl in Hin.
      repeat (apply elem_of_cons in Hin as [->|Hin]); [..|inversion Hin]; reflexivity.
  - apply (lookup_missing_row_default Examples.keyed_table None "R1" 0%nat).
    + by_eval.
    + reflexivity.
    + left. reflexivity.
Defined.

(** ** The node table *)

Lemma parent_of_edges_cases k es p0 :
  (parent_of_edges k es p0 = p0 ∧ ∀ e, e ∈ es → e.2 ≠ k)
  ∨ (parent_of_edges k es p0, k) ∈ es.
Proof.
  unfold parent_of_edges. revert p0. induction es as [|[q k'] es IH]; intros p0.
  - left. split; [reflexivity|]. intros e He. inversion He.
  - cbn [fold_left fst snd]. destruct (decide (k' = k)) as [->|Hne].
    + right. destruct (IH q) as [[-> _]|Hin]; [left | right; exact Hin].
    + destruct (IH p0) as [[Heq Hall]|Hin].
      * left. split; [exact Heq|]. intros e He.
        apply elem_of_cons in He as [->|He]; [exact Hne | apply Hall, He].
      * right. right. exact Hin.
Qed.

Lemma table_head t nd :
  create_node_dict t = Ok nd → ∃ d rest, nd = (name t, d) :: rest.
Proof.
  intros Hnd. destruct (create_node_dict_spec t) as (nd' & Hok & Hkeys & _).
  rewrite Hnd in Hok. injection Hok as <-.
  rewrite find_clades_unfold in Hkeys. simpl in Hkeys.
  destruct (init_nodes_prefix (flat_map find_clades (clades t))
              [(name t, fresh_node)]) as [l Hl].
  unfold init_nodes in *. rewrite Hl in Hkeys.
  destruct nd as [|[k d] rest]; [discriminate|].
  injection Hkeys as -> _. eauto.
Qed.

(** X4: For every tree, unique names or not: a node that names a position
    below the root is listed among the children of the node that its
    record names as parent. *)
Theorem child_listed_by_parent t nd k d :
  create_node_dict t = Ok nd → od_get k nd = Some d →
  k ∈ flat_map names (clades t) →
  ∃ pd, od_get (parent d) nd = Some pd ∧ k ∈ children pd.
Proof.
  intros Hnd Hd Hk. destruct (create_node_dict_spec t) as (nd' & Hok & _ & Hget).
  rewrite Hnd in Hok. injection Hok as <-.
  assert (Hkn : k ∈ names t) by (rewrite names_unfold; right; exact Hk).
  rewrite (Hget k Hkn) in Hd. injection Hd as <-. cbn [parent].
  rewrite <- edge_children_perm in Hk.
  apply list_elem_of_fmap in Hk as ([q k'] & -> & He). cbn [snd] in *.
  destruct (parent_of_edges_cases k' (edges t) None) as [[_ Hall]|Hin].
  { exfalso. apply (Hall _ He). reflexivity. }
  pose proof (edges_endpoints t _ _ Hin) as [Hq _].
  rewrite (Hget _ Hq). eexists. split; [reflexivity|]. cbn [children].
  unfold children_of_edges. apply list_elem_of_fmap.
  exists (parent_of_edges k' (edges t) None, k'). split; [reflexivity|].
  apply list_elem_of_filter. split; [reflexivity | exact Hin].
Qed.

Lemma child_listed_by_parent_witness :
  ∃ pd, od_get (parent (mkNode [] (Some "C"%string) 0 None))
          [(Some "C"%string, mkNode [Some "A"%string; Some "A"%string] None 0 None);
           (Some "A"%string, mkNode [] (Some "C"%string) 0 None)] = Some pd
        ∧ Some "A"%string ∈ children pd.
Proof.
  apply (child_listed_by_parent Examples.duplicate_tree _ (Some "A"%string)).
  - by_eval.
  - reflexivity.
  - by_eval.
Defined.

(** X5: For every tree whose root name is not reused below the root, the
    root search on the table built for the tree returns the name of the
    root. *)
Theorem root_of_built_table t nd :
  create_node_dict t = Ok nd →
  name t ∉ flat_map names (clades t) →
  find_root nd = Ok (name t).
Proof.
  intros Hnd Hroot. destruct (table_head t nd Hnd) as (d & rest & ->).
  destruct (create_node_dict_spec t) as (nd' & Hok & _ & Hget).
  rewrite Hnd in Hok. injection Hok as <-.
  specialize (Hget (name t) (elem_of_names t t (find_clades_self t))).
  simpl in Hget. rewrite decide_True in Hget by reflexivity. injection Hget as ->.
  simpl. rewrite parent_of_edges_untouched; [rewrite decide_True; reflexivity|].
  intros [p ch] Hin. simpl. intros ->. apply Hroot.
  apply edges_child_below in Hin. rewrite fmap_flat_map in Hin. exact Hin.
Qed.

Lemma root_of_built_table_witness :
  find_root [(Some "C"%string, mkNode [Some "A"%string; Some "A"%string] None 0 None);
             (Some "A"%string, mkNode [] (Some "C"%string) 0 None)]
  = Ok (name Examples.duplicate_tree).
Proof.
  apply (root_of_built_table Examples.duplicate_tree); by_eval.
Defined.

(** X6: For every tree with unique names the table is the tree: the keys are
    the names in preorder; every record lists the names of the children
    of its position, has weight 0 and no region; the root has a null
    parent and every other record names the parent of its position. *)
Theorem node_table_of_tree t :
  NoDup (names t) →
  ∃ nd, create_node_dict t = Ok nd
    ∧ od_keys nd = names t
    ∧ (∀ c, c ∈ find_clades t →
         ∃ d, od_get (name c) nd = Some d
              ∧ children d = name <$> clades c ∧ weight d = 0 ∧ region d = None)
    ∧ (∃ d, od_get (name t) nd = Some d ∧ parent d = None)
    ∧ (∀ p c, p ∈ find_clades t → c ∈ clades p →
         ∃ d, od_get (name c) nd = Some d ∧ parent d = name p).
Proof.
  intros Hnames. destruct (create_node_dict_spec t) as (nd & Hok & _ & Hget).
  exists nd. split; [exact Hok|]. split; [apply names_keys; assumption|].
  split; [|split].
  - intros c Hc. rewrite (Hget _ (elem_of_names t c Hc)). eexists.
    split; [reflexivity|]. cbn. split; [|auto].
    apply table_children_exact; assumption.
  - rewrite (Hget _ (elem_of_names t t (find_clades_self t))). eexists.
    split; [reflexivity|]. apply root_parent, Hnames.
  - intros p c Hp Hc.
    rewrite (Hget _ (elem_of_names t c (find_clades_child t p c Hp Hc))).
    eexists. split; [reflexivity|]. cbn [parent].
    apply parent_of_edges_unique; [apply edge_children_NoDup, Hnames|].
    unfold edges. apply elem_of_flat_map. exists p. split; [exact Hp|].
    unfold clade_edges. apply list_elem_of_fmap. exists c. auto.
Qed.

Lemma node_table_of_tree_witness :
  ∃ nd, create_node_dict Examples.scenario_tree = Ok nd
    ∧ od_keys nd = names Examples.scenario_tree
    ∧ (∀ c, c ∈ find_clades Examples.scenario_tree →
         ∃ d, od_get (name c) nd = Some d
              ∧ children d = name <$> clades c ∧ weight d = 0 ∧ region d = None)
    ∧ (∃ d, od_get (name Examples.scenario_tree) nd = Some d ∧ parent d = None)
    ∧ (∀ p c, p ∈ find_clades Examples.scenario_tree → c ∈ clades p →
         ∃ d, od_get (name c) nd = Some d ∧ parent d = name p).
Proof. apply (node_table_of_tree Examples.scenario_tree). by_eval. Defined.

(** ** [assign_geography] *)

(** X7: [assign_geography] adds no key and keeps the order; it writes the
    region of every node the mapping names and leaves every other field,
    and every node the mapping does not name, as they were.  Names of
    the mapping without a record are ignored. *)
Theorem assign_geography_effect (nd : node_dict) ann :
  NoDup (od_keys nd) →
  od_keys (assign_geography nd ann) = od_keys nd
  ∧ ∀ k d, od_get k nd = Some d →
      ∃ d', od_get k (assign_geography nd ann) = Some d'
            ∧ children d' = children d ∧ parent d' = parent d ∧ weight d' = weight d
            ∧ region d' = match k with
                          | Some s => match ann !! s with
                                      | Some r => Some r
                                      | None => region d
                                      end
                          | None => region d
                          end.
Proof.
  intros Hnd. rewrite assign_geography_spec by exact Hnd. split.
  - apply od_keys_fmap_values.
  - intros k d Hd. rewrite od_get_fmap_values, Hd. eexists. split; [reflexivity|].
    rewrite annotated_children, annotated_parent.
    destruct k as [s|]; simpl; [|auto]. destruct (ann !! s); auto.
Qed.

Lemma assign_geography_effect_witness :
  od_keys (assign_geography Examples.three_roots_table Examples.scenario_annotations)
  = od_keys Examples.three_roots_table
  ∧ ∀ k d, od_get k Examples.three_roots_table = Some d →
      ∃ d', od_get k (assign_geography Examples.three_roots_table
                        Examples.scenario_annotations) = Some d'
            ∧ children d' = children d ∧ parent d' = parent d ∧ weight d' = weight d
            ∧ region d' = match k with
                          | Some s => match Examples.scenario_annotations !! s with
                                      | Some r => Some r
                                      | None => region d
                                      end
                          | None => region d
                          end.
Proof.
  apply (assign_geography_effect Examples.three_roots_table
           Examples.scenario_annotations).
  by_eval.
Defined.

Lemma assign_geography_keys (nd : node_dict) ann :
  NoDup (od_keys nd) → NoDup (od_keys (assign_geography nd ann)).
Proof.
  intros Hnd. rewrite assign_geography_spec by exact Hnd.
  rewrite od_keys_fmap_values. exact Hnd.
Qed.

(** X8: Annotating twice is annotating once with the two mappings merged,
    the later mapping taking precedence; in particular, annotating again
    with the same mapping changes nothing. *)
Theorem assign_geography_twice (nd : node_dict) (a1 a2 : gmap string string) :
  NoDup (od_keys nd) →
  assign_geography (assign_geography nd a1) a2 = assign_geography nd (a2 ∪ a1).
Proof.
  intros Hnd.
  rewrite (assign_geography_spec (assign_geography nd a1))
    by (apply assign_geography_keys, Hnd).
  rewrite !assign_geography_spec by exact Hnd.
  rewrite <- list_fmap_compose. apply Forall_fmap_ext_1, Forall_forall.
  intros [k d] _. cbn. f_equal. destruct k as [s|]; [|reflexivity]. cbn.
  rewrite lookup_union. destruct (a2 !! s) as [r2|], (a1 !! s) as [r1|]; reflexivity.
Qed.

Lemma assign_geography_twice_witness :
  assign_geography
    (assign_geography Examples.three_roots_table Examples.partial_annotations)
    Examples.scenario_annotations
  = assign_geography Examples.three_roots_table
      (Examples.scenario_annotations ∪ Examples.partial_annotations).
Proof.
  apply (assign_geography_twice Examples.three_roots_table). by_eval.
Defined.

(** ** [calculate_weights] *)

(** X9: A completed weight computation adds and removes no node, keeps the
    order of the table, and changes no field but the weight. *)
Theorem calculate_weights_frame nd df limit nd' :
  calculate_weights nd df limit = Ok nd' →
  od_keys nd' = od_keys nd
  ∧ ∀ k d', od_get k nd' = Some d' →
      ∃ d, od_get k nd = Some d
           ∧ children d' = children d ∧ parent d' = parent d ∧ region d' = region d.
Proof.
  intros Hrun. apply calculate_weights_spec in Hrun
    as (_ & _ & W & _ & _ & _ & Hkeys & Hget & _).
  split; [exact Hkeys|]. intros k d' Hd'. rewrite Hget in Hd'.
  destruct (od_get k nd) as [d|]; [|discriminate]. injection Hd' as <-.
  exists d. auto.
Qed.

Lemma calculate_weights_frame_witness :
  od_keys Examples.scenario_weighted = od_keys Examples.scenario_table
  ∧ ∀ k d', od_get k Examples.scenario_weighted = Some d' →
      ∃ d, od_get k Examples.scenario_table = Some d
           ∧ children d' = children d ∧ parent d' = parent d ∧ region d' = region d.
Proof.
  apply (calculate_weights_frame Examples.scenario_table Examples.empty_table 10).
  by_eval.
Defined.

Lemma od_ext (a b : node_dict) :
  od_keys a = od_keys b → NoDup (od_keys a) →
  (∀ k, od_get k a = od_get k b) → a = b.
Proof.
  unfold od_keys. revert b. induction a as [|[k v] a IH]; intros [|[k' v'] b];
    try discriminate; [reflexivity|].
  rewrite !fmap_cons. cbn [fst]. intros [= <- Hk] Hnd Hget.
  apply NoDup_cons in Hnd as [Hn Hnd].
  pose proof (Hget k) as Hk0. simpl in Hk0. rewrite !decide_True in Hk0 by reflexivity.
  injection Hk0 as <-. f_equal. apply IH; [exact Hk | exact Hnd |].
  intros k0. specialize (Hget k0). simpl in Hget.
  destruct (decide (k0 = k)) as [->|Hne]; [|exact Hget].
  assert (Ha : od_get k a = None) by (apply od_get_None; exact Hn).
  assert (Hb : od_get k b = None) by (apply od_get_None; unfold od_keys; rewrite <- Hk; exact Hn).
  congruence.
Qed.

Lemma foldM_ext {A B} (f g : B → A → result B) l b :
  (∀ b a, f b a = g b a) → foldM f l b = foldM g l b.
Proof.
  intros Hfg. revert b. induction l as [|a l IH]; intros b; simpl; [reflexivity|].
  rewrite Hfg. destruct (g b a); simpl; auto.
Qed.

(** The recursion reads the children and the region of a record, never
    its weight. *)
Lemma assign_weight_ext (nd1 nd2 : node_dict) df limit :
  (∀ k, (λ d, (children d, region d)) <$> od_get k nd2
        = (λ d, (children d, region d)) <$> od_get k nd1) →
  ∀ n W, assign_weight nd2 df limit n W = assign_weight nd1 df limit n W.
Proof.
  intros Hsame. induction limit as [|limit IH]; intros n W; [reflexivity|].
  cbn [assign_weight]. unfold getitem. specialize (Hsame n).
  destruct (od_get n nd2) as [d2|], (od_get n nd1) as [d1|]; try discriminate;
    [|reflexivity].
  injection Hsame as Hch Hreg. cbn [mbind result_bind].
  unfold region_of. rewrite Hreg, Hch.
  destruct (get_confidence_by_name_and_region df n (default "Unknown"%string (region d1)))
    as [c|]; [|reflexivity].
  cbn [mbind result_bind]. destruct (children d1) as [|ch cs]; [reflexivity|].
  unfold sum_children.
  rewrite (foldM_ext (sum_step (assign_weight nd2 df limit) c)
                     (sum_step (assign_weight nd1 df limit) c)); [reflexivity|].
  intros [a W0] x. unfold sum_step. rewrite IH. reflexivity.
Qed.

Lemma copy_weights_defined (W : gmap pyname Qc) ks (nd nd' : node_dict) :
  foldM (λ nd node,
           w ← getweight W node;
           d ← getitem node nd;
           Ok (od_set node (set_weight w d) nd)) ks nd = Ok nd' →
  ∀ k, k ∈ ks → is_Some (W !! k).
Proof.
  revert nd. induction ks as [|k0 ks IH]; intros nd Hf k Hk; [inversion Hk|].
  cbn [foldM] in Hf. apply bind_Ok in Hf as (nd1 & Hstep & Hrest).
  apply bind_Ok in Hstep as (w & Hw & _).
  apply elem_of_cons in Hk as [->|Hk]; [|eapply IH; eauto].
  unfold getweight in Hw. destruct (W !! k0); [eauto | discriminate].
Qed.

(** X10: On a node table with one entry per key, the weight computation is
    idempotent: run on the table it returned, it returns that table
    again.  The weights found in the input are never read. *)
Theorem calculate_weights_idempotent nd df limit nd' :
  NoDup (od_keys nd) →
  calculate_weights nd df limit = Ok nd' →
  calculate_weights nd' df limit = Ok nd'.
Proof.
  intros Hnd Hrun. unfold calculate_weights in Hrun.
  apply bind_Ok in Hrun as (root & Hroot & Hrun).
  apply bind_Ok in Hrun as ([w W] & Haw & Hcopy).
  pose proof (copy_weights_defined _ _ _ _ Hcopy) as HW.
  apply copy_weights_spec in Hcopy as [Hkeys Hget].
  assert (Hget' : ∀ k, od_get k nd' = set_weight (default 0 (W !! k)) <$> od_get k nd).
  { intros k. rewrite Hget. destruct (od_get k nd) as [d|] eqn:Hd; [|reflexivity].
    simpl. rewrite decide_True; [reflexivity|]. apply od_get_is_Some. eauto. }
  assert (Hlist : nd' = (λ e, (e.1, set_weight (default 0 (W !! e.1)) e.2)) <$> nd).
  { apply od_ext.
    - rewrite (od_keys_fmap_values (λ k, set_weight (default 0 (W !! k)))). exact Hkeys.
    - rewrite Hkeys. exact Hnd.
    - intros k. rewrite (od_get_fmap_values (λ k, set_weight (default 0 (W !! k)))).
      apply Hget'. }
  unfold calculate_weights.
  assert (find_root nd' = Ok root) as ->.
  { rewrite Hlist.
    rewrite (find_root_fmap_values (λ k, set_weight (default 0 (W !! k))));
      [exact Hroot | reflexivity]. }
  cbn [mbind result_bind]. rewrite Hkeys.
  rewrite (assign_weight_ext nd nd'), Haw.
  2:{ intros k. rewrite Hget'. destruct (od_get k nd); reflexivity. }
  cbn [mbind result_bind].
  destruct (copy_weights_completes W (od_keys nd) nd') as [nd'' Hcopy'].
  { intros k Hk. split; [apply HW, Hk | rewrite Hkeys; exact Hk]. }
  rewrite Hcopy'. f_equal.
  apply copy_weights_spec in Hcopy' as [Hkeys' Hget''].
  apply od_ext; [exact Hkeys' | rewrite Hkeys', Hkeys; exact Hnd |].
  intros k. rewrite Hget'', Hget. destruct (od_get k nd) as [d|]; [|reflexivity].
  simpl. destruct (decide (k ∈ od_keys nd)); reflexivity.
Qed.

Lemma calculate_weights_idempotent_witness :
  calculate_weights Examples.scenario_weighted Examples.empty_table 10
  = Ok Examples.scenario_weighted.
Proof.
  apply (calculate_weights_idempotent Examples.scenario_table); by_eval.
Defined.

(** X11: On every tree of unique names whose confidence lookups return,
    the weight computation terminates: there is a depth of nested calls
    such that build, annotation and weighting return a table whenever
    the interpreter admits that depth or more. *)
Theorem weighted_table_completes t ann df :
  NoDup (names t) →
  (∀ c, c ∈ find_clades t →
        is_ok (get_confidence_by_name_and_region df (name c)
                 (region_for ann (name c))) = true) →
  ∃ depth, ∀ limit, (depth ≤ limit)%nat →
    ∃ nd', weighted_table t ann df limit = Ok nd'.
Proof.
  intros Hnames Hconf. exists (height t). intros limit Hlim.
  apply weighted_table_completes_within; assumption.
Qed.

Lemma weighted_table_completes_witness :
  ∃ depth, ∀ limit, (depth ≤ limit)%nat →
    ∃ nd', weighted_table Examples.scenario_tree Examples.scenario_annotations
             Examples.empty_table limit = Ok nd'.
Proof.
  apply weighted_table_completes.
  - by_eval.
  - intros c Hc. cbn in Hc.
    repeat (apply elem_of_cons in Hc as [->|Hc]); [..|inversion Hc]; reflexivity.
Defined.

Lemma tall_child (cs : list Clade) l :
  (l < foldr (λ ch h, Nat.max (height ch) h) 0%nat cs)%nat →
  ∃ ch, ch ∈ cs ∧ (l < height ch)%nat.
Proof.
  induction cs as [|c cs IH]; simpl; [lia|]. intros Hl.
  destruct (Nat.max_spec (height c) (foldr (λ ch h, Nat.max (height ch) h) 0%nat cs))
    as [[_ Hm]|[_ Hm]]; rewrite Hm in Hl.
  - destruct (IH Hl) as (ch & Hch & Hh). exists ch. split; [right|]; assumption.
  - exists c. split; [left | exact Hl].
Qed.

(** On the table of a tree with unique names whose lookups return, the
    recursion raises [RecursionError] at every position whose subtree is
    higher than the recursion limit. *)
Lemma assign_weight_too_deep t ann df nd :
  NoDup (names t) → create_node_dict t = Ok nd →
  (∀ c, c ∈ find_clades t →
        is_ok (get_confidence_by_name_and_region df (name c)
                 (region_for ann (name c))) = true) →
  ∀ c, c ∈ find_clades t →
    ∀ limit W, (limit < height c)%nat →
      assign_weight (assign_geography nd ann) df limit (name c) W = Raise RecursionError.
Proof.
  intros Hnames Hnd Hconf.
  induction c as [n cs IH] using Clade_ind'. intros Hc limit W Hlim.
  destruct limit as [|limit]; [reflexivity|].
  cbn [assign_weight]. unfold getitem.
  rewrite (table_record t ann nd _ Hnd (elem_of_names t _ Hc)). simpl.
  rewrite annotated_region by reflexivity.
  specialize (Hconf _ Hc) as Hc1. simpl in Hc1.
  destruct (get_confidence_by_name_and_region df n (region_for ann n))
    as [conf|] eqn:Hcf; [|discriminate]. simpl.
  rewrite annotated_children. cbn [children].
  pose proof (table_children_exact t _ Hnames Hc) as Hce. simpl in Hce.
  rewrite Hce. clear Hce.
  simpl in Hlim. apply Nat.succ_lt_mono in Hlim. apply tall_child in Hlim.
  assert (Hfold : ∀ l a W0, (∀ ch, ch ∈ l → ch ∈ cs) →
    (∃ ch, ch ∈ l ∧ (limit < height ch)%nat) →
    foldM (sum_step (assign_weight (assign_geography nd ann) df limit) conf)
          (name <$> l) (a, W0) = Raise RecursionError).
  { induction l as [|x l IHl]; intros a W0 Hl (ch & Hch & Hh); [inversion Hch|].
    rewrite fmap_cons. cbn [foldM]. rewrite sum_step_eq.
    assert (Hx : x ∈ cs) by (apply Hl; left).
    pose proof (find_clades_child t _ x Hc Hx) as Hxt.
    destruct (decide (limit < height x)%nat) as [Hdeep|Hok].
    - rewrite Forall_forall in IH. rewrite (IH x Hx Hxt limit W0 Hdeep). reflexivity.
    - pose proof (assign_weight_completes t ann df nd Hnames Hnd Hconf x Hxt limit W0
                    ltac:(lia)) as Hrun.
      destruct (assign_weight (assign_geography nd ann) df limit (name x) W0)
        as [[w Wx]|]; [|discriminate].
      cbn [mbind result_bind]. apply IHl.
      + intros c' Hc'. apply Hl. right. exact Hc'.
      + apply elem_of_cons in Hch as [->|Hch]; [contradiction|]. eauto. }
  destruct cs as [|c0 cs'].
  { destruct Hlim as (ch & Hch & _). inversion Hch. }
  rewrite fmap_cons. unfold sum_children. rewrite <- fmap_cons.
  rewrite (Hfold (c0 :: cs') 0 W (λ _ H, H) Hlim). reflexivity.
Qed.

(** X12: On a tree with unique names whose lookups return, the weight
    computation raises [RecursionError] when the tree is higher than
    the recursion limit. *)
Theorem weighted_table_too_deep t ann df limit :
  NoDup (names t) → (limit < height t)%nat →
  (∀ c, c ∈ find_clades t →
        is_ok (get_confidence_by_name_and_region df (name c)
                 (region_for ann (name c))) = true) →
  weighted_table t ann df limit = Raise RecursionError.
Proof.
  intros Hnames Hlim Hconf. unfold weighted_table.
  destruct (create_node_dict_spec t) as (nd & Hnd & _). rewrite Hnd. simpl.
  unfold calculate_weights. rewrite (table_root t ann nd Hnames Hnd). simpl.
  rewrite (assign_weight_too_deep t ann df nd Hnames Hnd Hconf t
             (find_clades_self t) limit _ Hlim).
  reflexivity.
Qed.

Lemma weighted_table_too_deep_witness :
  weighted_table Examples.scenario_tree Examples.scenario_annotations
    Examples.empty_table 1 = Raise RecursionError.
Proof.
  apply weighted_table_too_deep.
  - by_eval.
  - simpl. lia.
  - intros c Hc. cbn in Hc.
    repeat (apply elem_of_cons in Hc as [->|Hc]); [..|inversion Hc]; reflexivity.
Defined.

(** ** [calculate_spread_probabilities] *)

Lemma classify_is_ok nd d :
  is_ok (classify nd d) = true ↔
  (truthy (parent d) = true →
   ∃ pd, od_get (parent d) nd = Some pd ∧ is_Some (region pd)).
Proof.
  unfold classify, getitem, getregion. destruct (truthy (parent d)).
  - destruct (od_get (parent d) nd) as [pd|]; simpl.
    + destruct (region pd) as [r|] eqn:Hr; simpl.
      * split; [|reflexivity]. intros _ _. exists pd. split; [reflexivity|].
        rewrite Hr. eauto.
      * split; [discriminate|]. intros H.
        destruct (H eq_refl) as (? & [= <-] & [? Hs]). congruence.
    + split; [discriminate|]. intros H. destruct (H eq_refl) as (? & [=] & _).
  - simpl. split; [discriminate | reflexivity].
Qed.

Lemma parent_lookup_only_KeyError (nd : node_dict) d y :
  (if truthy (parent d)
   then pd ← getitem (parent d) nd; Some <$> getregion pd
   else Ok None) = Raise y → y = KeyError.
Proof.
  unfold getitem, getregion. destruct (truthy (parent d)); [|discriminate].
  destruct (od_get (parent d) nd) as [pd|]; simpl; [|congruence].
  destruct (region pd); simpl; [discriminate | congruence].
Qed.

Lemma spread_step_only_KeyError nd rw e x :
  spread_step nd rw e = Raise x → x = KeyError.
Proof.
  destruct e as [n d]. unfold spread_step, getstats. cbn [snd].
  destruct (rw !! region_of d) as [s|]; simpl; [|congruence].
  destruct (if truthy (parent d) then _ else _) as [pr|y] eqn:Hpr; simpl.
  - rewrite !lookup_insert_eq. simpl.
    destruct (bool_decide _); [discriminate|].
    destruct pr; simpl; [|discriminate]. destruct (negb _); discriminate.
  - intros [= <-]. eapply parent_lookup_only_KeyError, Hpr.
Qed.

Lemma spread_fold_only_KeyError nd l rw x :
  foldM (spread_step nd) l rw = Raise x → x = KeyError.
Proof.
  revert rw. induction l as [|e l IH]; intros rw; [discriminate|].
  cbn [foldM]. destruct (spread_step nd rw e) as [rw1|y] eqn:Hstep; simpl.
  - apply IH.
  - intros [= <-]. eapply spread_step_only_KeyError, Hstep.
Qed.

Lemma spread_fold_resolved nd l rw rw' :
  foldM (spread_step nd) l rw = Ok rw' →
  ∀ n d, (n, d) ∈ l → region_of d ∈ dom rw ∧ is_ok (classify nd d) = true.
Proof.
  revert rw. induction l as [|[n0 d0] l IH]; intros rw Hf n d Hin; [inversion Hin|].
  cbn [foldM] in Hf. apply bind_Ok in Hf as (rw1 & Hstep & Hrest).
  apply spread_step_Ok in Hstep as (s0 & k & Hs0 & Hk & ->).
  apply elem_of_cons in Hin as [[= -> ->]|Hin].
  - split; [apply elem_of_dom; eauto | rewrite Hk; reflexivity].
  - destruct (IH _ Hrest n d Hin) as [Hdom Hok]. split; [|exact Hok].
    apply elem_of_dom in Hdom. apply elem_of_dom.
    destruct (decide (region_of d0 = region_of d)) as [<-|Hne]; [eauto|].
    rewrite lookup_insert_ne in Hdom by exact Hne. exact Hdom.
Qed.

(** X14: The aggregation pass completes exactly when every node finds the
    record of its region and, if it has a parent, the region of the
    parent; in every other case it raises [KeyError], and it raises
    nothing else. *)
Theorem spread_outcome nd ann :
  ((∀ n d, (n, d) ∈ nd → resolvable nd ann d) →
     ∃ stats, calculate_spread_probabilities nd ann = Ok stats)
  ∧ (∀ n d, (n, d) ∈ nd → ¬ resolvable nd ann d →
       calculate_spread_probabilities nd ann = Raise KeyError).
Proof.
  unfold calculate_spread_probabilities. split.
  - intros Hall. apply spread_fold_completes. intros [n d] Hin.
    destruct (Hall n d Hin) as [Hr Hp]. cbn [snd]. split.
    + rewrite dom_gset_to_gmap. exact Hr.
    + apply classify_is_ok, Hp.
  - intros n d Hin Hnot.
    destruct (foldM (spread_step nd) nd _) as [stats|x] eqn:Hrun.
    + exfalso. apply Hnot.
      destruct (spread_fold_resolved _ _ _ _ Hrun n d Hin) as [Hdom Hok].
      rewrite dom_gset_to_gmap in Hdom. split; [exact Hdom|].
      apply classify_is_ok, Hok.
    + apply spread_fold_only_KeyError in Hrun as ->. reflexivity.
Qed.

Lemma spread_outcome_witness :
  (∃ stats, calculate_spread_probabilities Examples.scenario_weighted
              Examples.scenario_annotations = Ok stats)
  ∧ calculate_spread_probabilities Examples.three_roots_table
      Examples.scenario_annotations = Raise KeyError.
Proof.
  split.
  - apply (proj1 (spread_outcome Examples.scenario_weighted
                    Examples.scenario_annotations)).
    intros n d Hin. unfold Examples.scenario_weighted in Hin.
    repeat (apply elem_of_cons in Hin as [[= -> ->]|Hin]); [..|inversion Hin];
      (split; [by_eval | intros Ht];
       first [discriminate Ht | eexists; split; [reflexivity | simpl; eauto]]).
  - apply (proj2 (spread_outcome Examples.three_roots_table
                    Examples.scenario_annotations)
             None (mkNode [Some "A"%string; Some "B"%string] None 0 None)).
    + left.
    + intros [Hr _]. revert Hr. by_eval.
Defined.

(** X15: The statistics of a completed pass have one record per value of the
    annotation mapping, whatever the node table. *)
Theorem spread_regions nd ann stats :
  calculate_spread_probabilities nd ann = Ok stats →
  dom stats = map_img ann.
Proof.
  intros Hrun. unfold calculate_spread_probabilities in Hrun.
  rewrite (spread_fold_dom _ _ _ _ Hrun). apply dom_gset_to_gmap.
Qed.

Lemma spread_regions_witness :
  dom Examples.scenario_stats = map_img Examples.scenario_annotations.
Proof.
  apply (spread_regions Examples.scenario_weighted). by_eval.
Defined.

Lemma classify_ToSource nd d pr :
  classify nd d = Ok (ToSource pr) →
  pr ≠ region_of d ∧ pr ≠ ""%string
  ∧ ∃ pd, od_get (parent d) nd = Some pd ∧ region pd = Some pr.
Proof.
  unfold classify, getitem, getregion. destruct (truthy (parent d)); simpl.
  - destruct (od_get (parent d) nd) as [pd|]; simpl; [|discriminate].
    destruct (region pd) as [r|] eqn:Hr; simpl; [|discriminate].
    destruct (bool_decide (Some r = Some (region_of d))) eqn:Hb; [discriminate|].
    apply bool_decide_eq_false in Hb.
    destruct (bool_decide (r = ""%string)) eqn:He; simpl; [discriminate|].
    apply bool_decide_eq_false in He. intros [= <-].
    split; [congruence|]. split; [exact He|]. exists pd. rewrite Hr. auto.
  - discriminate.
Qed.

Lemma spread_fold_sources nd l rw rw' :
  foldM (spread_step nd) l rw = Ok rw' →
  ∀ r s pr, rw' !! r = Some s → is_Some (sources s !! pr) →
    (∃ s0, rw !! r = Some s0 ∧ is_Some (sources s0 !! pr))
    ∨ (pr ≠ r ∧ pr ≠ ""%string
       ∧ ∃ n d pd, (n, d) ∈ l ∧ region_of d = r
                   ∧ od_get (parent d) nd = Some pd ∧ region pd = Some pr).
Proof.
  revert rw. induction l as [|[n d] l IH]; intros rw Hf r s pr Hs Hpr.
  - injection Hf as <-. left. eauto.
  - cbn [foldM] in Hf. apply bind_Ok in Hf as (rw1 & Hstep & Hrest).
    apply spread_step_Ok in Hstep as (s0 & k & Hs0 & Hk & ->).
    destruct (IH _ Hrest r s pr Hs Hpr)
      as [(s1 & Hs1 & Hpr1)|(? & ? & n' & d' & pd & Hin & ?)].
    + destruct (decide (region_of d = r)) as [<-|Hne].
      * rewrite lookup_insert_eq in Hs1. injection Hs1 as <-.
        destruct k as [|pr0|]; simpl in Hpr1; [left; eauto| |left; eauto].
        destruct (decide (pr0 = pr)) as [->|Hne0].
        -- right. apply classify_ToSource in Hk as (? & ? & pd & ? & ?).
           split; [assumption|]. split; [assumption|].
           exists n, d, pd. split; [left|]. auto.
        -- rewrite lookup_insert_ne in Hpr1 by exact Hne0. left. eauto.
      * rewrite lookup_insert_ne in Hs1 by exact Hne. left. eauto.
    + right. split; [assumption|]. split; [assumption|].
      exists n', d', pd. split; [right; exact Hin | assumption].
Qed.

(** X16: In the statistics of a completed pass, a key of the [sources] of a
    region is never that region itself and never the empty string: it is
    the region of the parent of some node of the region. *)
Theorem sources_are_parent_regions nd ann stats r s pr :
  calculate_spread_probabilities nd ann = Ok stats →
  stats !! r = Some s → is_Some (sources s !! pr) →
  pr ≠ r ∧ pr ≠ ""%string
  ∧ ∃ n d pd, (n, d) ∈ nd ∧ region_of d = r
              ∧ od_get (parent d) nd = Some pd ∧ region pd = Some pr.
Proof.
  intros Hrun Hs Hpr. unfold calculate_spread_probabilities in Hrun.
  destruct (spread_fold_sources _ _ _ _ Hrun r s pr Hs Hpr)
    as [(s0 & Hs0 & Hpr0)|H]; [|exact H].
  apply empty_stats_lookup in Hs0 as ->. simpl in Hpr0.
  rewrite lookup_empty in Hpr0. destruct Hpr0 as [? [=]].
Qed.

Lemma sources_are_parent_regions_witness :
  ("Region1" ≠ "Region2" ∧ "Region1" ≠ ""
   ∧ ∃ n d pd, (n, d) ∈ Examples.scenario_weighted ∧ region_of d = "Region2"
               ∧ od_get (parent d) Examples.scenario_weighted = Some pd
               ∧ region pd = Some "Region1")%string.
Proof.
  apply (sources_are_parent_regions Examples.scenario_weighted
           Examples.scenario_annotations Examples.scenario_stats
           "Region2" (mkStats 1 {[ "Region1"%string := 1 ]} 0) "Region1");
    by_eval.
Defined.


Lemma spread_fold_untouched nd l rw rw' r :
  foldM (spread_step nd) l rw = Ok rw' →
  (∀ n d, (n, d) ∈ l → region_of d ≠ r) →
  rw' !! r = rw !! r.
Proof.
  revert rw. induction l as [|[n d] l IH]; intros rw Hf Hl.
  - injection Hf as <-. reflexivity.
  - cbn [foldM] in Hf. apply bind_Ok in Hf as (rw1 & Hstep & Hrest).
    apply spread_step_Ok in Hstep as (s0 & k & Hs0 & Hk & ->).
    rewrite (IH _ Hrest) by (intros n' d' Hin; apply (Hl n'); right; exact Hin).
    apply lookup_insert_ne, (Hl n d). left.
Qed.

(** X17: A value of the annotation mapping that no node of the table carries
    (the region of a name that is not in the tree, say) keeps the record
    it was created with: total 0, local 0 and no sources. *)
Theorem region_without_nodes nd ann stats r :
  calculate_spread_probabilities nd ann = Ok stats →
  r ∈ (map_img ann : gset string) →
  (∀ n d, (n, d) ∈ nd → region_of d ≠ r) →
  stats !! r = Some empty_stats.
Proof.
  intros Hrun Hr Hnone. unfold calculate_spread_probabilities in Hrun.
  rewrite (spread_fold_untouched _ _ _ _ r Hrun Hnone).
  apply lookup_gset_to_gmap_Some. auto.
Qed.

Lemma region_without_nodes_witness :
  (<["Unknown" := empty_stats]> Examples.scenario_stats : gmap string region_stats)
    !! "Unknown"%string = Some empty_stats.
Proof.
  apply (region_without_nodes Examples.scenario_weighted
           (<[";" := "Unknown"]> Examples.scenario_annotations)%string).
  - by_eval.
  - by_eval.
  - intros n d Hin. unfold Examples.scenario_weighted in Hin.
    repeat (apply elem_of_cons in Hin as [[= -> ->]|Hin]); [..|inversion Hin];
      discriminate.
Defined.


Lemma added_nonneg nd inc r l :
  (∀ k w, 0 ≤ w → 0 ≤ inc k w) →
  (∀ n d, (n, d) ∈ l → 0 ≤ weight d) →
  0 ≤ added nd inc r l.
Proof.
  intros Hinc. induction l as [|[n d] l IH]; intros Hl.
  - apply Qcle_refl.
  - rewrite added_cons. cbn [snd].
    rewrite <- (Qcplus_0_l 0) at 1. apply Qcplus_le_compat.
    + destruct (decide (region_of d = r)); [|apply Qcle_refl].
      destruct (classify nd d); [|apply Qcle_refl].
      apply Hinc, (Hl n d). left.
    + apply IH. intros n' d' Hin. apply (Hl n'). right. exact Hin.
Qed.

Lemma whole_weights_nonneg nd n d : whole_weights nd → (n, d) ∈ nd → 0 ≤ weight d.
Proof.
  intros [Hwhole _] Hin. destruct (Hwhole n d Hin) as (z & Hz & ->).
  rewrite <- Z2Qc_inj_0. exact (proj1 (Z2Qc_inj_le 0 z) Hz).
Qed.

Lemma scenario_whole_weights : whole_weights Examples.scenario_weighted.
Proof.
  split; [|by_eval]. intros n d Hin. unfold Examples.scenario_weighted in Hin.
  repeat (apply elem_of_cons in Hin as [[= -> ->]|Hin]); [..|inversion Hin];
    [exists 2%Z | exists 1%Z | exists 1%Z]; (split; [lia | by_eval]).
Qed.

(** X18: When the weights of the table are whole numbers, none negative,
    of sum at most [2^53] (so that the sums of the pass are exact
    whatever the kind of the numbers), the statistics of a completed
    pass satisfy [local + Σ sources.values() ≤ total] for every region,
    whatever the annotation of the nodes. *)
Theorem flows_bounded_by_total nd ann stats r s :
  whole_weights nd →
  calculate_spread_probabilities nd ann = Ok stats →
  stats !! r = Some s →
  local s + sum_values (sources s) ≤ total s.
Proof.
  intros Hwhole Hrun Hs.
  assert (Hw : ∀ n d, (n, d) ∈ nd → 0 ≤ weight d)
    by (intros n d; apply whole_weights_nonneg, Hwhole).
  unfold calculate_spread_probabilities in Hrun.
  destruct (spread_fold_measure nd unexplained inc_unexplained
              unexplained_contribute _ _ _ Hrun r s Hs) as (s0 & Hs0 & Heq).
  apply empty_stats_lookup in Hs0 as ->.
  assert (H0 : 0 ≤ unexplained s).
  { rewrite Heq. unfold unexplained at 1. simpl.
    replace (0 - 0 - sum_values ∅) with 0 by (unfold sum_values; rewrite map_fold_empty; ring).
    rewrite Qcplus_0_l. apply added_nonneg; [|exact Hw].
    intros [| |] w Hw0; simpl; (exact Hw0 || apply Qcle_refl). }
  unfold unexplained in H0.
  apply (Qcplus_le_compat _ _ _ _ (Qcle_refl (local s + sum_values (sources s)))) in H0.
  replace (local s + sum_values (sources s) + 0) with (local s + sum_values (sources s))
    in H0 by ring.
  replace (local s + sum_values (sources s) + (total s - local s - sum_values (sources s)))
    with (total s) in H0 by ring.
  exact H0.
Qed.

Lemma flows_bounded_by_total_witness :
  1 + sum_values (∅ : gmap string Qc) ≤ Qc_of_Z 3.
Proof.
  apply (flows_bounded_by_total Examples.scenario_weighted
           Examples.scenario_annotations Examples.scenario_stats
           "Region1" (mkStats (Qc_of_Z 3) ∅ 1)).
  - exact scenario_whole_weights.
  - by_eval.
  - by_eval.
Defined.


Lemma sum_totals_insert_fresh (rw : gmap string region_stats) k s :
  rw !! k = None → sum_totals (<[k := s]> rw) = total s + sum_totals rw.
Proof.
  intros Hk. unfold sum_totals.
  apply (map_fold_insert_L (λ (_ : string) (x : region_stats) (acc : Qc), total x + acc));
    [|exact Hk].
  intros. ring.
Qed.

Lemma sum_totals_update (rw : gmap string region_stats) k s s' :
  rw !! k = Some s →
  sum_totals (<[k := s']> rw) = sum_totals rw + (total s' - total s).
Proof.
  intros Hk. rewrite <- (insert_delete_id rw k s Hk) at 2.
  rewrite <- insert_delete_eq.
  rewrite !sum_totals_insert_fresh by apply lookup_delete_eq. ring.
Qed.

Lemma sum_totals_zero (rw : gmap string region_stats) :
  (∀ k s, rw !! k = Some s → total s = 0) → sum_totals rw = 0.
Proof.
  induction rw as [|k s rw Hk _ IH] using map_first_key_ind.
  - intros _. reflexivity.
  - intros Hall. rewrite sum_totals_insert_fresh by exact Hk.
    rewrite (Hall k s) by apply lookup_insert_eq. rewrite IH; [ring|].
    intros k' s' Hk'. apply (Hall k'). rewrite lookup_insert_ne; [exact Hk'|].
    intros ->. congruence.
Qed.

Lemma total_contribute_same k w s :
  total (contribute k w (add_total w s)) = total s + w.
Proof. destruct k; reflexivity. Qed.

Lemma spread_fold_totals nd l rw rw' :
  foldM (spread_step nd) l rw = Ok rw' →
  sum_totals rw' = sum_totals rw + sum_list ((λ e, weight e.2) <$> l).
Proof.
  revert rw. induction l as [|[n d] l IH]; intros rw Hf.
  - injection Hf as <-. unfold sum_list. simpl. ring.
  - cbn [foldM] in Hf. apply bind_Ok in Hf as (rw1 & Hstep & Hrest).
    apply spread_step_Ok in Hstep as (s0 & k & Hs0 & Hk & ->).
    rewrite (IH _ Hrest), (sum_totals_update _ _ _ _ Hs0), total_contribute_same.
    rewrite fmap_cons. unfold sum_list. cbn [foldr snd]. ring.
Qed.

(** X19: When the weights of the table are whole numbers, none negative,
    of sum at most [2^53], the totals of a completed pass add up to the
    weights of the whole table: every node is counted in the total of
    exactly one region, whether annotated or not. *)
Theorem totals_sum_to_all_weights nd ann stats :
  whole_weights nd →
  calculate_spread_probabilities nd ann = Ok stats →
  sum_totals stats = sum_list ((λ e, weight e.2) <$> nd).
Proof.
  intros _ Hrun. unfold calculate_spread_probabilities in Hrun.
  rewrite (spread_fold_totals _ _ _ _ Hrun), sum_totals_zero; [ring|].
  intros k s Hs. apply empty_stats_lookup in Hs as ->. reflexivity.
Qed.

Lemma totals_sum_to_all_weights_witness :
  sum_totals Examples.scenario_stats
  = sum_list ((λ e, weight e.2) <$> Examples.scenario_weighted).
Proof.
  apply (totals_sum_to_all_weights Examples.scenario_weighted
           Examples.scenario_annotations).
  - exact scenario_whole_weights.
  - by_eval.
Defined.

Lemma scenario_fully_annotated :
  fully_annotated Examples.scenario_weighted Examples.scenario_annotations.
Proof.
  intros n d Hin. unfold Examples.scenario_weighted in Hin.
  repeat (apply elem_of_cons in Hin as [[= -> ->]|Hin]); [..|inversion Hin];
    (eexists; split; [reflexivity|]; split; [discriminate | by_eval]).
Qed.

Lemma scenario_parents_present : parents_present Examples.scenario_weighted.
Proof.
  intros n d p Hin Hp. unfold Examples.scenario_weighted in Hin.
  repeat (apply elem_of_cons in Hin as [[= -> ->]|Hin]); [..|inversion Hin];
    simpl in Hp; try discriminate; injection Hp as <-;
    (split; [discriminate | by_eval]).
Qed.

(** X28: On a node table whose weights are whole numbers, none negative,
    of sum at most [2^53], in which every node carries a region of the
    mapping and every parent has a record, no region and no parent name
    being the empty string, the pass completes and returns one record
    per region of the mapping: its [total] is the sum of the weights of
    the nodes of the region, its [local] the sum over those whose
    parent lies in the same region, its [sources[pr]] the sum over
    those whose parent lies in the other region [pr]. *)
Theorem aggregation_on_whole_weights nd ann :
  whole_weights nd → fully_annotated nd ann → parents_present nd →
  ∃ stats, calculate_spread_probabilities nd ann = Ok stats
    ∧ dom stats = map_img ann
    ∧ ∀ r s, stats !! r = Some s →
        total s = spec_total nd r
        ∧ local s = spec_local nd r
        ∧ ∀ pr, default 0 (sources s !! pr) = spec_source nd r pr.
Proof. intros _ Hann Hpar. exact (aggregation_sums_table nd ann Hann Hpar). Qed.

Lemma aggregation_on_whole_weights_witness :
  ∃ stats,
    calculate_spread_probabilities Examples.scenario_weighted
      Examples.scenario_annotations = Ok stats
    ∧ dom stats = map_img Examples.scenario_annotations
    ∧ ∀ r s, stats !! r = Some s →
        total s = spec_total Examples.scenario_weighted r
        ∧ local s = spec_local Examples.scenario_weighted r
        ∧ ∀ pr, default 0 (sources s !! pr)
                = spec_source Examples.scenario_weighted r pr.
Proof.
  apply (aggregation_on_whole_weights Examples.scenario_weighted
           Examples.scenario_annotations).
  - exact scenario_whole_weights.
  - exact scenario_fully_annotated.
  - exact scenario_parents_present.
Defined.

(** X29: On a node table whose weights are whole numbers, none negative,
    of sum at most [2^53], in which one node has the parent [None] and
    every other node a parent of non-empty name, no region being the
    empty string, the statistics of a completed pass satisfy region
    conservation: [total - local - Σ sources.values()] of a region is
    the weight of that one node if it lies in the region, and 0
    otherwise. *)
Theorem conservation_on_whole_weights nd ann stats pre rt rd post :
  whole_weights nd →
  nd = pre ++ (rt, rd) :: post → parent rd = None →
  (∀ n d, (n, d) ∈ pre ++ post → truthy (parent d) = true) →
  (∀ n d, (n, d) ∈ nd → region d ≠ Some ""%string) →
  calculate_spread_probabilities nd ann = Ok stats →
  ∀ r s, stats !! r = Some s →
    total s - local s - sum_values (sources s)
    = if decide (region_of rd = r) then weight rd else 0.
Proof. intros _. apply region_conservation_table. Qed.

Lemma conservation_on_whole_weights_witness :
  Qc_of_Z 3 - 1 - sum_values (∅ : gmap string Qc)
  = if decide (region_of (mkNode [Some "A"%string; Some "B"%string] None 2
                            (Some "Region1"%string)) = "Region1"%string)
    then 2 else 0.
Proof.
  apply (conservation_on_whole_weights Examples.scenario_weighted
           Examples.scenario_annotations Examples.scenario_stats
           [] (Some "C"%string)
           (mkNode [Some "A"%string; Some "B"%string] None 2 (Some "Region1"%string))
           [(Some "A"%string, mkNode [] (Some "C"%string) 1 (Some "Region1"%string));
            (Some "B"%string, mkNode [] (Some "C"%string) 1 (Some "Region2"%string))]
           scenario_whole_weights)
    with (r := "Region1"%string) (s := mkStats (Qc_of_Z 3) ∅ 1).
  - reflexivity.
  - reflexivity.
  - intros n d Hin. cbn [app] in Hin.
    repeat (apply elem_of_cons in Hin as [[= -> ->]|Hin]); [..|inversion Hin];
      reflexivity.
  - intros n d Hin. unfold Examples.scenario_weighted in Hin.
    repeat (apply elem_of_cons in Hin as [[= -> ->]|Hin]); [..|inversion Hin];
      discriminate.
  - by_eval.
  - by_eval.
Defined.

(** ** Python strings: [split], [strip], [replace] *)

Section string_facts.
Local Open Scope string_scope.
#[local] Arguments String.append !_ _ / : simpl nomatch.

Lemma string_app_nil_r (s : string) : s ++ "" = s.
Proof. induction s as [|a s IH]; simpl; [reflexivity | rewrite IH; reflexivity]. Qed.

Lemma string_app_assoc (a b c : string) : (a ++ b) ++ c = a ++ b ++ c.
Proof. induction a as [|x a IH]; simpl; [reflexivity | rewrite IH; reflexivity]. Qed.

Lemma string_snoc (s : string) : s ≠ "" → ∃ x a, s = x ++ String a "".
Proof.
  induction s as [|a s IH]; intros Hs; [contradiction|].
  destruct s as [|b s].
  - exists "", a. reflexivity.
  - destruct IH as (x & z & Hx); [discriminate|]. exists (String a x), z.
    simpl. rewrite <- Hx. reflexivity.
Qed.

Lemma chars_cons a s : chars (String a s) = a :: chars s.
Proof. reflexivity. Qed.

Lemma chars_app a b : chars (a ++ b) = (chars a ++ chars b)%list.
Proof.
  unfold chars. induction a as [|x a IH]; [reflexivity|].
  simpl. rewrite IH. reflexivity.
Qed.

Lemma chars_rev_string cur : chars (PyStr.rev_string cur) = rev cur.
Proof. apply list_ascii_of_string_of_list_ascii. Qed.

Lemma elem_of_rev (a : ascii) l : a ∈ rev l ↔ a ∈ l.
Proof. rewrite !list_elem_of_In. symmetry. apply in_rev. Qed.

Lemma rev_string_cons a cur :
  PyStr.rev_string (a :: cur) = PyStr.rev_string cur ++ String a "".
Proof.
  unfold PyStr.rev_string. simpl. induction (rev cur) as [|x l IH]; simpl;
    [reflexivity | rewrite IH; reflexivity].
Qed.

Lemma rev_string_app a cur :
  PyStr.rev_string (rev (chars a) ++ cur)%list = PyStr.rev_string cur ++ a.
Proof.
  revert cur. induction a as [|x a IH]; intros cur.
  - simpl. rewrite string_app_nil_r. reflexivity.
  - rewrite chars_cons. simpl rev. rewrite <- app_assoc. simpl app.
    rewrite IH, rev_string_cons, string_app_assoc. reflexivity.
Qed.

Lemma split_go_step sep cur a s :
  PyStr.split_go sep O cur (String a s)
  = if PyStr.startswith sep (String a s)
    then PyStr.rev_string cur :: PyStr.split_go sep (String.length sep - 1)%nat [] s
    else PyStr.split_go sep O (a :: cur) s.
Proof. reflexivity. Qed.

Lemma split_go_nonempty sep k cur s : PyStr.split_go sep k cur s ≠ [].
Proof.
  revert k cur. induction s as [|a s IH]; intros k cur; [discriminate|].
  destruct k as [|k]; [|apply IH].
  rewrite split_go_step. destruct (PyStr.startswith _ _); [discriminate | apply IH].
Qed.

Lemma split_pieces_chars sep s k cur p a :
  p ∈ PyStr.split_go sep k cur s → a ∈ chars p → a ∈ cur ∨ a ∈ chars s.
Proof.
  revert k cur. induction s as [|x s IH]; intros k cur Hp Ha.
  - apply list_elem_of_singleton in Hp as ->. rewrite chars_rev_string in Ha.
    left. apply elem_of_rev, Ha.
  - rewrite chars_cons. destruct k as [|k].
    + rewrite split_go_step in Hp. destruct (PyStr.startswith _ _).
      * apply elem_of_cons in Hp as [->|Hp].
        -- rewrite chars_rev_string in Ha. left. apply elem_of_rev, Ha.
        -- destruct (IH _ _ Hp Ha) as [H|H]; [inversion H | right; right; exact H].
      * destruct (IH _ _ Hp Ha) as [H|H]; [|right; right; exact H].
        apply elem_of_cons in H as [->|H]; [right; left | left; exact H].
    + destruct (IH _ _ Hp Ha) as [H|H]; [left; exact H | right; right; exact H].
Qed.

(** *** A separator of one character *)

Lemma split1_step c cur a s :
  PyStr.split_go (String c "") O cur (String a s)
  = if bool_decide (c = a)
    then PyStr.rev_string cur :: PyStr.split_go (String c "") O [] s
    else PyStr.split_go (String c "") O (a :: cur) s.
Proof.
  rewrite split_go_step. cbn [PyStr.startswith].
  destruct (bool_decide (c = a)); reflexivity.
Qed.

Lemma split1_join c s cur :
  join (String c "") (PyStr.split_go (String c "") O cur s)
  = PyStr.rev_string cur ++ s.
Proof.
  revert cur. induction s as [|a s IH]; intros cur.
  - simpl. rewrite string_app_nil_r. reflexivity.
  - rewrite split1_step. destruct (bool_decide (c = a)) eqn:Hb.
    + apply bool_decide_eq_true in Hb as <-. specialize (IH []).
      destruct (PyStr.split_go (String c "") O [] s) as [|p l] eqn:Hsp;
        [exfalso; exact (split_go_nonempty _ _ _ _ Hsp)|].
      cbn [join]. cbn [join] in IH. rewrite IH. reflexivity.
    + rewrite IH, rev_string_cons, string_app_assoc. reflexivity.
Qed.

Lemma split1_pieces c s cur p :
  p ∈ PyStr.split_go (String c "") O cur s → c ∉ cur → c ∉ chars p.
Proof.
  revert cur. induction s as [|a s IH]; intros cur Hp Hc.
  - apply list_elem_of_singleton in Hp as ->. rewrite chars_rev_string.
    rewrite elem_of_rev. exact Hc.
  - rewrite split1_step in Hp. destruct (bool_decide (c = a)) eqn:Hb.
    + apply elem_of_cons in Hp as [->|Hp].
      * rewrite chars_rev_string, elem_of_rev. exact Hc.
      * apply (IH [] Hp). intros H. inversion H.
    + apply bool_decide_eq_false in Hb. apply (IH _ Hp).
      intros [->|H]%elem_of_cons; [apply Hb; reflexivity | exact (Hc H)].
Qed.

Lemma split1_length c s cur :
  List.length (PyStr.split_go (String c "") O cur s) = S (count_char c s).
Proof.
  revert cur. induction s as [|a s IH]; intros cur; [reflexivity|].
  rewrite split1_step. cbn [count_char].
  destruct (decide (c = a)) as [->|Hne].
  - rewrite !bool_decide_eq_true_2 by reflexivity. cbn [List.length]. rewrite IH.
    reflexivity.
  - rewrite !bool_decide_eq_false_2 by congruence. rewrite IH. reflexivity.
Qed.

(** *** Any separator, told by its first character *)

Lemma split_go_prefix c0 sep' a s cur :
  c0 ∉ chars a →
  PyStr.split_go (String c0 sep') O cur (a ++ s)
  = PyStr.split_go (String c0 sep') O (rev (chars a) ++ cur)%list s.
Proof.
  revert cur. induction a as [|x a IH]; intros cur Hc; [reflexivity|].
  rewrite chars_cons in Hc. apply not_elem_of_cons in Hc as [Hx Hc].
  change (String x a ++ s) with (String x (a ++ s)).
  rewrite split_go_step. cbn [PyStr.startswith].
  rewrite bool_decide_eq_false_2 by exact Hx. cbn [andb].
  rewrite IH by exact Hc. rewrite chars_cons. simpl rev. rewrite <- app_assoc.
  reflexivity.
Qed.

Lemma split_go_plain c0 sep' b cur :
  c0 ∉ chars b →
  PyStr.split_go (String c0 sep') O cur b = [PyStr.rev_string cur ++ b].
Proof.
  intros Hc. transitivity (PyStr.split_go (String c0 sep') O cur (b ++ "")).
  - rewrite string_app_nil_r. reflexivity.
  - rewrite split_go_prefix by exact Hc. cbn [PyStr.split_go].
    rewrite rev_string_app. reflexivity.
Qed.

Lemma startswith_app p s : PyStr.startswith p (p ++ s) = true.
Proof.
  induction p as [|a p IH]; simpl; [destruct s; reflexivity|].
  rewrite bool_decide_eq_true_2 by reflexivity. exact IH.
Qed.

Lemma split_go_skip sep x cur b :
  PyStr.split_go sep (String.length x) cur (x ++ b) = PyStr.split_go sep O cur b.
Proof. induction x as [|a x IH]; [reflexivity | exact IH]. Qed.

Lemma split_go_sep c0 sep' cur b :
  PyStr.split_go (String c0 sep') O cur (String c0 sep' ++ b)
  = PyStr.rev_string cur :: PyStr.split_go (String c0 sep') O [] b.
Proof.
  change (String c0 sep' ++ b) with (String c0 (sep' ++ b)).
  rewrite split_go_step.
  change (String c0 (sep' ++ b)) with (String c0 sep' ++ b).
  rewrite startswith_app. cbn [String.length]. rewrite Nat.sub_1_r. cbn [Nat.pred].
  rewrite split_go_skip. reflexivity.
Qed.

Lemma split_two c0 sep' a b :
  c0 ∉ chars a → c0 ∉ chars b →
  PyStr.split (String c0 sep') (a ++ String c0 sep' ++ b) = [a; b].
Proof.
  intros Ha Hb. unfold PyStr.split.
  rewrite split_go_prefix by exact Ha. rewrite split_go_sep.
  rewrite split_go_plain by exact Hb. rewrite rev_string_app. reflexivity.
Qed.

Lemma last_piece_split1 c x y cur :
  c ∉ chars y →
  PyStr.last_piece (PyStr.split_go (String c "") O cur (x ++ String c y)) = y.
Proof.
  intros Hy. revert cur. induction x as [|a x IH]; intros cur.
  - change ("" ++ String c y) with (String c "" ++ y). rewrite split_go_sep.
    rewrite split_go_plain by exact Hy. reflexivity.
  - change (String a x ++ String c y) with (String a (x ++ String c y)).
    rewrite split1_step. destruct (bool_decide (c = a)); [|apply IH].
    specialize (IH []).
    destruct (PyStr.split_go (String c "") O [] (x ++ String c y)) as [|p l] eqn:Hsp;
      [exfalso; exact (split_go_nonempty _ _ _ _ Hsp)|].
    exact IH.
Qed.

Lemma first_piece_split1 c x y :
  c ∉ chars x →
  PyStr.first_piece (PyStr.split (String c "") (x ++ String c y)) = x.
Proof.
  intros Hx. unfold PyStr.split.
  change (x ++ String c y) with (x ++ String c "" ++ y).
  rewrite split_go_prefix by exact Hx. rewrite split_go_sep.
  cbn [PyStr.first_piece hd]. rewrite rev_string_app. reflexivity.
Qed.

(** *** [strip] *)

Lemma lstrip_head s a t : PyStr.lstrip s = String a t → PyStr.is_space a = false.
Proof.
  induction s as [|a0 s IH]; simpl; [discriminate|].
  destruct (PyStr.is_space a0) eqn:Ha0; [exact IH|].
  intros [= <- _]. exact Ha0.
Qed.

Lemma rstrip_head s a t : PyStr.rstrip s = String a t → ∃ t', s = String a t'.
Proof.
  destruct s as [|a0 s0]; simpl; [discriminate|].
  destruct (PyStr.rstrip s0).
  - destruct (PyStr.is_space a0); [discriminate|]. intros [= <- _]. eauto.
  - intros [= <- _]. eauto.
Qed.

Lemma rstrip_last s x a :
  PyStr.rstrip s = x ++ String a "" → PyStr.is_space a = false.
Proof.
  revert x. induction s as [|a0 s0 IH]; intros x; simpl.
  - destruct x; discriminate.
  - destruct (PyStr.rstrip s0) as [|b r] eqn:Hr.
    + destruct (PyStr.is_space a0) eqn:Ha0; [destruct x; discriminate|].
      destruct x as [|x0 x]; simpl; [intros [= <-]; exact Ha0|].
      intros [= _ H]. destruct x; discriminate.
    + destruct x as [|x0 x]; simpl; [discriminate|].
      intros [= _ H]. exact (IH x H).
Qed.

Lemma blank_cons a s : blank (String a s) ↔ PyStr.is_space a = true ∧ blank s.
Proof.
  unfold blank. rewrite chars_cons. split.
  - intros H. split; [apply H; left | intros b Hb; apply H; right; exact Hb].
  - intros [Ha Hs] b [->|Hb]%elem_of_cons; [exact Ha | exact (Hs b Hb)].
Qed.

Lemma lstrip_blank w s : blank w → PyStr.lstrip (w ++ s) = PyStr.lstrip s.
Proof.
  induction w as [|a w IH]; [reflexivity|]. intros [Ha Hw]%blank_cons.
  simpl. rewrite Ha. exact (IH Hw).
Qed.

Lemma rstrip_blank w : blank w → PyStr.rstrip w = "".
Proof.
  induction w as [|a w IH]; [reflexivity|]. intros [Ha Hw]%blank_cons.
  simpl. rewrite (IH Hw), Ha. reflexivity.
Qed.

Lemma rstrip_app_blank s w : blank w → PyStr.rstrip (s ++ w) = PyStr.rstrip s.
Proof.
  intros Hw. induction s as [|a s IH]; simpl.
  - exact (rstrip_blank w Hw).
  - rewrite IH. reflexivity.
Qed.

Lemma rstrip_id x a :
  PyStr.is_space a = false →
  PyStr.rstrip (x ++ String a "") = x ++ String a "".
Proof.
  intros Ha. induction x as [|b x IH]; simpl.
  - rewrite Ha. reflexivity.
  - rewrite IH. destruct (x ++ String a "") eqn:E; [destruct x; discriminate|].
    reflexivity.
Qed.

(** A string that [strip] leaves as it is and that is not empty begins
    and ends with a character that is no whitespace. *)
Lemma stripped_ends s :
  PyStr.strip s = s → s ≠ "" →
  (∃ a t, s = String a t ∧ PyStr.is_space a = false)
  ∧ (∃ x z, s = x ++ String z "" ∧ PyStr.is_space z = false).
Proof.
  intros Hs Hne. unfold PyStr.strip in Hs. split.
  - destruct s as [|a t]; [contradiction|]. exists a, t. split; [reflexivity|].
    destruct (rstrip_head _ _ _ Hs) as [t' Ht']. exact (lstrip_head _ _ _ Ht').
  - destruct (string_snoc s Hne) as (x & z & Hx). exists x, z.
    split; [exact Hx|]. rewrite Hx in Hs at 2. exact (rstrip_last _ _ _ Hs).
Qed.

(** *** [replace(c, '')] *)

Lemma remove_char_app c a b :
  PyStr.remove_char c (a ++ b) = PyStr.remove_char c a ++ PyStr.remove_char c b.
Proof.
  induction a as [|x a IH]; [reflexivity|]. simpl.
  destruct (bool_decide (x = c)); [exact IH | simpl; rewrite IH; reflexivity].
Qed.

Lemma remove_char_id c s : c ∉ chars s → PyStr.remove_char c s = s.
Proof.
  induction s as [|a s IH]; [reflexivity|]. rewrite chars_cons.
  intros [Ha Hs]%not_elem_of_cons. simpl.
  rewrite bool_decide_eq_false_2 by congruence. rewrite (IH Hs). reflexivity.
Qed.

Lemma remove_char_chars c s a :
  a ∈ chars (PyStr.remove_char c s) ↔ a ∈ chars s ∧ a ≠ c.
Proof.
  induction s as [|x s IH]; cbn [PyStr.remove_char].
  - split; [intros H; inversion H | intros [H _]; inversion H].
  - rewrite chars_cons. destruct (bool_decide (x = c)) eqn:Hb.
    + apply bool_decide_eq_true in Hb as ->. rewrite IH, elem_of_cons.
      split; [tauto | intros [[->|H] Hne]; [contradiction | auto]].
    + apply bool_decide_eq_false in Hb. rewrite chars_cons, !elem_of_cons, IH.
      split; [intros [->|[H Hne]]; auto | tauto].
Qed.

Lemma clean_app a b : clean (a ++ b) = clean a ++ clean b.
Proof. unfold clean. rewrite !remove_char_app. reflexivity. Qed.

Lemma clean_chars s a :
  a ∈ chars (clean s) ↔ a ∈ chars s ∧ a ∉ deleted_chars.
Proof.
  unfold clean, deleted_chars. rewrite !remove_char_chars.
  rewrite !not_elem_of_cons. split.
  - intros [[[H ?] ?] ?]. split; [exact H|]. repeat split; [assumption..|].
    apply not_elem_of_nil.
  - intros [H (? & ? & ? & _)]. auto.
Qed.

Lemma clean_id s : (∀ a, a ∈ chars s → a ∉ deleted_chars) → clean s = s.
Proof.
  unfold deleted_chars. intros Hs. unfold clean.
  rewrite (remove_char_id ParseNexus.dquote s), (remove_char_id ")"%char s),
    (remove_char_id ","%char s); [reflexivity|..];
    intros H; apply (Hs _ H); set_solver.
Qed.

Lemma clean_deleted s : (∀ a, a ∈ chars s → a ∈ deleted_chars) → clean s = "".
Proof.
  intros Hs. destruct (clean s) as [|a t] eqn:E; [reflexivity|]. exfalso.
  assert (Ha : a ∈ chars (clean s)) by (rewrite E, chars_cons; left).
  apply clean_chars in Ha as [Ha Hn]. exact (Hn (Hs a Ha)).
Qed.

End string_facts.

(** ** The trait file read by [main] *)

Lemma parse_trait_line_Some line n r :
  parse_trait_line line = Some (n, r) ↔
  PyStr.split ParseNexus.tab (PyStr.strip line) = [n; r].
Proof.
  unfold parse_trait_line.
  destruct (PyStr.split _ _) as [|a [|b [|c l]]]; split; congruence.
Qed.

Lemma trait_strip line n r :
  parse_trait_line line = Some (n, r) →
  PyStr.strip line = (n ++ ParseNexus.tab ++ r)%string.
Proof.
  intros H. apply parse_trait_line_Some in H.
  pose proof (split1_join tab_char (PyStr.strip line) []) as Hj.
  unfold PyStr.split, ParseNexus.tab in H. unfold tab_char in Hj.
  rewrite H in Hj. symmetry. exact Hj.
Qed.

Lemma trait_nonempty line n r :
  parse_trait_line line = Some (n, r) → n ≠ ""%string ∧ r ≠ ""%string.
Proof.
  intros H. apply trait_strip in H. unfold PyStr.strip in H. split; intros ->.
  - destruct (rstrip_head _ _ _ H) as [t Ht]. apply lstrip_head in Ht.
    discriminate Ht.
  - apply rstrip_last in H. discriminate H.
Qed.

Lemma trait_count line :
  is_Some (parse_trait_line line)
  ↔ count_char tab_char (PyStr.strip line) = 1%nat.
Proof.
  pose proof (split1_length tab_char (PyStr.strip line) []) as Hlen.
  unfold parse_trait_line, PyStr.split.
  change ParseNexus.tab with (String tab_char "").
  destruct (PyStr.split_go (String tab_char "") O [] (PyStr.strip line))
    as [|a [|b [|c l]]]; cbn [List.length] in Hlen.
  - discriminate Hlen.
  - split; [intros [? [=]] | intros Hc; rewrite Hc in Hlen; discriminate].
  - split; [intros _; congruence | eauto].
  - split; [intros [? [=]] | intros Hc; rewrite Hc in Hlen; discriminate].
Qed.

(** X20: A line that [main] accepts has, once stripped, the form
    [node<TAB>region] with a node name and a region that are not empty
    and hold no tab. *)
Theorem trait_line_fields line n r :
  parse_trait_line line = Some (n, r) →
  PyStr.strip line = (n ++ ParseNexus.tab ++ r)%string
  ∧ n ≠ ""%string ∧ r ≠ ""%string
  ∧ (tab_char ∉ chars n) ∧ (tab_char ∉ chars r).
Proof.
  intros H. split; [exact (trait_strip _ _ _ H)|].
  destruct (trait_nonempty _ _ _ H) as [Hn Hr]. split; [exact Hn|]. split; [exact Hr|].
  apply parse_trait_line_Some in H. unfold PyStr.split, ParseNexus.tab in H.
  split; apply (split1_pieces tab_char (PyStr.strip line) []);
    try apply not_elem_of_nil; unfold tab_char; rewrite H; set_solver.
Qed.

Lemma trait_line_fields_witness :
  PyStr.strip (" A" ++ ParseNexus.tab ++ "R1 ") = ("A" ++ ParseNexus.tab ++ "R1")%string
  ∧ "A"%string ≠ ""%string ∧ "R1"%string ≠ ""%string
  ∧ (tab_char ∉ chars "A") ∧ (tab_char ∉ chars "R1").
Proof.
  apply (trait_line_fields (" A" ++ ParseNexus.tab ++ "R1 ") "A" "R1"). reflexivity.
Defined.

Lemma strip_padded w1 s w2 :
  blank w1 → blank w2 → PyStr.strip (w1 ++ s ++ w2) = PyStr.strip s.
Proof.
  intros H1 H2. unfold PyStr.strip. rewrite lstrip_blank by exact H1.
  induction s as [|a s IH].
  - change (PyStr.lstrip (""%string ++ w2)) with (PyStr.lstrip w2).
    rewrite <- (string_app_nil_r w2), lstrip_blank by exact H2. reflexivity.
  - change (String a s ++ w2)%string with (String a (s ++ w2)).
    cbn [PyStr.lstrip]. destruct (PyStr.is_space a); [exact IH|].
    change (String a (s ++ w2)) with (String a s ++ w2)%string.
    apply rstrip_app_blank, H2.
Qed.

Lemma trait_line_plain n r :
  PyStr.strip n = n → n ≠ ""%string → PyStr.strip r = r → r ≠ ""%string →
  tab_char ∉ chars n → tab_char ∉ chars r →
  PyStr.split ParseNexus.tab (PyStr.strip (n ++ ParseNexus.tab ++ r)) = [n; r].
Proof.
  intros Hsn Hn Hsr Hr Htn Htr.
  destruct (stripped_ends n Hsn Hn) as [(a & t & -> & Ha) _].
  destruct (stripped_ends r Hsr Hr) as [_ (x & z & -> & Hz)].
  assert (Hstrip : PyStr.strip (String a t ++ ParseNexus.tab ++ x ++ String z "")
                   = (String a t ++ ParseNexus.tab ++ x ++ String z "")%string).
  { unfold PyStr.strip.
    change (String a t ++ ParseNexus.tab ++ x ++ String z "")%string
      with (String a (t ++ ParseNexus.tab ++ x ++ String z "")).
    cbn [PyStr.lstrip]. rewrite Ha.
    change (String a (t ++ ParseNexus.tab ++ x ++ String z ""))
      with (String a t ++ ParseNexus.tab ++ x ++ String z "")%string.
    rewrite <- !string_app_assoc. apply rstrip_id, Hz. }
  rewrite Hstrip. apply split_two; assumption.
Qed.

(** X21: A line [node<TAB>region], with any whitespace around it (the
    newline that [print] appends, say), is accepted and read as that
    node and that region, when neither is empty, holds a tab, or begins
    or ends with whitespace. *)
Theorem trait_line_accepts w1 n r w2 :
  blank w1 → blank w2 →
  PyStr.strip n = n → n ≠ ""%string → PyStr.strip r = r → r ≠ ""%string →
  tab_char ∉ chars n → tab_char ∉ chars r →
  parse_trait_line (w1 ++ (n ++ ParseNexus.tab ++ r) ++ w2) = Some (n, r).
Proof.
  intros H1 H2 Hsn Hn Hsr Hr Htn Htr. apply parse_trait_line_Some.
  rewrite strip_padded by assumption. apply trait_line_plain; assumption.
Qed.

Lemma trait_line_accepts_witness :
  parse_trait_line (" " ++ ("A" ++ ParseNexus.tab ++ "R1") ++ String "010" "")
  = Some ("A"%string, "R1"%string).
Proof.
  apply (trait_line_accepts " " "A" "R1" (String "010" ""));
    try reflexivity; try discriminate; try by_eval;
    intros a Ha; apply list_elem_of_singleton in Ha as ->; reflexivity.
Defined.

Lemma read_from_invariant (P : gmap string string → Prop) :
  (∀ ann line n r, P ann → parse_trait_line line = Some (n, r) → P (<[n := r]> ann)) →
  ∀ lines ann0 ann, P ann0 → read_annotations_from ann0 lines = Some ann → P ann.
Proof.
  intros Hstep. induction lines as [|line lines IH]; intros ann0 ann H0 Hrun.
  - injection Hrun as <-. exact H0.
  - cbn [read_annotations_from] in Hrun.
    destruct (parse_trait_line line) as [[n r]|] eqn:Hline; [|discriminate].
    exact (IH _ _ (Hstep _ _ _ _ H0 Hline) Hrun).
Qed.

(** X22: The annotation mapping that [main] reads has no empty region and no
    empty node name: it satisfies the condition on the regions under
    which the aggregated statistics add up. *)
Theorem read_annotations_nonempty lines ann :
  read_annotations lines = Some ann →
  nonempty_regions ann ∧ ann !! ""%string = None.
Proof.
  intros Hrun.
  apply (read_from_invariant
           (λ m, nonempty_regions m ∧ m !! ""%string = None)) in Hrun.
  - exact Hrun.
  - intros m line n r [Hreg Hname] Hline.
    destruct (trait_nonempty _ _ _ Hline) as [Hn Hr]. split.
    + intros s. destruct (decide (n = s)) as [->|Hne].
      * rewrite lookup_insert_eq. congruence.
      * rewrite lookup_insert_ne by exact Hne. apply Hreg.
    + rewrite lookup_insert_ne by exact Hn. exact Hname.
  - split; [intros s; rewrite lookup_empty; discriminate | apply lookup_empty].
Qed.

Lemma read_annotations_nonempty_witness :
  nonempty_regions Examples.partial_annotations
  ∧ Examples.partial_annotations !! ""%string = None.
Proof.
  apply (read_annotations_nonempty ["A" ++ ParseNexus.tab ++ "R1"]%string).
  by_eval.
Defined.

Lemma read_from_app ann0 l1 l2 :
  read_annotations_from ann0 (l1 ++ l2)
  = read_annotations_from ann0 l1 ≫= λ a, read_annotations_from a l2.
Proof.
  revert ann0. induction l1 as [|line l1 IH]; intros ann0; [reflexivity|].
  cbn [app read_annotations_from].
  destruct (parse_trait_line line) as [[n r]|]; [apply IH | reflexivity].
Qed.

Lemma read_from_untouched n lines ann0 ann :
  read_annotations_from ann0 lines = Some ann →
  (∀ line r, line ∈ lines → parse_trait_line line ≠ Some (n, r)) →
  ann !! n = ann0 !! n.
Proof.
  revert ann0. induction lines as [|line lines IH]; intros ann0 Hrun Hl.
  - injection Hrun as <-. reflexivity.
  - cbn [read_annotations_from] in Hrun.
    destruct (parse_trait_line line) as [[n' r']|] eqn:Hline; [|discriminate].
    rewrite (IH _ Hrun) by (intros l r Hin; apply Hl; right; exact Hin).
    apply lookup_insert_ne. intros ->. apply (Hl line r'); [left | exact Hline].
Qed.

(** X23: When several lines of the trait file name the same node, the last
    of them decides its region. *)
Theorem read_annotations_last_wins l1 line l2 n r ann :
  read_annotations (l1 ++ line :: l2) = Some ann →
  parse_trait_line line = Some (n, r) →
  (∀ line' r', line' ∈ l2 → parse_trait_line line' ≠ Some (n, r')) →
  ann !! n = Some r.
Proof.
  intros Hrun Hline Hl2. unfold read_annotations in Hrun.
  rewrite read_from_app in Hrun.
  destruct (read_annotations_from ∅ l1) as [a1|]; [|discriminate].
  cbn [mbind option_bind read_annotations_from] in Hrun. rewrite Hline in Hrun.
  rewrite (read_from_untouched n _ _ _ Hrun Hl2). apply lookup_insert_eq.
Qed.

Lemma read_annotations_last_wins_witness :
  ({[ "A" := "R2" ]} : gmap string string) !! "A"%string = Some "R2"%string.
Proof.
  apply (read_annotations_last_wins
           ["A" ++ ParseNexus.tab ++ "R1"]%string
           ("A" ++ ParseNexus.tab ++ "R2")%string [] "A"%string "R2"%string).
  - by_eval.
  - reflexivity.
  - intros line' r' Hin. inversion Hin.
Defined.

Lemma read_from_outcome lines ann0 :
  is_Some (read_annotations_from ann0 lines)
  ↔ ∀ line, line ∈ lines → count_char tab_char (PyStr.strip line) = 1%nat.
Proof.
  revert ann0. induction lines as [|line lines IH]; intros ann0.
  - split; [intros _ l Hl; inversion Hl | eauto].
  - cbn [read_annotations_from]. split.
    + intros Hrun l Hl.
      destruct (parse_trait_line line) as [[n r]|] eqn:Hline;
        [|destruct Hrun as [? [=]]].
      apply elem_of_cons in Hl as [->|Hl].
      * apply trait_count. rewrite Hline. eauto.
      * exact (proj1 (IH _) Hrun l Hl).
    + intros Hall.
      destruct (proj2 (trait_count line) (Hall line ltac:(left))) as [[n r] ->].
      apply IH. intros l Hl. apply Hall. right. exact Hl.
Qed.

(** X24: The reading loop of [main] completes exactly when every line of the
    trait file, once stripped, holds exactly one tab; any other line (a
    blank one, say) stops it with [ValueError]. *)
Theorem trait_reading_outcome lines :
  is_Some (read_annotations lines)
  ↔ ∀ line, line ∈ lines → count_char tab_char (PyStr.strip line) = 1%nat.
Proof. apply read_from_outcome. Qed.

(** ** [parse_nex] *)

Lemma free_of_app cs a b : free_of cs (a ++ b) ↔ free_of cs a ∧ free_of cs b.
Proof. unfold free_of. rewrite chars_app. apply Forall_app. Qed.

Lemma free_of_notin cs s c : free_of cs s → c ∈ cs → c ∉ chars s.
Proof.
  unfold free_of. rewrite Forall_forall. intros Hs Hc Hin. exact (Hs c Hin Hc).
Qed.

Lemma free_of_weaken cs cs' s : cs' ⊆ cs → free_of cs s → free_of cs' s.
Proof.
  unfold free_of. intros Hsub H. eapply Forall_impl; [exact H|].
  intros a Ha Hin. exact (Ha (Hsub a Hin)).
Qed.

Lemma first_piece_in (l : list string) : l ≠ [] → PyStr.first_piece l ∈ l.
Proof. destruct l; [contradiction | left]. Qed.

Lemma last_piece_in (l : list string) : l ≠ [] → PyStr.last_piece l ∈ l.
Proof.
  induction l as [|p l IH]; [contradiction|]. intros _.
  destruct l as [|q l]; [left|]. right. apply IH. discriminate.
Qed.

(** X25: A token [name:length[&state=region], after text that ends with an
    opening bracket or after closing brackets, commas and quotes only,
    is printed as [name<TAB>region]. *)
Theorem emit_annotated_token b pre0 pre1 name len region :
  (pre0 = ""%string ∨ ∃ x, pre0 = (x ++ "(")%string) →
  made_of deleted_chars pre1 →
  free_of ("("%char :: ":"%char :: "["%char :: deleted_chars) name →
  free_of ("("%char :: "["%char :: deleted_chars) len →
  free_of ("("%char :: "["%char :: deleted_chars) region →
  ParseNexus.emit b
    (pre0 ++ pre1 ++ name ++ ":" ++ len ++ "[&state=" ++ region)%string
  = (name ++ ParseNexus.tab ++ region)%string.
Proof.
  intros Hpre0 Hpre1 Hname Hlen Hregion.
  set (body := (name ++ ":" ++ len ++ "[&state=" ++ region)%string).
  assert (Hbody : free_of ("("%char :: deleted_chars) body).
  { unfold body. rewrite !free_of_app. repeat split;
      try (eapply free_of_weaken; [|eassumption]; unfold deleted_chars; set_solver);
      unfold free_of, deleted_chars; by_eval. }
  assert (Hopen : "("%char ∉ chars (pre1 ++ body)).
  { rewrite chars_app, not_elem_of_app. split.
    - intros Hin. unfold made_of in Hpre1. rewrite Forall_forall in Hpre1.
      specialize (Hpre1 _ Hin). revert Hpre1. unfold deleted_chars. by_eval.
    - apply (free_of_notin _ _ _ Hbody). left. }
  unfold ParseNexus.emit.
  assert (Hlast : PyStr.last_piece
                    (PyStr.split "(" (pre0 ++ pre1 ++ body)) = (pre1 ++ body)%string).
  { unfold PyStr.split. destruct Hpre0 as [->|[x ->]].
    - change (""%string ++ pre1 ++ body)%string with (pre1 ++ body)%string.
      rewrite split_go_plain by exact Hopen. reflexivity.
    - rewrite string_app_assoc. apply last_piece_split1, Hopen. }
  rewrite Hlast. fold (clean (pre1 ++ body)).
  rewrite clean_app, clean_deleted, clean_id.
  - change (""%string ++ body)%string with body.
    replace body with ((name ++ ":" ++ len) ++ "[&state=" ++ region)%string
      by (unfold body; rewrite !string_app_assoc; reflexivity).
    rewrite split_two.
    + change (":" ++ len)%string with (String ":" len).
      rewrite first_piece_split1; [reflexivity|].
      apply (free_of_notin _ _ _ Hname). set_solver.
    + rewrite !chars_app, !not_elem_of_app. repeat split.
      * apply (free_of_notin _ _ _ Hname). set_solver.
      * by_eval.
      * apply (free_of_notin _ _ _ Hlen). set_solver.
    + apply (free_of_notin _ _ _ Hregion). set_solver.
  - intros a Ha Hdel. unfold free_of in Hbody. rewrite Forall_forall in Hbody.
    apply (Hbody a Ha). right. exact Hdel.
  - unfold made_of in Hpre1. rewrite Forall_forall in Hpre1. exact Hpre1.
Qed.

Lemma emit_annotated_token_witness :
  ParseNexus.emit ParseNexus.blank_default
    (" Tree tree1=(" ++ "" ++ "A" ++ ":" ++ "0.1" ++ "[&state=" ++ "R1")%string
  = ("A" ++ ParseNexus.tab ++ "R1")%string.
Proof.
  apply (emit_annotated_token ParseNexus.blank_default
           " Tree tree1=(" "" "A" "0.1" "R1").
  - right. exists " Tree tree1="%string. reflexivity.
  - unfold made_of. by_eval.
  - unfold free_of, deleted_chars. by_eval.
  - unfold free_of, deleted_chars. by_eval.
  - unfold free_of, deleted_chars. by_eval.
Defined.

Lemma emit_name_chars b j :
  ∃ x v, ParseNexus.emit b j = (x ++ ParseNexus.tab ++ v)%string
         ∧ free_of name_free_chars x.
Proof.
  unfold ParseNexus.emit. fold (clean (PyStr.last_piece (PyStr.split "(" j))).
  set (body := PyStr.last_piece (PyStr.split "(" j)).
  assert (Hbody : "("%char ∉ chars body).
  { apply (split1_pieces "("%char j []); [|apply not_elem_of_nil].
    apply last_piece_in, split_go_nonempty. }
  assert (Hname : ∀ p0, p0 ∈ PyStr.split "[&state=" (clean body) →
            free_of name_free_chars (PyStr.first_piece (PyStr.split ":" p0))).
  { intros p0 Hp0. unfold free_of. apply Forall_forall. intros a Ha Hin.
    assert (Hfirst : PyStr.first_piece (PyStr.split ":" p0) ∈ PyStr.split ":" p0)
      by apply first_piece_in, split_go_nonempty.
    destruct (split_pieces_chars _ _ _ _ _ _ Hfirst Ha) as [H|Hap0]; [inversion H|].
    destruct (split_pieces_chars _ _ _ _ _ _ Hp0 Hap0) as [H|Hac]; [inversion H|].
    apply clean_chars in Hac as [Hab Hdel].
    unfold name_free_chars, deleted_chars in *.
    repeat (apply elem_of_cons in Hin as [->|Hin]); [..|inversion Hin].
    - exact (Hbody Hab).
    - apply Hdel. set_solver.
    - apply Hdel. set_solver.
    - apply Hdel. set_solver.
    - revert Ha. apply (split1_pieces ":"%char p0 []); [exact Hfirst|].
      apply not_elem_of_nil. }
  destruct (PyStr.split "[&state=" (clean body)) as [|p0 [|p1 rest]] eqn:Hpart.
  - exfalso. exact (split_go_nonempty _ _ _ _ Hpart).
  - eexists _, _. split; [reflexivity|]. apply Hname. left.
  - eexists _, _. split; [reflexivity|]. apply Hname. left.
Qed.

(** X26: The name column of a printed line never holds a bracket, a comma, a
    double quote or a colon. *)
Theorem parse_nex_name_chars nexus b l :
  l ∈ ParseNexus.parse_nex nexus b →
  ∃ x v, l = (x ++ ParseNexus.tab ++ v)%string ∧ free_of name_free_chars x.
Proof.
  unfold ParseNexus.parse_nex. intros Hl.
  apply elem_of_flat_map in Hl as (i & _ & Hl).
  destruct (PyStr.startswith _ _); [|inversion Hl].
  apply list_elem_of_fmap in Hl as (j & -> & _). apply emit_name_chars.
Qed.

Lemma parse_nex_name_chars_witness :
  ∃ x v, ("A" ++ ParseNexus.tab ++ "R2")%string = (x ++ ParseNexus.tab ++ v)%string
         ∧ free_of name_free_chars x.
Proof.
  apply (parse_nex_name_chars [Examples.partly_annotated_line]
           ParseNexus.blank_default).
  by_eval.
Defined.

(** X27: Every line that begins, once stripped, with [Tree] prints one line
    more than it holds closing square brackets (the text after the last
    of them is printed as a line of its own); every other line prints
    nothing. *)
Theorem parse_nex_line_count nexus b :
  List.length (ParseNexus.parse_nex nexus b) = list_sum (printed_for <$> nexus).
Proof.
  unfold ParseNexus.parse_nex. induction nexus as [|i nexus IH]; [reflexivity|].
  cbn [flat_map fmap list_fmap list_sum foldr]. rewrite List.length_app, IH.
  f_equal. unfold printed_for. destruct (PyStr.startswith _ _); [|reflexivity].
  rewrite length_fmap. apply split1_length.
Qed.

(** ** The weighting of [main] on a table loaded by [read_confidence] *)






(** * The weight recursion over any arithmetic *)

Section machine_recursion.
Context {num : Type}.
Variables (zero one : num) (add mul : num → num → result num).
Variable lookup : pyname → string → result num.
Variable nd : node_dict.

Lemma formula_in_ext (c : num) (cs : list pyname) (W W' : gmap pyname num) :
  (∀ ch, ch ∈ cs → W' !! ch = W !! ch) →
  formula_in zero one add mul c cs W' = formula_in zero one add mul c cs W.
Proof.
  intros Hcs. unfold formula_in. destruct cs as [|ch0 cs0]; [reflexivity|].
  revert Hcs. generalize (ch0 :: cs0) as l. generalize zero as a.
  intros a l. revert a. induction l as [|x l IH]; intros a Hl; [reflexivity|].
  cbn [foldM].
  replace (getweight_in W' x) with (getweight_in W x)
    by (unfold getweight_in; rewrite (Hl x) by left; reflexivity).
  match goal with |- ?m ≫= _ = _ => destruct m as [b|e] end; [|reflexivity].
  cbn [mbind result_bind]. apply IH. intros ch Hch. apply Hl. right. exact Hch.
Qed.

(** The loop over the children, given the specification of the
    recursive calls. *)
Lemma sum_children_in_spec limit (c : num) :
  (∀ n W V w W', consistent_in zero one add mul lookup nd V W →
     assign_weight_in zero one add mul lookup nd limit n W = Ok (w, W') →
     ∃ V', V ⊆ V' ∧ n ∈ V' ∧ consistent_in zero one add mul lookup nd V' W'
           ∧ W' !! n = Some w
           ∧ (∀ m, m ∈ V → W' !! m = W !! m)
           ∧ (∀ m, m ∉ V' → W' !! m = W !! m)) →
  ∀ cs a W0 V0 a1 W1, consistent_in zero one add mul lookup nd V0 W0 →
    foldM (sum_step_in add mul (assign_weight_in zero one add mul lookup nd limit) c)
          cs (a, W0) = Ok (a1, W1) →
    ∃ V1, V0 ⊆ V1 ∧ (∀ ch, ch ∈ cs → ch ∈ V1)
          ∧ consistent_in zero one add mul lookup nd V1 W1
          ∧ foldM (λ acc ch, w ← getweight_in W1 ch; item ← mul w c; add acc item)
                  cs a = Ok a1
          ∧ (∀ m, m ∈ V0 → W1 !! m = W0 !! m)
          ∧ (∀ m, m ∉ V1 → W1 !! m = W0 !! m).
Proof.
  intros Hrec. induction cs as [|ch cs IH]; intros a W0 V0 a1 W1 Hc Hf.
  - injection Hf as <- <-. exists V0. repeat split; auto.
    intros ch Hch. inversion Hch.
  - cbn [foldM] in Hf. apply bind_Ok in Hf as ([a' Wm] & Hstep & Hrest).
    unfold sum_step_in in Hstep.
    apply bind_Ok in Hstep as ([w Wm'] & Hcall & Hstep).
    apply bind_Ok in Hstep as (item & Hmul & Hstep).
    apply bind_Ok in Hstep as (acc & Hadd & Heq). injection Heq as <- <-.
    destruct (Hrec _ _ _ _ _ Hc Hcall) as (Vm & Hsub & Hin & Hcm & Hw & Hpres & Hout).
    destruct (IH _ _ _ _ _ Hcm Hrest) as (V1 & Hsub1 & Hin1 & Hc1 & Ha1 & Hpres1 & Hout1).
    exists V1. split; [set_solver|]. split; [|split; [exact Hc1|split; [|split]]].
    + intros x Hx. apply elem_of_cons in Hx as [->|Hx]; [set_solver | auto].
    + assert (Hg : getweight_in W1 ch = Ok w)
        by (unfold getweight_in; rewrite (Hpres1 ch Hin), Hw; reflexivity).
      cbn [foldM]. rewrite Hg. cbn [mbind result_bind]. rewrite Hmul.
      cbn [mbind result_bind]. rewrite Hadd. exact Ha1.
    + intros m Hm. rewrite Hpres1 by set_solver. apply Hpres, Hm.
    + intros m Hm. rewrite Hout1 by exact Hm. apply Hout. set_solver.
Qed.

(** A run of [assign_weight] from consistent weights leaves consistent
    weights that cover the node, and changes no value stored before. *)
Lemma assign_weight_in_spec limit :
  ∀ n W V w W', consistent_in zero one add mul lookup nd V W →
    assign_weight_in zero one add mul lookup nd limit n W = Ok (w, W') →
    ∃ V', V ⊆ V' ∧ n ∈ V' ∧ consistent_in zero one add mul lookup nd V' W'
          ∧ W' !! n = Some w
          ∧ (∀ m, m ∈ V → W' !! m = W !! m)
          ∧ (∀ m, m ∉ V' → W' !! m = W !! m).
Proof.
  induction limit as [|limit IH]; intros n W V w W' Hc Hrun; [discriminate|].
  cbn [assign_weight_in] in Hrun.
  apply bind_Ok in Hrun as (d & Hd & Hrun).
  apply bind_Ok in Hrun as (c & Hconf & Hrun).
  apply bind_Ok in Hrun as ([w1 W1] & Hbody & Hret).
  injection Hret as <- <-.
  unfold getitem in Hd. destruct (od_get n nd) as [d'|] eqn:Hget; [|discriminate].
  injection Hd as ->.
  assert (∃ V1, V ⊆ V1 ∧ (∀ ch, ch ∈ children d → ch ∈ V1)
                ∧ consistent_in zero one add mul lookup nd V1 W1
                ∧ formula_in zero one add mul c (children d) W1 = Ok w1
                ∧ (∀ m, m ∈ V → W1 !! m = W !! m)
                ∧ (∀ m, m ∉ V1 → W1 !! m = W !! m))
    as (V1 & Hsub & Hch & Hc1 & Hw1 & Hpres & Hout).
  { destruct (children d) as [|ch cs] eqn:Hcs.
    - apply bind_Ok in Hbody as (w0 & Hmul & Heq). injection Heq as <- <-.
      exists V. repeat split; auto. intros ch Hch. inversion Hch.
    - unfold sum_children_in in Hbody.
      destruct (sum_children_in_spec limit c IH _ _ _ _ _ _ Hc Hbody)
        as (V1 & ? & ? & ? & ? & ? & ?).
      exists V1. repeat split; auto. }
  exists (V1 ∪ {[n]}). split; [set_solver|]. split; [set_solver|].
  destruct (decide (n ∈ V1)) as [Hin|Hnin].
  - (* the node was reached before: the same value is stored again *)
    destruct (Hc1 n Hin) as (d' & c' & w' & Hget' & Hconf' & _ & HWn & Hval).
    rewrite Hget in Hget'. injection Hget' as <-.
    rewrite Hconf in Hconf'. injection Hconf' as <-.
    rewrite Hw1 in Hval. injection Hval as <-.
    rewrite (insert_id W1 n w1 HWn).
    split; [|split; [exact HWn|split; [exact Hpres|]]].
    + intros m Hm. assert (Hm1 : m ∈ V1) by set_solver.
      destruct (Hc1 m Hm1) as (dm & cm & wm & ? & ? & Hchm & ? & ?).
      exists dm, cm, wm. repeat split; auto. intros ch ?. set_solver.
    + intros m Hm. apply Hout. set_solver.
  - split; [|split; [apply lookup_insert_eq|split]].
    + intros m Hm. destruct (decide (m = n)) as [->|Hne].
      * exists d, c, w1. split; [exact Hget|]. split; [exact Hconf|].
        split; [intros ch ?; set_solver|]. split; [apply lookup_insert_eq|].
        rewrite <- Hw1. apply formula_in_ext. intros ch Hin.
        apply lookup_insert_ne. intros ->. apply Hnin, Hch, Hin.
      * assert (Hm1 : m ∈ V1) by set_solver.
        destruct (Hc1 m Hm1) as (dm & cm & wm & Hgm & Hcm & Hchm & HWm & Hvm).
        exists dm, cm, wm. split; [exact Hgm|]. split; [exact Hcm|].
        split; [intros ch ?; set_solver|].
        split; [rewrite lookup_insert_ne by congruence; exact HWm|].
        rewrite <- Hvm. apply formula_in_ext. intros ch Hin.
        apply lookup_insert_ne. intros ->. apply Hnin, Hchm, Hin.
    + intros m Hm. rewrite lookup_insert_ne; [apply Hpres, Hm|].
      intros ->. apply Hnin, Hsub, Hm.
    + intros m Hm. rewrite lookup_insert_ne by set_solver.
      apply Hout. set_solver.
Qed.

(** The last loop: one stored weight per key, in order, read from
    [weights]. *)
Lemma copy_in_spec (W : gmap pyname num) ks acc stored :
  foldM (λ stored node,
           w ← getweight_in W node;
           _ ← getitem node nd;
           Ok (stored ++ [(node, w)])) ks acc = Ok stored →
  ∃ tail, stored = acc ++ tail ∧ od_keys tail = ks
          ∧ ∀ n w, (n, w) ∈ tail → W !! n = Some w.
Proof.
  revert acc. induction ks as [|k ks IH]; intros acc Hf.
  - injection Hf as <-. exists []. rewrite app_nil_r. repeat split.
    intros n w Hin. inversion Hin.
  - cbn [foldM] in Hf. apply bind_Ok in Hf as (acc1 & Hstep & Hrest).
    apply bind_Ok in Hstep as (w0 & Hw0 & Hstep).
    apply bind_Ok in Hstep as (d0 & _ & Heq). injection Heq as <-.
    unfold getweight_in in Hw0. destruct (W !! k) as [x|] eqn:HW; [|discriminate].
    injection Hw0 as ->.
    destruct (IH _ Hrest) as (tail & -> & Hkeys & Hall).
    exists ((k, w0) :: tail). rewrite <- app_assoc. split; [reflexivity|].
    split; [unfold od_keys in *; rewrite fmap_cons, Hkeys; reflexivity|].
    intros n w Hin. apply elem_of_cons in Hin as [[= -> ->]|Hin];
      [exact HW | exact (Hall n w Hin)].
Qed.


(** A completed run: the weights stored are those of a map [W] that is
    consistent on a set [V] of nodes that contains the root and is
    closed under children. *)
Lemma calculate_weights_in_spec limit stored :
  calculate_weights_in zero one add mul lookup nd limit = Ok stored →
  ∃ root V W,
    find_root nd = Ok root ∧ root ∈ V
    ∧ consistent_in zero one add mul lookup nd V W
    ∧ od_keys stored = od_keys nd
    ∧ (∀ n w, (n, w) ∈ stored → W !! n = Some w).
Proof.
  unfold calculate_weights_in. intros Hrun.
  apply bind_Ok in Hrun as (root & Hroot & Hrun).
  apply bind_Ok in Hrun as ([w W] & Haw & Hcopy).
  eapply (assign_weight_in_spec limit root _ ∅ w W) in Haw as
    (V & _ & Hin & Hc & _ & _ & _); [|intros m Hm; set_solver].
  apply copy_in_spec in Hcopy as (tail & -> & Hkeys & Hall).
  exists root, V, W. repeat split; auto.
Qed.


Lemma formula_fold_values (c : num) (W : gmap pyname num) l a r :
  foldM (λ acc ch, w ← getweight_in W ch; item ← mul w c; add acc item) l a = Ok r →
  ∃ ws, Forall2 (λ ch w, W !! ch = Some w) l ws
        ∧ foldM (λ acc w, item ← mul w c; add acc item) ws a = Ok r.
Proof.
  revert a. induction l as [|x l IH]; intros a Hf.
  - injection Hf as <-. exists []. split; [constructor | reflexivity].
  - cbn [foldM] in Hf. apply bind_Ok in Hf as (a' & Hstep & Hrest).
    apply bind_Ok in Hstep as (w & Hw & Hstep).
    unfold getweight_in in Hw. destruct (W !! x) as [w0|] eqn:HW; [|discriminate].
    injection Hw as ->.
    destruct (IH _ Hrest) as (ws & Hall & Hsum).
    exists (w :: ws). split; [constructor; assumption|].
    cbn [foldM]. rewrite Hstep. exact Hsum.
Qed.
End machine_recursion.

(** The recursion on exact rationals is the recursion above at the exact
    arithmetic. *)
Lemma assign_weight_exact nd df limit n W :
  assign_weight nd df limit n W
  = assign_weight_in 0 1 exact_add exact_mul
      (get_confidence_by_name_and_region df) nd limit n W.
Proof.
  revert n W. induction limit as [|limit IH]; intros n W; [reflexivity|].
  cbn [assign_weight assign_weight_in].
  destruct (getitem n nd) as [d|]; [|reflexivity]. cbn [mbind result_bind].
  destruct (get_confidence_by_name_and_region df n (region_of d)) as [c|];
    [|reflexivity]. cbn [mbind result_bind].
  destruct (children d) as [|ch cs]; [reflexivity|].
  unfold sum_children, sum_children_in.
  rewrite (foldM_ext (sum_step (assign_weight nd df limit) c)
             (sum_step_in exact_add exact_mul
                (assign_weight_in 0 1 exact_add exact_mul
                   (get_confidence_by_name_and_region df) nd limit) c));
    [reflexivity|].
  intros [a W0] x. unfold sum_step, sum_step_in. rewrite IH.
  destruct (assign_weight_in _ _ _ _ _ _ _ _ _) as [[w W1]|]; reflexivity.
Qed.

Lemma formula_in_nonempty {num : Type} (zero one : num)
    (add mul : num → num → result num) (c : num) (cs : list pyname)
    (W : gmap pyname num) :
  cs ≠ [] →
  formula_in zero one add mul c cs W
  = foldM (λ acc ch, w ← getweight_in W ch; item ← mul w c; add acc item) cs zero.
Proof. destruct cs; [contradiction | reflexivity]. Qed.

(** C1 (as amended): for every tree of unique names, annotation and
    confidence lookup, and for numbers of any kind, once the weight
    computation has completed the weight stored for a leaf [n] is
    [1 * confidence(n, region(n))], and the weight stored for an
    internal node [n] with children [c1..ck] is
    [(..((0 + weight(c1) * conf) + weight(c2) * conf) ..) + weight(ck) * conf],
    [conf] being [confidence(n, region(n))] and [region(n)] the
    annotated region of [n], or ["Unknown"]: the products are added one
    by one from the left, in the arithmetic of the run. *)
Theorem weight_recurrence {num : Type} (zero one : num)
    (add mul : num → num → result num) (lookup : pyname → string → result num)
    (t : Clade) (ann : gmap string string) (limit : nat)
    (stored : list (pyname * num)) :
  NoDup (names t) →
  tree_weights zero one add mul lookup t ann limit = Ok stored →
  od_keys stored = names t
  ∧ ∀ c, c ∈ find_clades t →
      ∃ conf w,
        lookup (name c) (region_for ann (name c)) = Ok conf
        ∧ od_get (name c) stored = Some w
        ∧ (clades c = [] → mul one conf = Ok w)
        ∧ (clades c ≠ [] →
           ∃ ws, Forall2 (λ ch w', od_get (name ch) stored = Some w') (clades c) ws
                 ∧ sum_products zero add mul conf ws = Ok w).
Proof.
  intros Hnames Hrun. unfold tree_weights in Hrun.
  apply bind_Ok in Hrun as (nd0 & Hnd & Hrun).
  apply calculate_weights_in_spec in Hrun
    as (root & V & W & Hroot & Hin & Hcons & Hkeys & Hst).
  rewrite (table_root t ann nd0 Hnames Hnd) in Hroot. injection Hroot as <-.
  assert (Hk : od_keys stored = names t).
  { rewrite Hkeys, assign_geography_spec by (eapply create_node_dict_NoDup; eauto).
    rewrite od_keys_fmap_values. apply names_keys; assumption. }
  (* every name of the tree was reached *)
  assert (Hall : ∀ c, c ∈ find_clades t → name c ∈ V).
  { apply closed_covers_tree; [|exact Hin].
    intros c0 ch Hc0 Hn Hch.
    destruct (Hcons _ Hn) as (d & conf & w & Hd & _ & Hcl & _).
    apply Hcl. rewrite (table_record t ann nd0 _ Hnd (elem_of_names t c0 Hc0)) in Hd.
    injection Hd as <-. rewrite annotated_children. simpl.
    apply table_children_subset; assumption. }
  (* the weights stored are those of [W] *)
  assert (Hget : ∀ k w, k ∈ names t → W !! k = Some w → od_get k stored = Some w).
  { intros k w Hk' HW.
    assert (is_Some (od_get k stored)) as [w' Hw']
      by (apply od_get_is_Some; rewrite Hk; exact Hk').
    rewrite Hw'. f_equal. apply od_get_elem_of_1, Hst in Hw'. congruence. }
  split; [exact Hk|]. intros c Hc.
  destruct (Hcons _ (Hall c Hc)) as (d & conf & w & Hd & Hconf & Hcl & HW & Hval).
  rewrite (table_record t ann nd0 _ Hnd (elem_of_names t c Hc)) in Hd.
  injection Hd as <-. rewrite annotated_region in Hconf by reflexivity.
  rewrite annotated_children in Hval. cbn [children] in Hval.
  rewrite (table_children_exact t c Hnames Hc) in Hval.
  exists conf, w. split; [exact Hconf|].
  split; [apply Hget; [apply elem_of_names, Hc | exact HW]|]. split.
  - intros Hnil. rewrite Hnil in Hval. exact Hval.
  - intros Hne. rewrite formula_in_nonempty in Hval
      by (destruct (clades c); [contradiction | discriminate]).
    apply formula_fold_values in Hval as (ws & Hws & Hsum).
    exists ws. split; [|exact Hsum].
    apply Forall2_fmap_l in Hws.
    assert (Hconv : ∀ (cs : list Clade) (ws0 : list num),
              (∀ ch, ch ∈ cs → ch ∈ find_clades t) →
              Forall2 (λ ch w', W !! name ch = Some w') cs ws0 →
              Forall2 (λ ch w', od_get (name ch) stored = Some w') cs ws0).
    { intros cs ws0 Hsub HF.
      induction HF as [|ch w' cs ws' Hw _ IH]; constructor.
      - apply Hget; [apply elem_of_names, Hsub; left | exact Hw].
      - apply IH. intros x Hx. apply Hsub. right. exact Hx. }
    apply Hconv; [|exact Hws].
    intros ch Hch. eapply find_clades_child; eauto.
Qed.

Lemma weight_recurrence_witness :
  od_keys [(Some "C"%string, 0.12000000000000001%float);
           (Some "A"%string, 1%float); (Some "B"%string, 0.2%float)]
  = names Examples.scenario_tree
  ∧ ∀ c, c ∈ find_clades Examples.scenario_tree →
      ∃ conf w,
        Examples.decimal_lookup (name c) (region_for ∅ (name c)) = Ok conf
        ∧ od_get (name c)
            [(Some "C"%string, 0.12000000000000001%float);
             (Some "A"%string, 1%float); (Some "B"%string, 0.2%float)] = Some w
        ∧ (clades c = [] → float_mul 1 conf = Ok w)
        ∧ (clades c ≠ [] →
           ∃ ws, Forall2 (λ ch w',
                            od_get (name ch)
                              [(Some "C"%string, 0.12000000000000001%float);
                               (Some "A"%string, 1%float);
                               (Some "B"%string, 0.2%float)] = Some w')
                         (clades c) ws
                 ∧ sum_products 0%float float_add float_mul conf ws = Ok w).
Proof.
  apply (weight_recurrence 0%float 1%float float_add float_mul
           Examples.decimal_lookup Examples.scenario_tree ∅ 10).
  - by_eval.
  - vm_compute. reflexivity.
Defined.

(** C1 (the claim as stated fails): on the tree [(A,B)C;] with the
    confidences 1.0 for [A], 0.2 for [B] and 0.1 for [C], in doubles,
    the weight stored for [C] is [1.0 * 0.1 + 0.2 * 0.1], that is
    0.12000000000000001, while [confidence(C) * (weight(A) + weight(B))]
    is [0.1 * 1.2], that is 0.12. *)
Lemma factored_weight_differs_on_doubles :
  tree_weights 0%float 1%float float_add float_mul Examples.decimal_lookup
    Examples.scenario_tree ∅ 10
  = Ok [(Some "C"%string, 0.12000000000000001%float);
        (Some "A"%string, 1%float); (Some "B"%string, 0.2%float)]
  ∧ (w ← float_add 1 0.2; float_mul 0.1 w) = Ok 0.12%float
  ∧ 0.12000000000000001%float ≠ 0.12%float.
Proof.
  split; [vm_compute; reflexivity|]. split; [vm_compute; reflexivity|].
  intros H.
  assert (E : PrimFloat.eqb 0.12000000000000001 0.12 = false)
    by (vm_compute; reflexivity).
  rewrite H in E. vm_compute in E. discriminate E.
Qed.



